(** * sparsenetworks: the event-driven simulation of [system.py]

    A shallow embedding of [sparsenetworks/system.py] (classes [System] and
    [WithOutput]) and the properties of its phase-update law, event
    scheduler, connectivity generator and output buffering.

    Conventions of the embedding.
    - numpy's float64 arrays are lists of real numbers ([R]) and a matrix is
      the list of its rows; arithmetic is exact.  Tests on floats ([<],
      [<=], [==]) are the decidable order of [R].  Rounding, [inf] and [nan]
      are outside the model: where numpy divides by zero or takes the
      logarithm of zero without raising, the model has the value [R] gives.
    - Element-wise operations pair the entries of their arguments; the arrays
      of one object are created with matching shapes ([shaped]), so numpy's
      shape errors do not arise and are not modelled.
    - [np.random.rand] is a stream [U : nat -> R] of uniform draws together
      with a cursor kept in the object ([rng]); every call consumes the next
      draw, a matrix of draws is filled row by row.  That the draws lie in
      [0,1) is a hypothesis wherever it matters.
    - Python exceptions are the [Raise] results of the [result] monad; the
      divisions of Python floats, [1./l_i] and [float(K)/self.N[i]], raise
      ZeroDivisionError on a zero divisor.
    - Mutation of [self] is explicit state passing on the record [System].
    - A [while] loop is unrolled a given number of times ([fuel]); that a
      call returns is stated as: some number of unrollings gives [Returns].
    - The output folder is a map from file names to saved arrays; the
      progress bar on standard output and the pickled parameter record are
      left out. *)

From Stdlib Require Import Reals Lra Lia List ZArith Arith Bool Sorted.
Import ListNotations.
Local Open Scope R_scope.

(** ** Exceptions and the result monad *)

Inductive exn : Set :=
| IndexError
| ValueError
| TypeError
| ZeroDivisionError
| UnboundLocalError.

Inductive result (A : Type) : Type :=
| Ok (a : A)
| Raise (e : exn).
Arguments Ok {A} a.
Arguments Raise {A} e.

Definition bind {A B : Type} (m : result A) (k : A -> result B) : result B :=
  match m with
  | Ok a => k a
  | Raise e => Raise e
  end.

Notation "x <- m ;; k" := (bind m (fun x => k))
  (at level 61, m at next level, right associativity).
Notation "' pat <- m ;; k" := (bind m (fun x => match x with pat => k end))
  (at level 61, pat pattern, m at next level, right associativity).

(** What a [while] loop unrolled a given number of times has done: returned,
    raised, or is still running. *)
Inductive outcome (A : Type) : Type :=
| Returns (a : A)
| Raises (e : exn)
| Unfinished.
Arguments Returns {A} a.
Arguments Raises {A} e.
Arguments Unfinished {A}.

(** A [for] loop over a list of indices whose body may raise. *)
Fixpoint for_each {A S : Type} (l : list A) (body : A -> S -> result S) (s : S)
  : result S :=
  match l with
  | [] => Ok s
  | a :: l' => s' <- body a s ;; for_each l' body s'
  end.

Definition get_item {A : Type} (l : list A) (i : nat) : result A :=
  match nth_error l i with
  | Some a => Ok a
  | None => Raise IndexError
  end.

(** ** The numpy operations the program uses *)

Module np.

Definition Rltb (x y : R) : bool := if Rlt_dec x y then true else false.
Definition Rleb (x y : R) : bool := if Rle_dec x y then true else false.
Definition Reqb (x y : R) : bool := if Req_dec_T x y then true else false.

Definition zeros (n : nat) : list R := repeat 0 n.
Definition ones (n : nat) : list R := repeat 1 n.

(** [a.sum()] on an array of sizes. *)
Definition sum (l : list nat) : nat := fold_right Nat.add 0%nat l.

(** Element-wise binary operation on two arrays of one shape. *)
Fixpoint zip_with (f : R -> R -> R) (a b : list R) : list R :=
  match a, b with
  | x :: a', y :: b' => f x y :: zip_with f a' b'
  | _, _ => []
  end.

(** [np.where(cond)[0]]: the indices at which the test holds. *)
Fixpoint where_from (p : R -> bool) (a : list R) (i : nat) : list nat :=
  match a with
  | [] => []
  | x :: a' => if p x then i :: where_from p a' (S i) else where_from p a' (S i)
  end.
Definition where_ (p : R -> bool) (a : list R) : list nat := where_from p a 0.

(** [a[i] = x]. *)
Fixpoint set_at {A : Type} (i : nat) (x : A) (a : list A) : list A :=
  match a, i with
  | [], _ => []
  | _ :: a', O => x :: a'
  | y :: a', S i' => y :: set_at i' x a'
  end.

(** [a[idx] = x] for an index array [idx]. *)
Definition put (idx : list nat) (x : R) (a : list R) : list R :=
  fold_left (fun acc i => set_at i x acc) idx a.

(** [a.max()] and [a.min()]; numpy raises ValueError on an empty array. *)
Definition max (a : list R) : result R :=
  match a with
  | [] => Raise ValueError
  | x :: a' => Ok (fold_left Rmax a' x)
  end.
Definition min (a : list R) : result R :=
  match a with
  | [] => Raise ValueError
  | x :: a' => Ok (fold_left Rmin a' x)
  end.

(** [a.any()]: some entry is not zero. *)
Definition any (a : list R) : bool := existsb (fun x => negb (Reqb x 0)) a.

(** [x.astype(int)]: conversion of a float to an integer truncates toward
    zero. *)
Definition astype_int (x : R) : Z :=
  if Rle_dec 0 x then Int_part x else (- Int_part (- x))%Z.

(** [a[lo:lo+len] = f(a[lo:lo+len])]: an update of a slice in place. *)
Definition map_slice {A : Type} (lo len : nat) (f : A -> A) (a : list A) : list A :=
  firstn lo a ++ map f (firstn len (skipn lo a)) ++ skipn (lo + len) a.

(** [np.concatenate([A, B], 1)]: the rows of [A] extended by those of [B]. *)
Fixpoint concatenate1 (A B : list (list R)) : list (list R) :=
  match A, B with
  | ra :: A', rb :: B' => (ra ++ rb) :: concatenate1 A' B'
  | _, _ => []
  end.

(** [M.dot(v)] for a matrix given by its rows. *)
Definition dot_row (row v : list R) : R := fold_right Rplus 0 (zip_with Rmult row v).
Definition dot (M : list (list R)) (v : list R) : list R :=
  map (fun row => dot_row row v) M.

End np.

(** ** The class [System] *)

(** The attributes of a [System] object.  [I_gamma] is the array of shape
    (2, N.sum()): row 0 holds I, row 1 holds gamma, one entry per neuron.
    [events] is the list of pending deliveries (arrival time, spike vector).
    [rng] is the number of draws taken from [np.random] so far. *)
Record System : Type := mkSystem {
  N : list nat;
  N_ext : list nat;
  tau : R;
  I_gamma : list R * list R;
  t : R;
  events : list (R * list R);
  rates : list R;
  external_events : list R;
  phases : list R;
  weight_matrix : list (list R);
  rng : nat
}.

Definition set_phases (self : System) (p : list R) : System :=
  mkSystem (N self) (N_ext self) (tau self) (I_gamma self) (t self) (events self)
           (rates self) (external_events self) p (weight_matrix self) (rng self).

Definition set_events (self : System) (ev : list (R * list R)) : System :=
  mkSystem (N self) (N_ext self) (tau self) (I_gamma self) (t self) ev
           (rates self) (external_events self) (phases self) (weight_matrix self)
           (rng self).

Definition set_external_events (self : System) (ext : list R) : System :=
  mkSystem (N self) (N_ext self) (tau self) (I_gamma self) (t self) (events self)
           (rates self) ext (phases self) (weight_matrix self) (rng self).

Definition set_t (self : System) (t' : R) : System :=
  mkSystem (N self) (N_ext self) (tau self) (I_gamma self) t' (events self)
           (rates self) (external_events self) (phases self) (weight_matrix self)
           (rng self).

Definition set_rng (self : System) (k : nat) : System :=
  mkSystem (N self) (N_ext self) (tau self) (I_gamma self) (t self) (events self)
           (rates self) (external_events self) (phases self) (weight_matrix self) k.

Definition set_weight_matrix (self : System) (W : list (list R)) : System :=
  mkSystem (N self) (N_ext self) (tau self) (I_gamma self) (t self) (events self)
           (rates self) (external_events self) (phases self) W (rng self).

(** The value h gives to a neuron whose logarithm argument is not positive. *)
Definition sentinel : R := 11 / 10.

(** The logarithm argument of neuron [k]. *)
Definition log_arg_of (I_k gamma_k phase_k epsilon_k : R) : R :=
  exp (- gamma_k * phase_k) - gamma_k / I_k * epsilon_k.

(** [System.h]: the phase-update law, on the whole phase vector. *)
Definition h (self : System) (epsilon : list R) : list R :=
  let I := fst (I_gamma self) in
  let gamma := snd (I_gamma self) in
  let log_arg :=
    np.zip_with Rminus
      (map exp (np.zip_with Rmult (map Ropp gamma) (phases self)))
      (np.zip_with Rmult (np.zip_with Rdiv gamma I) epsilon) in
  let too_large := np.where_ (fun x => np.Rleb x 0) log_arg in
  let log_arg := np.put too_large 1 log_arg in
  let updated_phases :=
    np.zip_with Rmult (map (fun g => -1 / g) gamma) (map ln log_arg) in
  np.put too_large sentinel updated_phases.

(** [System.epsilon]: the jump in potential of each neuron. *)
Definition epsilon (self : System) (spike_vector : list R) : list R :=
  np.dot (weight_matrix self) spike_vector.

(** ** One step of the scheduler *)

(** The three branches of [jump_to_next_event]. *)
Inductive branch : Set :=
| SelfThreshold
| Tie
| Delivery.

Section Simulation.

(** The stream of uniform draws behind [np.random.rand]. *)
Variable U : nat -> R.

(** [System.get_InterSpikeInterval]: [self.t - 1./l_i*np.log(rand())].
    The division raises on a zero rate before the draw is taken. *)
Definition get_InterSpikeInterval (self : System) (l_i : R) : result (R * System) :=
  if np.Reqb l_i 0 then Raise ZeroDivisionError
  else Ok (t self - 1 / l_i * ln (U (rng self)), set_rng self (S (rng self))).

(** The search for the rate of external neuron [index]:
    [for i in range(1,len(rates)+1): if index < N_ext[:i].sum(): ... break]. *)
Definition find_rate_index (self : System) (index : nat) : option nat :=
  option_map Nat.pred
    (find (fun i => (index <? np.sum (firstn i (N_ext self)))%nat)
          (seq 1 (length (rates self)))).

(** The loop over the external neurons whose spike arrives now: mark the
    neuron in [ext_vect] and draw its next arrival time.  [default] is the
    initial value of [rate_index] ([None] or [0]). *)
Fixpoint external_spikes (default : option nat) (indices : list nat)
         (self : System) (ext_vect : list R) : result (list R * System) :=
  match indices with
  | [] => Ok (ext_vect, self)
  | index :: rest =>
      let ext_vect := np.set_at index 1 ext_vect in
      let rate_index :=
        match find_rate_index self index with
        | Some k => Some k
        | None => default
        end in
      rate <- (match rate_index with
               | None => Raise TypeError
               | Some k => get_item (rates self) k
               end);;
      '(isi, self) <- get_InterSpikeInterval self rate;;
      external_spikes default rest
        (set_external_events self (np.set_at index isi (external_events self)))
        ext_vect
  end.

(** [self.events.pop(0)]. *)
Definition pop_event (self : System) : result ((R * list R) * System) :=
  match events self with
  | [] => Raise IndexError
  | ev :: rest => Ok (ev, set_events self rest)
  end.

(** The three-way [if location==1 / elif location==2 / elif location==3]
    that assembles the spike vector of the deliveries due at [t+dt].
    [default3] is the initial [rate_index] of the [location==3] case.  With
    [location==0] no case assigns [spike_vector] and its use raises. *)
Definition arrivals (default3 : option nat) (location : nat) (dt : R)
           (self : System) : result (list R * System) :=
  match location with
  | 1%nat =>
      '(ev, self) <- pop_event self;;
      Ok (snd ev ++ np.zeros (np.sum (N_ext self)), self)
  | 2%nat =>
      let ext_vect := np.zeros (np.sum (N_ext self)) in
      let indices :=
        np.where_ (fun x => np.Reqb x (t self + dt)) (external_events self) in
      '(ext_vect, self) <- external_spikes None indices self ext_vect;;
      Ok (np.zeros (np.sum (N self)) ++ ext_vect, self)
  | 3%nat =>
      let ext_vect := np.zeros (np.sum (N_ext self)) in
      let indices :=
        np.where_ (fun x => np.Reqb x (t self + dt)) (external_events self) in
      '(ext_vect, self) <- external_spikes default3 indices self ext_vect;;
      '(ev, self) <- pop_event self;;
      Ok (snd ev ++ ext_vect, self)
  | _ => Raise UnboundLocalError
  end.

(** Advance the phases by [dt], let the neurons at or above 1 spike, reset
    them to 0 and append the delivery to the queue (lines 121-133, and again
    143-154). *)
Definition fire (self : System) (dt : R) : System :=
  let ph := map (fun p => p + dt) (phases self) in
  let spike_id := np.where_ (fun p => np.Rleb 1 p) ph in
  let spikes := np.put spike_id 1 (np.zeros (length ph)) in
  let ph := np.zip_with Rminus ph (np.zip_with Rmult spikes ph) in
  set_events (set_phases self ph)
             (events self ++ [(tau self + t self + dt, spikes)]).

(** The loop that neglects a spike elicited in a neuron of [neuron_id]. *)
Fixpoint neglect (neuron_id : list nat) (ph : list R) : result (list R) :=
  match neuron_id with
  | [] => Ok ph
  | i :: rest =>
      p <- get_item ph i;;
      if np.Rltb 1 p then neglect rest (np.set_at i 0 ph) else neglect rest ph
  end.

(** The choice of the next delivery: time to it, and which kind
    (0 none, 1 internal, 2 external, 3 both). *)
Definition next_delivery (self : System) : result (R * nat) :=
  let '(dt, location) :=
    match events self with
    | [] => (500, 0%nat)
    | ev :: _ => (fst ev - t self, 1%nat)
    end in
  if np.any (external_events self) then
    m <- np.min (external_events self);;
    let min_dt := m - t self in
    if np.Rltb min_dt dt then Ok (min_dt, 2%nat)
    else if np.Reqb min_dt dt then Ok (dt, 3%nat)
    else Ok (dt, location)
  else Ok (dt, location).

(** The first branch of the step (lines 113-133): some phase reaches the
    threshold before any delivery.  No potential jump is applied. *)
Definition self_threshold_branch (self : System) (min_dt : R) : System :=
  let dt := Rmax min_dt 0 in
  let self := fire self dt in
  set_t self (t self + dt).

(** The second branch (lines 136-216): a delivery arrives at the very time
    a phase reaches the threshold. *)
Definition tie_branch (self : System) (location : nat) (mx min_dt : R)
  : result System :=
  let neuron_id := np.where_ (fun p => np.Reqb p mx) (phases self) in
  let dt := Rmax min_dt 0 in
  let self := fire self dt in
  '(spike_vector, self) <- arrivals None location dt self ;;
  let eps := epsilon self spike_vector in
  let self := set_phases self (h self eps) in
  ph <- neglect neuron_id (phases self) ;;
  let self := set_phases self ph in
  Ok (set_t self (t self + dt)).

(** The last branch (lines 219-272): a delivery arrives before any phase
    reaches the threshold. *)
Definition delivery_branch (self : System) (location : nat) (dt : R)
  : result System :=
  let self := set_phases self (map (fun p => p + dt) (phases self)) in
  '(spike_vector, self) <- arrivals (Some 0%nat) location dt self ;;
  let eps := epsilon self spike_vector in
  let self := set_phases self (h self eps) in
  Ok (set_t self (t self + dt)).

(** [System.jump_to_next_event]. *)
Definition jump_to_next_event (self : System) : result System :=
  '(dt, location) <- next_delivery self ;;
  mx <- np.max (phases self) ;;
  let min_dt := 1 - mx in
  if np.Rltb min_dt dt then Ok (self_threshold_branch self min_dt)
  else if np.Reqb min_dt dt then tie_branch self location mx min_dt
  else delivery_branch self location dt.

(** Which of the three branches the tests of [jump_to_next_event] select. *)
Definition branch_taken (self : System) : result branch :=
  '(dt, location) <- next_delivery self ;;
  mx <- np.max (phases self) ;;
  let min_dt := 1 - mx in
  if np.Rltb min_dt dt then Ok SelfThreshold
  else if np.Reqb min_dt dt then Ok Tie
  else Ok Delivery.

(** [System.run]: [while self.t<t_end: self.jump_to_next_event()].  The loop
    is unrolled [fuel] times. *)
Fixpoint run (fuel : nat) (self : System) (t_end : R) : outcome System :=
  if np.Rltb (t self) t_end then
    match fuel with
    | O => Unfinished
    | S fuel' =>
        match jump_to_next_event self with
        | Ok self' => run fuel' self' t_end
        | Raise e => Raises e
        end
    end
  else Returns self.

(** The state after [k] calls of [jump_to_next_event]. *)
Fixpoint steps (k : nat) (self : System) : result System :=
  match k with
  | O => Ok self
  | S k' => self' <- jump_to_next_event self ;; steps k' self'
  end.

(** ** Construction *)

(** [index_i]: the first neuron of population [i]. *)
Definition first_index (sizes : list nat) (i : nat) : nat :=
  match i with
  | O => 0%nat
  | _ => np.sum (firstn i sizes)
  end.

(** The loop of [__init__] that fills [I_gamma], population by population. *)
Definition fill_I_gamma (N : list nat) (I gamma : list R)
  : result (list R * list R) :=
  for_each (seq 0 (length N))
    (fun i '(row0, row1) =>
       let index_i := first_index N i in
       n_i <- get_item N i ;;
       I_i <- get_item I i ;;
       let row0 := np.map_slice index_i n_i (fun x => x * I_i) row0 in
       gamma_i <- get_item gamma i ;;
       let row1 := np.map_slice index_i n_i (fun x => x * gamma_i) row1 in
       Ok (row0, row1))
    (np.ones (np.sum N), np.ones (np.sum N)).

(** [System.get_initial_ISI]. *)
Definition get_initial_ISI (self : System) : result System :=
  for_each (seq 0 (length (N_ext self)))
    (fun n self =>
       let index_i := first_index (N_ext self) n in
       size_n <- get_item (N_ext self) n ;;
       for_each (seq 0 size_n)
         (fun i self =>
            rate <- get_item (rates self) n ;;
            '(isi, self) <- get_InterSpikeInterval self rate ;;
            Ok (set_external_events self
                  (np.set_at (index_i + i) isi (external_events self))))
         self)
    self.

(** [np.random.rand(n)] and [np.random.rand(rows, cols)] from draw [k] on. *)
Definition rand (k n : nat) : list R := map U (seq k n).
Definition rand2 (k rows cols : nat) : list (list R) :=
  map (fun a => rand (k + a * cols) cols) (seq 0 rows).

(** [System.create_phases]. *)
Definition create_phases (self : System) : System :=
  let n := np.sum (N self) in
  set_rng (set_phases self (rand (rng self) n)) (rng self + n).

(** The value a draw [x] is turned into for connection probability [p_i]:
    [1 - (x + (1 - p_i)).astype(int)]. *)
Definition connect (p_i x : R) : R := 1 - IZR (np.astype_int (x + (1 - p_i))).

(** [float(K)/self.N[i]]: the division of a float by an integer of the size
    array raises on a population of size 0. *)
Definition float_div (x : R) (n : nat) : result R :=
  if (n =? 0)%nat then Raise ZeroDivisionError else Ok (x / INR n).

(** The body shared by [create_weight_matrix] and [create_ext_weight_matrix]:
    the sources are the populations of sizes [src]. *)
Definition create_matrix (src : list nat) (J : list (list R)) (K : R)
           (self : System) : result (list (list R) * System) :=
  let r := rand2 (rng self) (np.sum (N self)) (np.sum src) in
  let self := set_rng self (rng self + np.sum (N self) * np.sum src) in
  r <- for_each (seq 0 (length (N self)))
         (fun i r =>
            let index_i := first_index (N self) i in
            n_i <- get_item (N self) i ;;
            p_i <- float_div K n_i ;;
            let r := np.map_slice index_i n_i (map (connect p_i)) r in
            for_each (seq 0 (length src))
              (fun j r =>
                 let index_j := first_index src j in
                 n_j <- get_item src j ;;
                 J_i <- get_item J i ;;
                 J_ij <- get_item J_i j ;;
                 Ok (np.map_slice index_i n_i
                       (np.map_slice index_j n_j (fun x => x * J_ij)) r))
              r)
         r ;;
  Ok (r, self).

(** [System.create_weight_matrix]. *)
Definition create_weight_matrix (self : System) (J_int : list (list R)) (K : R)
  : result (list (list R) * System) :=
  create_matrix (N self) J_int K self.

(** [System.create_ext_weight_matrix]. *)
Definition create_ext_weight_matrix (self : System) (J_ext : list (list R)) (K : R)
  : result (list (list R) * System) :=
  create_matrix (N_ext self) J_ext K self.

(** [System.__init__]. *)
Definition System_init (N : list nat) (J_int : list (list R)) (I gamma : list R)
           (K : R) (tau : R) (N_ext : list nat) (J_ext : list (list R))
           (rates : list R) : result System :=
  I_gamma <- fill_I_gamma N I gamma ;;
  let self :=
    mkSystem N N_ext tau I_gamma 0 [] rates (np.ones (np.sum N_ext)) [] [] 0 in
  self <- get_initial_ISI self ;;
  let self := create_phases self in
  '(W_int, self) <- create_weight_matrix self J_int K ;;
  '(W_ext, self) <- create_ext_weight_matrix self J_ext K ;;
  Ok (set_weight_matrix self (np.concatenate1 W_int W_ext)).

End Simulation.

(** ** The class [WithOutput] *)

(** The files [np.save] writes in the output folder: [phases<n>.npy] and
    [spikes<n>.npy]; a folder maps a file to the array saved in it. *)
Inductive file : Set :=
| phases_npy (n : nat)
| spikes_npy (n : nat).

Definition file_eqb (f g : file) : bool :=
  match f, g with
  | phases_npy n, phases_npy m => (n =? m)%nat
  | spikes_npy n, spikes_npy m => (n =? m)%nat
  | _, _ => false
  end.

Definition folder : Type := file -> option (list (list R)).

Definition empty_folder : folder := fun _ => None.

Definition np_save (f : file) (a : list (list R)) (d : folder) : folder :=
  fun g => if file_eqb g f then Some a else d g.

(** A [WithOutput] object: the inherited [System] and the counter of files. *)
Record WithOutput : Type := mkWithOutput {
  system : System;
  n_files : nat
}.

(** The local variables of [WithOutput.run]: the two tables of
    [output_size] rows, their fill indices and the last recorded time. *)
Record buffers : Type := mkBuffers {
  outputs : list (list R);
  spikes : list (list R);
  i : nat;
  i_spike : nat;
  last_t : R
}.

(** [M[k,:] = row]; the row index must exist. *)
Definition set_row (k : nat) (row : list R) (M : list (list R))
  : result (list (list R)) :=
  if (k <? length M)%nat then Ok (np.set_at k row M) else Raise IndexError.

(** [np.zeros((rows, cols))]. *)
Definition zeros2 (rows cols : nat) : list (list R) := repeat (np.zeros cols) rows.

(** [self.events[-1]] when [len(self.events)] is not zero. *)
Definition last_event (ev : list (R * list R)) : option (R * list R) :=
  match ev with
  | [] => None
  | e :: ev' => Some (last ev' e)
  end.

Section Output.

(** The stream of uniform draws, and the module constant [OUTPUT_MEMORY]
    (the module sets it to 1.5*10**9). *)
Variable U : nat -> R.
Variable OUTPUT_MEMORY : R.

(** [int(OUTPUT_MEMORY/(self.N.sum()+1)/8)]. *)
Definition output_size_of (self : System) : Z :=
  np.astype_int (OUTPUT_MEMORY / INR (np.sum (N self) + 1) / 8).

(** The part of the loop body after [self.jump_to_next_event()]
    (lines 482-506): record the newest pending delivery if it is later than
    the last recorded one, record the phases, and save both tables when the
    phase table is full. *)
Definition record (output_size : nat) (w : WithOutput) (b : buffers) (d : folder)
  : result (WithOutput * buffers * folder) :=
  let self := system w in
  b <- (match last_event (events self) with
        | None => Ok b
        | Some ev =>
            if np.Rltb (last_t b) (fst ev) then
              sp <- set_row (i_spike b) ((fst ev - tau self) :: snd ev) (spikes b) ;;
              Ok (mkBuffers (outputs b) sp (i b) (S (i_spike b)) (fst ev))
            else Ok b
        end) ;;
  out <- set_row (i b) (t self :: phases self) (outputs b) ;;
  let b := mkBuffers out (spikes b) (S (i b)) (i_spike b) (last_t b) in
  if (i b =? output_size)%nat then
    let d := np_save (phases_npy (n_files w)) (outputs b) d in
    let out_spikes := firstn (i_spike b) (spikes b) in
    let d := np_save (spikes_npy (n_files w)) out_spikes d in
    let cols := (np.sum (N self) + 1)%nat in
    Ok (mkWithOutput self (S (n_files w)),
        mkBuffers (zeros2 output_size cols) (zeros2 output_size cols) 0 0 (last_t b),
        d)
  else Ok (w, b, d).

(** The [while self.t<t_end] loop of [WithOutput.run], unrolled [fuel]
    times. *)
Fixpoint output_loop (fuel : nat) (output_size : nat) (t_end : R)
         (w : WithOutput) (b : buffers) (d : folder)
  : outcome (WithOutput * buffers * folder) :=
  if np.Rltb (t (system w)) t_end then
    match fuel with
    | O => Unfinished
    | S fuel' =>
        match (self' <- jump_to_next_event U (system w) ;;
               record output_size (mkWithOutput self' (n_files w)) b d) with
        | Ok (w', b', d') => output_loop fuel' output_size t_end w' b' d'
        | Raise e => Raises e
        end
    end
  else Returns (w, b, d).

(** [WithOutput.run(t_end, output_dir)]; [d] is the content of
    [output_dir] before the call. *)
Definition WithOutput_run (fuel : nat) (w : WithOutput) (t_end : R) (d : folder)
  : outcome (WithOutput * folder) :=
  let cols := (np.sum (N (system w)) + 1)%nat in
  if (output_size_of (system w) <? 0)%Z then Raises ValueError
  else
    let output_size := Z.to_nat (output_size_of (system w)) in
    let b := mkBuffers (zeros2 output_size cols) (zeros2 output_size cols) 0 0 0 in
    match output_loop fuel output_size t_end w b d with
    | Returns (w, b, d) =>
        let d := np_save (phases_npy (n_files w)) (firstn (i b) (outputs b)) d in
        let d := np_save (spikes_npy (n_files w))
                         (firstn (i_spike b) (spikes b)) d in
        Returns (mkWithOutput (system w) (S (n_files w)), d)
    | Raises e => Raises e
    | Unfinished => Unfinished
    end.

(** [WithOutput.__init__]. *)
Definition WithOutput_init (N : list nat) (J_int : list (list R)) (I gamma : list R)
           (K : R) (tau : R) (N_ext : list nat) (J_ext : list (list R))
           (rates : list R) : result WithOutput :=
  self <- System_init U N J_int I gamma K tau N_ext J_ext rates ;;
  Ok (mkWithOutput self 0).

End Output.

(** The artifacts of one kind read back in numeric filename order:
    files [first], [first+1], ... ([count] of them), concatenated. *)
Definition read_back (kind : nat -> file) (first count : nat) (d : folder)
  : list (list R) :=
  flat_map (fun n => match d (kind n) with Some a => a | None => [] end)
           (seq first count).

(** ** Shapes of the construction parameters *)

(** [v] has an entry for each of the [n] populations. *)
Definition covers (v : list R) (n : nat) : Prop := (n <= length v)%nat.

(** [J] has an entry [J[i,j]] for every [i < rows] and [j < cols]. *)
Definition covers2 (J : list (list R)) (rows cols : nat) : Prop :=
  forall i j, (i < rows)%nat -> (j < cols)%nat ->
    exists row x, nth_error J i = Some row /\ nth_error row j = Some x.

(** Every non-empty external population has a rate, and it is not zero. *)
Definition rates_cover (rates : list R) (N_ext : list nat) : Prop :=
  forall n size, nth_error N_ext n = Some size -> (0 < size)%nat ->
    exists r, nth_error rates n = Some r /\ r <> 0.

(** ** The event classes in the words of the specification *)

(** Time to the head of the queue of pending deliveries, and the value 500
    the code compares with when the queue is empty. *)
Definition horizon (self : System) : R :=
  match events self with
  | [] => 500
  | ev :: _ => fst ev - t self
  end.

(** "[dt_self = max(0, 1 - max(all phases))] is the strict unique minimum
    among [dt_self], the time to the pending-delivery queue head, and the
    time to the nearest external arrival"; a class with no candidate is at
    infinite distance. *)
Definition dt_self_strict_minimum (self : System) : Prop :=
  exists mx,
    np.max (phases self) = Ok mx /\
    (forall ev, hd_error (events self) = Some ev ->
                Rmax 0 (1 - mx) < fst ev - t self) /\
    (forall m, np.min (external_events self) = Ok m ->
               Rmax 0 (1 - mx) < m - t self).

(** The time to the next delivery the code compares [1 - max(phases)] with:
    the time to the queue head (500 when the queue is empty), or the time to
    the nearest external arrival when that is smaller and some external
    arrival time is not zero. *)
Definition next_dt (self : System) : R :=
  if np.any (external_events self) then
    match np.min (external_events self) with
    | Ok m => Rmin (m - t self) (horizon self)
    | Raise _ => horizon self
    end
  else horizon self.

(** The state the self-threshold branch leaves when it advances by [dt]:
    every phase moves by [dt], those at or above 1 are reset to 0, one
    delivery is appended with arrival time [tau + t + dt], the clock moves by
    [dt]; nothing else changes. *)
Definition after_self_threshold (self : System) (dt : R) : System :=
  mkSystem (N self) (N_ext self) (tau self) (I_gamma self) (t self + dt)
    (events self ++
       [(tau self + t self + dt,
         map (fun p => if np.Rleb 1 (p + dt) then 1 else 0) (phases self))])
    (rates self) (external_events self)
    (map (fun p => if np.Rleb 1 (p + dt) then 0 else p + dt) (phases self))
    (weight_matrix self) (rng self).

(** ** Invariants of a network without external input *)

(** Every per-neuron array has [n] entries. *)
Definition shaped (n : nat) (s : System) : Prop :=
  length (phases s) = n /\
  length (fst (I_gamma s)) = n /\
  length (snd (I_gamma s)) = n /\
  length (weight_matrix s) = n.

(** There is no external neuron. *)
Definition isolated (s : System) : Prop := external_events s = [].

(** The delay is not negative, every pending delivery arrives between the
    clock and the clock plus the delay, and the queue is in order of arrival. *)
Definition queue_ok (s : System) : Prop :=
  0 <= tau s /\
  Forall (fun ev => t s <= fst ev <= t s + tau s) (events s) /\
  StronglySorted Rle (map fst (events s)).

(** What the loop that neglects immediate spikes may do to a phase: keep it
    or reset it to 0. *)
Definition kept_or_reset (x y : R) : Prop := y = x \/ y = 0.

(** The attributes a step of a network without external input leaves
    unchanged. *)
Definition same_network (s s' : System) : Prop :=
  N s' = N s /\ N_ext s' = N_ext s /\ tau s' = tau s /\
  I_gamma s' = I_gamma s /\ rates s' = rates s /\
  weight_matrix s' = weight_matrix s /\
  external_events s' = external_events s /\ rng s' = rng s.

(** The potential jump the head [ev] of the queue causes. *)
Definition jump_of (s : System) (ev : R * list R) : list R :=
  epsilon s (snd ev ++ np.zeros (np.sum (N_ext s))).

(** The three kinds of step of a network without external input, from state
    [s] with largest phase [mx] to state [s']. *)
Inductive isolated_step (s s' : System) (mx : R) : Prop :=
| step_self :
    1 - mx < horizon s ->
    s' = after_self_threshold s (Rmax (1 - mx) 0) ->
    isolated_step s s' mx
| step_delivery (ev : R * list R) (rest : list (R * list R)) :
    events s = ev :: rest ->
    fst ev - t s < 1 - mx ->
    t s' = t s + (fst ev - t s) ->
    events s' = rest ->
    phases s' =
      h (set_phases s (map (fun p => p + (fst ev - t s)) (phases s)))
        (jump_of s ev) ->
    isolated_step s s' mx
| step_tie (ev : R * list R) (rest : list (R * list R)) :
    events s = ev :: rest ->
    1 - mx = fst ev - t s ->
    t s' = t s + Rmax (1 - mx) 0 ->
    events s' =
      rest ++ [(tau s + t s + Rmax (1 - mx) 0,
                map (fun p => if np.Rleb 1 (p + Rmax (1 - mx) 0) then 1 else 0)
                    (phases s))] ->
    Forall2 kept_or_reset
      (h (set_phases s
            (map (fun p => if np.Rleb 1 (p + Rmax (1 - mx) 0) then 0
                           else p + Rmax (1 - mx) 0) (phases s)))
         (jump_of s ev))
      (phases s') ->
    isolated_step s s' mx.

(** ** Example networks *)

(** One neuron driven by one external neuron of rate 1 through a weight 2;
    [u4] is the draw used when the external neuron is redrawn for the first
    time.  Draw 0 sets the first external arrival to 1/2, draw 1 the initial
    phase to 1/5. *)
Definition draws_ext (u4 : R) (k : nat) : R :=
  match k with
  | 0%nat => exp (- (1 / 2))
  | 1%nat => 1 / 5
  | 4%nat => u4
  | _ => 1 / 2
  end.

Definition build_ext (u4 : R) : result System :=
  System_init (draws_ext u4) [1%nat] [[0]] [1] [1] 1 (1 / 20) [1%nat] [[2]] [1].

Definition ext0 : System :=
  mkSystem [1%nat] [1%nat] (1 / 20) ([1], [1]) 0 [] [1] [1 / 2] [1 / 5]
           [[0; 2]] 4.

Definition ext1 (u4 : R) : System :=
  mkSystem [1%nat] [1%nat] (1 / 20) ([1], [1]) (1 / 2) [] [1]
           [0 - 1 / 1 * ln u4] [11 / 10] [[0; 2]] 5.

(** Excitatory network: no weight is negative, and I and gamma are
    positive for every neuron. *)
Definition excitatory (s : System) : Prop :=
  Forall (Forall (fun w => 0 <= w)) (weight_matrix s) /\
  Forall (fun I_k => 0 < I_k) (fst (I_gamma s)) /\
  Forall (fun gamma_k => 0 < gamma_k) (snd (I_gamma s)).

(** No phase and no entry of a pending spike vector is negative. *)
Definition nonneg (s : System) : Prop :=
  Forall (fun p => 0 <= p) (phases s) /\
  Forall (fun ev => Forall (fun x => 0 <= x) (snd ev)) (events s).

(** ** Termination of the run loop *)

(** The call [run(t_end)] returns, with the clock at or past [t_end], or
    raises. *)
Definition finishes (U : nat -> R) (s : System) (t_end : R) : Prop :=
  exists fuel,
    (exists s', run U fuel s t_end = Returns s' /\ t_end <= t s') \/
    (exists e, run U fuel s t_end = Raises e).

(** The pending deliveries that arrive before [bound]. *)
Definition early (bound : R) (s : System) : nat :=
  length (filter (fun ev => np.Rltb (fst ev) bound) (events s)).

(** The neurons that have not been reset since the clock was at [t0]: their
    phase is above the time elapsed since. *)
Definition stale (t0 : R) (s : System) : nat :=
  length (filter (fun p => np.Rltb (t s - t0) p) (phases s)).

(** The number of steps left, at most, before the clock reaches [bound],
    for a network of [n] neurons observed from time [t0] on. *)
Definition steps_left (n : nat) (t0 bound : R) (s : System) : nat :=
  (early bound s * S n + stale t0 s)%nat.

(** Well-formed excitatory network without external input. *)
Definition calm (n : nat) (s : System) : Prop :=
  shaped n s /\ isolated s /\ queue_ok s /\ excitatory s /\ nonneg s.

(** One neuron connected to itself with strength [J], delay [tau0], I = 1
    and gamma = 1; every draw is 1/2, so the initial phase is 1/2. *)
Definition draws_half (k : nat) : R := 1 / 2.

Definition build_one (J tau0 : R) : result System :=
  System_init draws_half [1%nat] [[J]] [1] [1] 1 tau0 [] [] [].

(** The states of that network: clock [t0], queue [ev], phase [phase]. *)
Definition one (J tau0 t0 : R) (ev : list (R * list R)) (phase : R) : System :=
  mkSystem [1%nat] [] tau0 ([1], [1]) t0 ev [] [] [phase] [[J]] 2.

(** What h makes of the phase of that neuron when its own spike arrives. *)
Definition h_one (J phase : R) : R :=
  if np.Rleb (exp (- phase) - J) 0 then 11 / 10 else - ln (exp (- phase) - J).

(** ** What a run with output records *)

(** The loop [while self.t<t_end] started in [s] takes exactly the steps
    that lead through the states [tr], in this order, and then exits. *)
Fixpoint loop_trace (U : nat -> R) (t_end : R) (s : System) (tr : list System)
  : Prop :=
  match tr with
  | [] => t_end <= t s
  | s' :: tr' =>
      t s < t_end /\ jump_to_next_event U s = Ok s' /\ loop_trace U t_end s' tr'
  end.

(** The row of the phase table for the state after a step. *)
Definition phase_row (s : System) : list R := t s :: phases s.

(** The row of the spike table for the state [s] after a step, if any, and
    the last recorded time afterwards: the newest pending delivery is
    recorded, with its arrival time less the delay, when it arrives later
    than [last_t]. *)
Definition spike_step (last_t : R) (s : System) : list (list R) * R :=
  match last_event (events s) with
  | None => ([], last_t)
  | Some ev =>
      if np.Rltb last_t (fst ev) then ([(fst ev - tau s) :: snd ev], fst ev)
      else ([], last_t)
  end.

(** The rows of the spike table for the states after each step. *)
Fixpoint spike_rows (last_t : R) (tr : list System) : list (list R) :=
  match tr with
  | [] => []
  | s :: tr' => fst (spike_step last_t s) ++ spike_rows (snd (spike_step last_t s)) tr'
  end.

(** The last recorded time once the rows for the states [tr] have been
    recorded, one state after the other. *)
Fixpoint last_recorded (last_t : R) (tr : list System) : R :=
  match tr with
  | [] => last_t
  | s :: tr' => last_recorded (snd (spike_step last_t s)) tr'
  end.

(** The step from [s] to [s'] has put the delivery [ev] in the queue: the
    step has advanced the clock by some [dt], [ev] arrives at
    [tau + t + dt] and marks the neurons at or above 1 once the phases of
    [s] have advanced by [dt], and it is the newest entry of the queue,
    behind the entries of [s] (less the head, when the step has also taken a
    delivery from the queue). *)
Definition enqueued (s s' : System) (ev : R * list R) : Prop :=
  exists dt,
    t s' = t s + dt /\ tau s' = tau s /\
    fst ev = tau s + t s + dt /\
    snd ev = map (fun p => if np.Rleb 1 (p + dt) then 1 else 0) (phases s) /\
    (events s' = events s ++ [ev] \/
     exists hd rest, events s = hd :: rest /\ events s' = rest ++ [ev]).

(** The buffers, the file counter [nf] and the folder hold the rows [accP]
    and [accS] recorded since the run started with file counter [n0]: the
    saved files followed by the filled part of the tables. *)
Definition buffered (cap n0 : nat) (accP accS : list (list R)) (lt : R)
           (nf : nat) (b : buffers) (d : folder) : Prop :=
  (i b < cap)%nat /\ length (outputs b) = cap /\ length (spikes b) = cap /\
  (i_spike b <= i b)%nat /\ (n0 <= nf)%nat /\ last_t b = lt /\
  read_back phases_npy n0 (nf - n0) d ++ firstn (i b) (outputs b) = accP /\
  read_back spikes_npy n0 (nf - n0) d ++ firstn (i_spike b) (spikes b) = accS.

(** A spike vector of indicators: every entry is 0 or 1. *)
Definition binary (v : list R) : Prop := Forall (fun x => x = 0 \/ x = 1) v.

(** The run of the one-neuron network with strength 2 and delay 1/20 up to
    [t_end = 3/5]: the neuron fires at 1/2, receives its spike at 11/20 and
    is set to 1.1, fires at once, and receives that spike at 3/5. *)
Definition recorded_run : list System :=
  [one 2 (1 / 20) (1 / 2) [(11 / 20, [1])] 0;
   one 2 (1 / 20) (11 / 20) [] (11 / 10);
   one 2 (1 / 20) (11 / 20) [(3 / 5, [1])] 0;
   one 2 (1 / 20) (3 / 5) [] (11 / 10)].

(** Two runs of the one-neuron network with strength 0 and delay 3/2: the
    first one, up to [t_end = 3/2], lets the neuron fire at 1/2 and at 3/2;
    the second one, up to [t_end = 2], only takes the delivery that arrives
    at 2 from the queue. *)
Definition first_run : list System :=
  [one 0 (3 / 2) (1 / 2) [(2, [1])] 0;
   one 0 (3 / 2) (3 / 2) [(2, [1]); (3, [1])] 0].

Definition resumed_run : list System :=
  [one 0 (3 / 2) 2 [(3, [1])] (h_one 0 (2 - 3 / 2))].

(** ** What a step never changes *)

(** The network itself: the population sizes, the delay, the neuron
    parameters, the rates and the weight matrix are those of [s]; the number
    of external neurons is the same, and no draw is given back. *)
Definition same_parameters (s s' : System) : Prop :=
  N s' = N s /\ N_ext s' = N_ext s /\ tau s' = tau s /\
  I_gamma s' = I_gamma s /\ rates s' = rates s /\
  weight_matrix s' = weight_matrix s /\
  length (external_events s') = length (external_events s) /\
  (rng s <= rng s')%nat.

(** ** Population-wise updates of an array *)

(** [a'] is [a] after the slices of the first [j] populations of sizes
    [sizes] have been updated, the slice of population [j'] with [f j']:
    the entries of those populations are updated once, the other entries
    are those of [a]. *)
Definition sliced {A : Type} (sizes : list nat) (f : nat -> A -> A) (j : nat)
           (a a' : list A) : Prop :=
  length a' = length a /\
  (forall j' n' b', (j' < j)%nat -> nth_error sizes j' = Some n' -> (b' < n')%nat ->
     nth_error a' (first_index sizes j' + b') =
     option_map (f j') (nth_error a (first_index sizes j' + b'))) /\
  (forall b, (np.sum (firstn j sizes) <= b)%nat -> nth_error a' b = nth_error a b).

(** ** The parts of a construction *)

(** [s'] differs from [s] at most in the arrival times of the external
    neurons and in the count of draws taken. *)
Definition redrawn (s s' : System) : Prop :=
  N s' = N s /\ N_ext s' = N_ext s /\ tau s' = tau s /\ I_gamma s' = I_gamma s /\
  t s' = t s /\ events s' = events s /\ rates s' = rates s /\
  phases s' = phases s /\ weight_matrix s' = weight_matrix s.

(** The first arrival time drawn for external neuron [i] of population [m]:
    the draws are taken neuron by neuron, in the order of the array. *)
Definition first_arrival (U : nat -> R) (s : System) (m i : nat) (r : R) : R :=
  t s - 1 / r * ln (U (rng s + first_index (N_ext s) m + i)%nat).

(** Row [a] of the matrix of draws [np.random.rand(rows, cols)] taken from
    draw [k] on. *)
Definition raw_row (U : nat -> R) (k cols a : nat) : list R :=
  rand U (k + a * cols) cols.

(** The factor applied to the columns of source population [j] in the rows
    of target population [i]. *)
Definition strength (J : list (list R)) (i j : nat) : R := nth j (nth i J []) 0.

(** The object [System.__init__] has built when it calls
    [get_initial_ISI]. *)
Definition blank (N0 N_ext0 : list nat) (tau0 : R) (Ig : list R * list R)
           (rates0 : list R) : System :=
  mkSystem N0 N_ext0 tau0 Ig 0 [] rates0 (np.ones (np.sum N_ext0)) [] [] 0.

(** The draw behind the connection from internal neuron [b] to internal
    neuron [a], and from external neuron [b] to internal neuron [a]: the
    constructor draws the external arrival times first, then the phases,
    then the internal block row by row, then the external block. *)
Definition internal_draw (N0 N_ext0 : list nat) (a b : nat) : nat :=
  (np.sum N_ext0 + np.sum N0 + a * np.sum N0 + b)%nat.

Definition external_draw (N0 N_ext0 : list nat) (a b : nat) : nat :=
  (np.sum N_ext0 + np.sum N0 + np.sum N0 * np.sum N0 + a * np.sum N_ext0 + b)%nat.

(** ** Pending deliveries and output files *)

(** A well-formed pending delivery of a network of [n] neurons: one
    indicator per neuron, at least one of them set. *)
Definition spiking (n : nat) (ev : R * list R) : Prop :=
  binary (snd ev) /\ length (snd ev) = n /\ In 1 (snd ev).

(** The number of rows of the two output tables. *)
Definition capacity (memory : R) (s : System) : nat :=
  Z.to_nat (output_size_of memory s).

(** After [steps] steps of a run that started with file counter [n0] in the
    folder [d0]: the files [n0], ..., [nf - 1] are written and hold [cap]
    phase rows each, the phase table holds the [i b] rows recorded since,
    and no other file has been touched. *)
Definition layout (cap n0 steps nf : nat) (b : buffers) (d0 d : folder) : Prop :=
  ((nf - n0) * cap + i b = steps)%nat /\ (n0 <= nf)%nat /\
  (forall k, (n0 <= k < nf)%nat ->
             exists a, d (phases_npy k) = Some a /\ length a = cap) /\
  (forall k, (k < n0 \/ nf <= k)%nat ->
             d (phases_npy k) = d0 (phases_npy k) /\
             d (spikes_npy k) = d0 (spikes_npy k)).

(** ** Failures of the construction *)

(** Population [m] is the first one that is not empty. *)
Definition first_nonempty (sizes : list nat) (m : nat) : Prop :=
  (forall m', (m' < m)%nat -> nth_error sizes m' = Some 0%nat) /\
  exists size, nth_error sizes m = Some size /\ (0 < size)%nat.

(** ** Neurons that receive nothing *)

(** Every weight is zero. *)
Definition uncoupled (s : System) : Prop :=
  Forall (Forall (fun w => w = 0)) (weight_matrix s).

(** The neurons of an uncoupled network between two resets: well-formed
    network without external input, positive gamma, phases in [0,1). *)
Definition free (n : nat) (s : System) : Prop :=
  shaped n s /\ isolated s /\ queue_ok s /\ uncoupled s /\
  Forall (fun gamma_k => 0 < gamma_k) (snd (I_gamma s)) /\
  Forall (fun p => 0 <= p < 1) (phases s).

(** Phase [p'] is phase [p] after the time [d] with one reset at most. *)
Definition drifted (d : R) (p p' : R) : Prop := p' = p + d \/ p' = p + d - 1.

(** ** The potential behind the phase *)

(** The membrane potential [U(phi)] of a neuron with parameters I and gamma
    at phase [phi]; it stays below [I/gamma]. *)
Definition potential (I_k gamma_k phase : R) : R :=
  I_k / gamma_k * (1 - exp (- gamma_k * phase)).

(** * Properties *)

(** ** Arrays *)

Lemma Rltb_true (x y : R) : x < y -> np.Rltb x y = true.
Proof. intros H. unfold np.Rltb. destruct (Rlt_dec x y); [reflexivity | contradiction]. Qed.

Lemma Rltb_false (x y : R) : y <= x -> np.Rltb x y = false.
Proof. intros H. unfold np.Rltb. destruct (Rlt_dec x y); [lra | reflexivity]. Qed.

Lemma Rleb_true (x y : R) : x <= y -> np.Rleb x y = true.
Proof. intros H. unfold np.Rleb. destruct (Rle_dec x y); [reflexivity | contradiction]. Qed.

Lemma Rleb_false (x y : R) : y < x -> np.Rleb x y = false.
Proof. intros H. unfold np.Rleb. destruct (Rle_dec x y); [lra | reflexivity]. Qed.

Lemma Reqb_true (x y : R) : x = y -> np.Reqb x y = true.
Proof. intros H. unfold np.Reqb. destruct (Req_dec_T x y); [reflexivity | contradiction]. Qed.

Lemma Reqb_false (x y : R) : x <> y -> np.Reqb x y = false.
Proof. intros H. unfold np.Reqb. destruct (Req_dec_T x y); [contradiction | reflexivity]. Qed.

Lemma Rltb_spec (x y : R) : np.Rltb x y = true <-> x < y.
Proof. unfold np.Rltb. destruct (Rlt_dec x y); split; intros; auto; discriminate. Qed.

Lemma Rleb_spec (x y : R) : np.Rleb x y = true <-> x <= y.
Proof. unfold np.Rleb. destruct (Rle_dec x y); split; intros; auto; discriminate. Qed.

Lemma Reqb_spec (x y : R) : np.Reqb x y = true <-> x = y.
Proof. unfold np.Reqb. destruct (Req_dec_T x y); split; intros; auto; discriminate. Qed.

Lemma nth_error_lt {A : Type} (l : list A) (k : nat) (x : A) :
  nth_error l k = Some x -> (k < length l)%nat.
Proof. intros H. apply nth_error_Some. rewrite H. discriminate. Qed.

Lemma set_at_length {A : Type} (k : nat) (x : A) (a : list A) :
  length (np.set_at k x a) = length a.
Proof.
  revert k. induction a as [|y a IH]; intros [|k]; simpl; auto.
Qed.

Lemma nth_error_set_at_eq {A : Type} (k : nat) (x : A) (a : list A) :
  (k < length a)%nat -> nth_error (np.set_at k x a) k = Some x.
Proof.
  revert k. induction a as [|y a IH]; intros [|k] Hk; simpl in *; try lia; auto.
  apply IH. lia.
Qed.

Lemma nth_error_set_at_neq {A : Type} (k j : nat) (x : A) (a : list A) :
  k <> j -> nth_error (np.set_at k x a) j = nth_error a j.
Proof.
  revert k j. induction a as [|y a IH]; intros [|k] [|j] Hkj; simpl; auto.
  contradiction.
Qed.

Lemma put_length (idx : list nat) (x : R) (a : list R) :
  length (np.put idx x a) = length a.
Proof.
  unfold np.put. revert a. induction idx as [|k idx IH]; intros a; simpl; auto.
  rewrite IH. apply set_at_length.
Qed.

Lemma nth_error_put_notin (idx : list nat) (x : R) (a : list R) (k : nat) :
  ~ In k idx -> nth_error (np.put idx x a) k = nth_error a k.
Proof.
  unfold np.put. revert a. induction idx as [|j idx IH]; intros a Hn; simpl; auto.
  rewrite IH by (intros H; apply Hn; right; exact H).
  apply nth_error_set_at_neq. intros ->. apply Hn. left. reflexivity.
Qed.

Lemma nth_error_put_in (idx : list nat) (x : R) (a : list R) (k : nat) :
  In k idx -> (k < length a)%nat -> nth_error (np.put idx x a) k = Some x.
Proof.
  unfold np.put. revert a. induction idx as [|j idx IH]; intros a Hin Hk; simpl.
  - destruct Hin.
  - destruct (in_dec Nat.eq_dec k idx) as [Hi | Hni].
    + apply IH; [exact Hi | rewrite set_at_length; exact Hk].
    + destruct Hin as [-> | Hi]; [| contradiction].
      change (nth_error (np.put idx x (np.set_at k x a)) k = Some x).
      rewrite nth_error_put_notin by exact Hni.
      apply nth_error_set_at_eq. exact Hk.
Qed.

Lemma In_where_from (p : R -> bool) (a : list R) (i k : nat) :
  In k (np.where_from p a i) <->
  exists j y, k = (i + j)%nat /\ nth_error a j = Some y /\ p y = true.
Proof.
  revert i. induction a as [|x a IH]; intros i; simpl.
  - split; [intros [] | intros (j & y & _ & H & _); destruct j; discriminate].
  - split.
    + intros H. destruct (p x) eqn:Hp.
      * destruct H as [<- | H].
        -- exists 0%nat, x. split; [lia | split; [reflexivity | exact Hp]].
        -- apply IH in H. destruct H as (j & y & -> & Hj & Hy).
           exists (S j), y. split; [lia | split; [exact Hj | exact Hy]].
      * apply IH in H. destruct H as (j & y & -> & Hj & Hy).
        exists (S j), y. split; [lia | split; [exact Hj | exact Hy]].
    + intros (j & y & -> & Hj & Hy). destruct j as [|j]; simpl in Hj.
      * injection Hj as ->. rewrite Hy. left. lia.
      * assert (In (i + S j)%nat (np.where_from p a (S i))) as H.
        { apply IH. exists j, y. split; [lia | split; [exact Hj | exact Hy]]. }
        destruct (p x); [right; exact H | exact H].
Qed.

Lemma In_where (p : R -> bool) (a : list R) (k : nat) :
  In k (np.where_ p a) <-> exists y, nth_error a k = Some y /\ p y = true.
Proof.
  unfold np.where_. rewrite In_where_from. split.
  - intros (j & y & -> & H). exists y. exact H.
  - intros (y & H). exists k, y. split; [reflexivity | exact H].
Qed.

(** Masked assignment [a[np.where(test(b))] = x], entry by entry. *)
Lemma nth_error_put_where (p : R -> bool) (b a : list R) (x : R) (k : nat) (y : R) :
  nth_error b k = Some y -> (k < length a)%nat ->
  nth_error (np.put (np.where_ p b) x a) k =
  if p y then Some x else nth_error a k.
Proof.
  intros Hb Hk. destruct (p y) eqn:Hp.
  - apply nth_error_put_in; [| exact Hk]. apply In_where. exists y. auto.
  - apply nth_error_put_notin. rewrite In_where. intros (y' & Hy' & Hp').
    rewrite Hb in Hy'. injection Hy' as <-. congruence.
Qed.

Lemma zip_with_length (f : R -> R -> R) (a b : list R) :
  length (np.zip_with f a b) = Nat.min (length a) (length b).
Proof.
  revert b. induction a as [|x a IH]; intros [|y b]; simpl; auto.
Qed.

Lemma nth_error_zip_with (f : R -> R -> R) (a b : list R) (k : nat) :
  nth_error (np.zip_with f a b) k =
  match nth_error a k, nth_error b k with
  | Some x, Some y => Some (f x y)
  | _, _ => None
  end.
Proof.
  revert b k. induction a as [|x a IH]; intros [|y b] [|k]; simpl; auto.
  destruct (nth_error a k); reflexivity.
Qed.

(** ** The phase-update law *)

Lemma h_length (self : System) (eps : list R) :
  length (h self eps) =
  Nat.min (length (snd (I_gamma self)))
    (Nat.min (Nat.min (length (snd (I_gamma self))) (length (phases self)))
       (Nat.min (Nat.min (length (snd (I_gamma self))) (length (fst (I_gamma self))))
          (length eps))).
Proof.
  unfold h. rewrite put_length, zip_with_length, !length_map, put_length.
  rewrite !zip_with_length, !length_map, !zip_with_length, length_map.
  reflexivity.
Qed.

Lemma h_pointwise (self : System) (eps : list R) (k : nat)
      (I_k gamma_k phase_k epsilon_k : R) :
  nth_error (fst (I_gamma self)) k = Some I_k ->
  nth_error (snd (I_gamma self)) k = Some gamma_k ->
  nth_error (phases self) k = Some phase_k ->
  nth_error eps k = Some epsilon_k ->
  nth_error (h self eps) k =
  Some (if np.Rleb (log_arg_of I_k gamma_k phase_k epsilon_k) 0 then sentinel
        else -1 / gamma_k * ln (log_arg_of I_k gamma_k phase_k epsilon_k)).
Proof.
  intros HI Hg Hp He.
  assert (Hla : nth_error
            (np.zip_with Rminus
               (map exp (np.zip_with Rmult (map Ropp (snd (I_gamma self))) (phases self)))
               (np.zip_with Rmult
                  (np.zip_with Rdiv (snd (I_gamma self)) (fst (I_gamma self))) eps)) k
          = Some (log_arg_of I_k gamma_k phase_k epsilon_k)).
  { rewrite nth_error_zip_with, nth_error_map, nth_error_zip_with, nth_error_map.
    rewrite Hg, Hp. simpl.
    rewrite !nth_error_zip_with, Hg, HI, He. reflexivity. }
  assert (Hk : (k < length (h self eps))%nat).
  { rewrite h_length.
    apply nth_error_lt in HI, Hg, Hp, He. lia. }
  unfold h in *. rewrite put_length in Hk.
  rewrite (nth_error_put_where _ _ _ _ _ _ Hla Hk).
  destruct (np.Rleb (log_arg_of I_k gamma_k phase_k epsilon_k) 0) eqn:Hle.
  - reflexivity.
  - rewrite nth_error_zip_with, !nth_error_map, Hg. simpl.
    rewrite (nth_error_put_where _ _ _ _ _ _ Hla).
    + rewrite Hle, Hla. reflexivity.
    + apply nth_error_lt in Hla. exact Hla.
Qed.

(** C3. For every neuron, [h] returns [-(1/gamma) * ln(log_arg)] with
    [log_arg = exp(-gamma * phase) - (gamma / I) * epsilon] when [log_arg] is
    strictly positive, and exactly the sentinel 1.1 when [log_arg <= 0]. *)
Theorem h_formula (self : System) (eps : list R) (k : nat)
        (I_k gamma_k phase_k epsilon_k : R) :
  nth_error (fst (I_gamma self)) k = Some I_k ->
  nth_error (snd (I_gamma self)) k = Some gamma_k ->
  nth_error (phases self) k = Some phase_k ->
  nth_error eps k = Some epsilon_k ->
  (0 < exp (- gamma_k * phase_k) - gamma_k / I_k * epsilon_k ->
   nth_error (h self eps) k =
   Some (- (1 / gamma_k) * ln (exp (- gamma_k * phase_k) - gamma_k / I_k * epsilon_k)))
  /\
  (exp (- gamma_k * phase_k) - gamma_k / I_k * epsilon_k <= 0 ->
   nth_error (h self eps) k = Some (11 / 10)).
Proof.
  intros HI Hg Hp He.
  rewrite (h_pointwise self eps k _ _ _ _ HI Hg Hp He).
  unfold log_arg_of. split; intros Hla.
  - rewrite Rleb_false by exact Hla. f_equal. unfold Rdiv. ring.
  - rewrite Rleb_true by exact Hla. reflexivity.
Qed.

Lemma h_formula_witness :
  (0 < exp (- 1 * 0) - 1 / 1 * 2 ->
   nth_error (h (mkSystem [1%nat] [] 0 ([1], [1]) 0 [] [] [] [0] [[2]] 0) [2]) 0 =
   Some (- (1 / 1) * ln (exp (- 1 * 0) - 1 / 1 * 2)))
  /\
  (exp (- 1 * 0) - 1 / 1 * 2 <= 0 ->
   nth_error (h (mkSystem [1%nat] [] 0 ([1], [1]) 0 [] [] [] [0] [[2]] 0) [2]) 0 =
   Some (11 / 10)).
Proof.
  apply (h_formula (mkSystem [1%nat] [] 0 ([1], [1]) 0 [] [] [] [0] [[2]] 0)
                   [2] 0 1 1 0 2); reflexivity.
Defined.

(** C10. With I > 0 and gamma > 0 for every neuron, [h] applied to a zero
    potential jump returns the phase vector unchanged. *)
Theorem h_zero_jump (self : System) :
  length (fst (I_gamma self)) = length (phases self) ->
  length (snd (I_gamma self)) = length (phases self) ->
  Forall (fun I_k => 0 < I_k) (fst (I_gamma self)) ->
  Forall (fun gamma_k => 0 < gamma_k) (snd (I_gamma self)) ->
  h self (np.zeros (length (phases self))) = phases self.
Proof.
  intros HlI Hlg HI Hg.
  apply nth_error_ext. intros k.
  destruct (nth_error (phases self) k) as [phase_k|] eqn:Hp.
  - assert (Hk : (k < length (phases self))%nat) by (eapply nth_error_lt; eauto).
    destruct (nth_error (fst (I_gamma self)) k) as [I_k|] eqn:EI;
      [| apply nth_error_None in EI; lia].
    destruct (nth_error (snd (I_gamma self)) k) as [gamma_k|] eqn:Eg;
      [| apply nth_error_None in Eg; lia].
    assert (Ez : nth_error (np.zeros (length (phases self))) k = Some 0).
    { unfold np.zeros. rewrite nth_error_repeat by exact Hk. reflexivity. }
    rewrite (h_pointwise self _ k _ _ _ _ EI Eg Hp Ez).
    assert (Hgpos : 0 < gamma_k).
    { rewrite Forall_forall in Hg. apply Hg. eapply nth_error_In; eauto. }
    unfold log_arg_of.
    replace (exp (- gamma_k * phase_k) - gamma_k / I_k * 0)
      with (exp (- gamma_k * phase_k)) by (unfold Rdiv; ring).
    rewrite Rleb_false by apply exp_pos.
    rewrite ln_exp. f_equal. field. lra.
  - apply nth_error_None. apply nth_error_None in Hp.
    rewrite h_length. lia.
Qed.

Lemma h_zero_jump_witness :
  h (mkSystem [2%nat] [] 0 ([1; 1], [1; 2]) 0 [] [] [] [1 / 2; 1 / 4] [] 0)
    (np.zeros 2) = [1 / 2; 1 / 4].
Proof.
  apply (h_zero_jump (mkSystem [2%nat] [] 0 ([1; 1], [1; 2]) 0 [] [] []
                               [1 / 2; 1 / 4] [] 0)).
  - reflexivity.
  - reflexivity.
  - simpl. repeat constructor; lra.
  - simpl. repeat constructor; lra.
Defined.

(** ** The connectivity generator *)

Lemma astype_int_nonneg (x : R) (z : Z) :
  0 <= x -> IZR z <= x < IZR z + 1 -> np.astype_int x = z.
Proof.
  intros H0 Hz. unfold np.astype_int.
  destruct (Rle_dec 0 x) as [_ | Hn]; [| contradiction].
  symmetry. apply Int_part_spec. lra.
Qed.

Lemma astype_int_neg (x : R) (z : Z) :
  x < 0 -> IZR z - 1 < x <= IZR z -> np.astype_int x = z.
Proof.
  intros H0 Hz. unfold np.astype_int.
  destruct (Rle_dec 0 x) as [Hp | _]; [lra |].
  rewrite <- (Int_part_spec (- x) (- z)%Z).
  - lia.
  - rewrite opp_IZR. lra.
Qed.

(** A draw in [0,1) and a probability [1 <= p_i < 2] give the value 1: the
    edge is present with unit factor. *)
Lemma connect_saturated (p_i x : R) :
  0 <= x < 1 -> 1 <= p_i < 2 -> connect p_i x = 1.
Proof.
  intros Hx Hp. unfold connect.
  destruct (Rle_dec 0 (x + (1 - p_i))) as [Hs | Hs].
  - rewrite (astype_int_nonneg _ 0%Z); lra.
  - rewrite (astype_int_neg _ 0%Z); lra.
Qed.

(** From [p_i = 2] on the value exceeds 1: with [2 < p_i <= 3] a draw in
    (0, p_i - 2] gives 2. *)
Lemma connect_double (p_i x : R) :
  0 < x < 1 -> 2 < p_i <= 3 -> x <= p_i - 2 -> connect p_i x = 2.
Proof.
  intros Hx Hp Hxp. unfold connect.
  rewrite (astype_int_neg _ (-1)%Z); lra.
Qed.

(** C9, the code at [N=[1]], [K=3], [J_int=[[1]]] and a draw 1/2: the only
    edge gets weight 2, not [J_int[0,0] = 1]. *)
Theorem weight_doubled_at_K_3 :
  exists s,
    System_init (fun _ => 1 / 2) [1%nat] [[1]] [1] [1] 3 (1 / 20) [] [] [] = Ok s /\
    weight_matrix s = [[2]].
Proof.
  eexists. split.
  - unfold System_init. cbn -[IZR INR Rdiv Rmult Rplus Rminus Rinv connect].
    reflexivity.
  - cbn -[IZR INR Rdiv Rmult Rplus Rminus Rinv connect].
    rewrite (connect_double (3 / INR 1) (1 / 2)); simpl; try lra.
    do 2 f_equal. lra.
Qed.

(** ** Construction *)

Lemma for_each_inv {A S : Type} (P : S -> Prop) (l : list A)
      (body : A -> S -> result S) (s : S) :
  P s ->
  (forall a s0, In a l -> P s0 -> exists s1, body a s0 = Ok s1 /\ P s1) ->
  exists s', for_each l body s = Ok s' /\ P s'.
Proof.
  revert s. induction l as [|a l IH]; intros s Hs Hbody; simpl.
  - exists s. split; [reflexivity | exact Hs].
  - destruct (Hbody a s (or_introl eq_refl) Hs) as (s1 & E1 & H1).
    rewrite E1. simpl. apply IH; [exact H1 |].
    intros b s0 Hb. apply Hbody. right. exact Hb.
Qed.

Lemma get_item_ok {A : Type} (l : list A) (k : nat) :
  (k < length l)%nat -> exists x, get_item l k = Ok x /\ nth_error l k = Some x.
Proof.
  intros Hk. unfold get_item.
  destruct (nth_error l k) as [x|] eqn:E.
  - exists x. split; reflexivity.
  - apply nth_error_None in E. lia.
Qed.

Lemma fill_I_gamma_ok (N0 : list nat) (I gamma : list R) :
  covers I (length N0) -> covers gamma (length N0) ->
  exists Ig, fill_I_gamma N0 I gamma = Ok Ig.
Proof.
  unfold covers. intros HI Hg. unfold fill_I_gamma.
  destruct (for_each_inv (fun _ => True) (seq 0 (length N0))
              (fun i '(row0, row1) =>
                 let index_i := first_index N0 i in
                 n_i <- get_item N0 i ;;
                 I_i <- get_item I i ;;
                 let row0 := np.map_slice index_i n_i (fun x => x * I_i) row0 in
                 gamma_i <- get_item gamma i ;;
                 let row1 := np.map_slice index_i n_i (fun x => x * gamma_i) row1 in
                 Ok (row0, row1))
              (np.ones (np.sum N0), np.ones (np.sum N0)) Logic.I) as (Ig & E & _).
  - intros i [row0 row1] Hi _. apply in_seq in Hi.
    destruct (get_item_ok N0 i) as (n_i & -> & _); [lia |].
    destruct (get_item_ok I i) as (I_i & -> & _); [lia |].
    destruct (get_item_ok gamma i) as (g_i & -> & _); [lia |].
    simpl. eexists. split; [reflexivity | exact Logic.I].
  - exists Ig. exact E.
Qed.

Lemma get_initial_ISI_ok (U : nat -> R) (self : System) :
  rates_cover (rates self) (N_ext self) ->
  exists self', get_initial_ISI U self = Ok self' /\
    N self' = N self /\ N_ext self' = N_ext self /\ t self' = t self /\
    phases self' = phases self /\ events self' = events self.
Proof.
  intros Hr. unfold get_initial_ISI.
  set (P := fun s : System =>
              N s = N self /\ rates s = rates self /\ N_ext s = N_ext self /\
              t s = t self /\ phases s = phases self /\ events s = events self).
  destruct (for_each_inv P (seq 0 (length (N_ext self)))
              (fun n self0 =>
                 let index_i := first_index (N_ext self0) n in
                 size_n <- get_item (N_ext self0) n ;;
                 for_each (seq 0 size_n)
                   (fun i self1 =>
                      rate <- get_item (rates self1) n ;;
                      '(isi, self2) <- get_InterSpikeInterval U self1 rate ;;
                      Ok (set_external_events self2
                            (np.set_at (index_i + i) isi (external_events self2))))
                   self0)
              self) as (s' & E & HP).
  - unfold P. repeat split.
  - intros n s0 Hn HP0. apply in_seq in Hn.
    destruct HP0 as (HN & Hrs & HNe & Ht & Hph & Hev).
    destruct (get_item_ok (N_ext s0) n) as (size_n & -> & Hsz); [rewrite HNe; lia |].
    simpl.
    apply for_each_inv.
    + unfold P. repeat split; assumption.
    + intros i s1 Hi (HN1 & Hrs1 & HNe1 & Ht1 & Hph1 & Hev1). apply in_seq in Hi.
      destruct (Hr n size_n) as (r & Hrn & Hr0); [rewrite <- HNe; exact Hsz | lia |].
      unfold get_item. rewrite Hrs1, Hrn. simpl.
      unfold get_InterSpikeInterval. rewrite Reqb_false by exact Hr0. simpl.
      eexists. split; [reflexivity |].
      unfold P. simpl. repeat split; assumption.
  - exists s'. split; [exact E |]. unfold P in HP. tauto.
Qed.

Lemma float_div_ok (x : R) (n : nat) :
  (0 < n)%nat -> float_div x n = Ok (x / INR n).
Proof.
  intros Hn. unfold float_div.
  destruct (Nat.eqb_spec n 0) as [E | _]; [lia | reflexivity].
Qed.

Lemma float_div_inv (x : R) (n : nat) (p : R) :
  float_div x n = Ok p -> (0 < n)%nat /\ p = x / INR n.
Proof.
  unfold float_div.
  destruct (Nat.eqb_spec n 0) as [E | E]; [discriminate |].
  intros H. injection H as <-. split; [lia | reflexivity].
Qed.

Lemma float_div_raises (x : R) (n : nat) (e : exn) :
  float_div x n = Raise e -> e = ZeroDivisionError /\ n = 0%nat.
Proof.
  unfold float_div.
  destruct (Nat.eqb_spec n 0) as [E | E]; [| discriminate].
  intros H. injection H as <-. split; [reflexivity | exact E].
Qed.

Lemma create_matrix_ok (U : nat -> R) (src : list nat) (J : list (list R)) (K : R)
      (self : System) :
  Forall (fun n_i => (0 < n_i)%nat) (N self) ->
  covers2 J (length (N self)) (length src) ->
  exists W self', create_matrix U src J K self = Ok (W, self') /\
    N self' = N self /\ N_ext self' = N_ext self.
Proof.
  intros Hpos HJ. unfold create_matrix. cbv zeta.
  match goal with
  | |- context [bind (for_each ?l ?b ?s) _] =>
      destruct (for_each_inv (fun _ : list (list R) => True) l b s Logic.I)
        as (W & E & _)
  end.
  - intros i r Hi _. apply in_seq in Hi. simpl in Hi |- *.
    destruct (get_item_ok (N self) i) as (n_i & -> & Hn_i); [lia |].
    cbn [bind]. rewrite (float_div_ok K n_i)
      by (rewrite Forall_forall in Hpos; apply Hpos;
          eapply nth_error_In; exact Hn_i).
    simpl. apply for_each_inv; [exact Logic.I |].
    intros j r0 Hj _. apply in_seq in Hj.
    destruct (get_item_ok src j) as (n_j & -> & _); [lia |].
    destruct (HJ i j) as (row & x & Hrow & Hx); [lia | lia |].
    unfold get_item. rewrite Hrow. simpl. rewrite Hx. simpl.
    eexists. split; [reflexivity | exact Logic.I].
  - exists W. eexists. rewrite E. simpl.
    split; [reflexivity |]. split; reflexivity.
Qed.

(** C8, as the code has it.  [System.__init__] checks nothing: for every
    [K] and [tau], of any sign, the construction succeeds as soon as no
    internal population is empty (the division [float(K)/self.N[i]] raises on
    a size 0), [I], [gamma], [J_int], [J_ext] and [rates] have an entry
    wherever the loops read one and no rate that is read is zero. *)
Theorem System_init_succeeds (U : nat -> R) (N0 : list nat) (J_int : list (list R))
        (I gamma : list R) (K tau0 : R) (N_ext0 : list nat)
        (J_ext : list (list R)) (rates0 : list R) :
  Forall (fun n_i => (0 < n_i)%nat) N0 ->
  covers I (length N0) ->
  covers gamma (length N0) ->
  covers2 J_int (length N0) (length N0) ->
  covers2 J_ext (length N0) (length N_ext0) ->
  rates_cover rates0 N_ext0 ->
  exists self, System_init U N0 J_int I gamma K tau0 N_ext0 J_ext rates0 = Ok self.
Proof.
  intros Hpos HI Hg HJi HJe Hr. unfold System_init.
  destruct (fill_I_gamma_ok N0 I gamma HI Hg) as (Ig & ->). simpl.
  destruct (get_initial_ISI_ok U
              (mkSystem N0 N_ext0 tau0 Ig 0 [] rates0 (np.ones (np.sum N_ext0)) [] [] 0))
    as (s1 & -> & HN1 & HNe1 & _); [exact Hr |].
  simpl in HN1, HNe1. simpl.
  unfold create_weight_matrix, create_ext_weight_matrix.
  destruct (create_matrix_ok U (N (create_phases U s1)) J_int K (create_phases U s1))
    as (W1 & s2 & -> & HN2 & HNe2).
  { simpl. rewrite HN1. exact Hpos. }
  { simpl. rewrite HN1. exact HJi. }
  simpl.
  destruct (create_matrix_ok U (N_ext s2) J_ext K s2) as (W2 & s3 & -> & _).
  { rewrite HN2. simpl. rewrite HN1. exact Hpos. }
  { rewrite HN2, HNe2. simpl. rewrite HN1, HNe1. exact HJe. }
  simpl. eexists. reflexivity.
Qed.

Lemma System_init_succeeds_witness :
  exists self,
    System_init (fun _ => 1 / 2) [1%nat] [[1]] [1] [1] (-1) (1 / 20)
                [1%nat] [[1]] [-1] = Ok self.
Proof.
  apply (System_init_succeeds (fun _ => 1 / 2) [1%nat] [[1]] [1] [1] (-1) (1 / 20)
                              [1%nat] [[1]] [-1]).
  - repeat constructor.
  - unfold covers. simpl. lia.
  - unfold covers. simpl. lia.
  - intros i j Hi Hj. simpl in Hi, Hj.
    assert (i = 0%nat) by lia. assert (j = 0%nat) by lia. subst.
    exists [1], 1. split; reflexivity.
  - intros i j Hi Hj. simpl in Hi, Hj.
    assert (i = 0%nat) by lia. assert (j = 0%nat) by lia. subst.
    exists [1], 1. split; reflexivity.
  - intros n size Hn Hs. destruct n as [|n]; simpl in Hn.
    + exists (-1). split; [reflexivity | lra].
    + destruct n; discriminate.
Defined.

(** C8 fails on the code: a construction with [K = 0], a negative rate
    and three values of [I] for a single population returns an object. *)
Lemma System_init_accepts_invalid_input :
  let K := 0 in
  let rate := -1 in
  let I := [1; 1; 1] in
  K <= 0 /\ rate <= 0 /\ length I <> length [1%nat] /\
  exists self,
    System_init (fun _ => 1 / 2) [1%nat] [[1]] I [1] K (1 / 20)
                [1%nat] [[1]] [rate] = Ok self.
Proof.
  cbv zeta. split; [lra |]. split; [lra |]. split; [simpl; lia |].
  unfold System_init.
  cbn -[IZR INR Rdiv Rmult Rplus Rminus Rinv connect np.Reqb ln].
  unfold get_InterSpikeInterval. rewrite Reqb_false by lra.
  cbn -[IZR INR Rdiv Rmult Rplus Rminus Rinv connect np.Reqb ln].
  eexists. reflexivity.
Qed.

(** ** Evaluation of the model on concrete networks *)

Ltac decide_tests :=
  repeat match goal with
  | |- context [np.Rltb ?a ?b] =>
      first [rewrite (Rltb_true a b) by lra | rewrite (Rltb_false a b) by lra]
  | |- context [np.Rleb ?a ?b] =>
      first [rewrite (Rleb_true a b) by lra | rewrite (Rleb_false a b) by lra]
  | |- context [np.Reqb ?a ?b] =>
      first [rewrite (Reqb_true a b) by lra | rewrite (Reqb_false a b) by lra]
  end.

Ltac eval_step :=
  cbn -[IZR INR Rdiv Rmult Rplus Rminus Rinv Ropp Rmax Rmin connect
        np.Reqb np.Rltb np.Rleb ln exp].

Ltac struct_eq :=
  lazymatch goal with
  | |- @eq R _ _ => lra
  | |- _ => first [reflexivity | f_equal; struct_eq]
  end.

Ltac unfold_setters :=
  cbv beta iota zeta delta
    [set_weight_matrix set_rng set_t set_phases set_events set_external_events
     create_phases rand N N_ext tau I_gamma t events rates external_events phases
     weight_matrix rng map seq Nat.add np.sum fold_right fst snd].

Lemma exp_neg_lt_1 (x : R) : x < 0 -> exp x < 1.
Proof. intros H. rewrite <- exp_0. apply exp_increasing. exact H. Qed.

Lemma draws_ext_uniform (u4 : R) (k : nat) :
  0 < u4 < 1 -> 0 < draws_ext u4 k < 1.
Proof.
  intros Hu. unfold draws_ext.
  pose proof (exp_pos (- (1 / 2))). pose proof (exp_neg_lt_1 (- (1 / 2))).
  do 5 (destruct k as [|k]; try lra).
Qed.

Lemma build_ext_eq (u4 : R) : build_ext u4 = Ok ext0.
Proof.
  unfold build_ext, System_init. eval_step.
  unfold get_InterSpikeInterval. decide_tests. eval_step.
  rewrite ln_exp.
  rewrite !(connect_saturated (1 / INR 1) (1 / 2)) by (simpl; lra).
  unfold ext0. unfold_setters. unfold draws_ext. struct_eq.
Qed.

Lemma step_ext0 (u4 : R) : jump_to_next_event (draws_ext u4) ext0 = Ok (ext1 u4).
Proof.
  unfold jump_to_next_event, next_delivery, ext0. eval_step.
  decide_tests. eval_step. decide_tests.
  unfold delivery_branch, arrivals. eval_step. decide_tests. eval_step.
  unfold get_InterSpikeInterval. decide_tests. eval_step.
  unfold h. eval_step.
  pose proof (exp_neg_lt_1 (-(1) * (1 / 5 + (1 / 2 - 0)))) as He.
  decide_tests. eval_step.
  unfold ext1, sentinel. unfold_setters. struct_eq.
Qed.

Lemma branch_taken_ext1 : branch_taken (ext1 (exp (- (1 / 2)))) = Ok SelfThreshold.
Proof.
  unfold branch_taken, next_delivery, ext1. eval_step. rewrite ln_exp.
  decide_tests. eval_step. decide_tests. reflexivity.
Qed.

(** C7, the code on the network [build_ext]: the external neuron fires at
    1/2 and its next arrival is drawn from the clock before the step, 0, so
    that with an interval of 1/10 it lies in the past; the next step takes
    [dt = -2/5] in the delivery branch and the clock goes from 1/2 back to
    1/10. *)
Theorem clock_goes_backwards :
  let U := draws_ext (exp (- (1 / 10))) in
  (forall k, 0 < U k < 1) /\
  exists s0 s1 s2,
    build_ext (exp (- (1 / 10))) = Ok s0 /\
    jump_to_next_event U s0 = Ok s1 /\
    jump_to_next_event U s1 = Ok s2 /\
    branch_taken s1 = Ok Delivery /\
    t s1 = 1 / 2 /\ t s2 = 1 / 10.
Proof.
  cbv zeta. split.
  { intros k. apply draws_ext_uniform.
    pose proof (exp_pos (- (1 / 10))). pose proof (exp_neg_lt_1 (- (1 / 10))). lra. }
  exists ext0, (ext1 (exp (- (1 / 10)))).
  assert (Hs2 : exists s2,
             jump_to_next_event (draws_ext (exp (- (1 / 10))))
               (ext1 (exp (- (1 / 10)))) = Ok s2 /\ t s2 = 1 / 10).
  { unfold jump_to_next_event, next_delivery, ext1. eval_step. rewrite ln_exp.
    decide_tests. eval_step. decide_tests.
    unfold delivery_branch, arrivals. eval_step. decide_tests. eval_step.
    unfold get_InterSpikeInterval. decide_tests. eval_step.
    eexists. split; [reflexivity |]. unfold_setters. lra. }
  destruct Hs2 as (s2 & Hj & Ht). exists s2.
  split; [apply build_ext_eq |]. split; [apply step_ext0 |].
  split; [exact Hj |]. split; [| split; [reflexivity | exact Ht]].
  unfold branch_taken, next_delivery, ext1. eval_step. rewrite ln_exp.
  decide_tests. eval_step. decide_tests. reflexivity.
Qed.

(** ** The choice of the branch *)

Lemma put_where_indicator (p : R -> bool) (a : list R) (x y : R) :
  np.put (np.where_ p a) x (repeat y (length a)) =
  map (fun v => if p v then x else y) a.
Proof.
  apply nth_error_ext. intros k. rewrite nth_error_map.
  destruct (nth_error a k) as [v|] eqn:E.
  - assert (Hk : (k < length a)%nat) by (eapply nth_error_lt; eauto).
    rewrite (nth_error_put_where p a _ x k v E) by (rewrite repeat_length; exact Hk).
    rewrite nth_error_repeat by exact Hk. simpl. destruct (p v); reflexivity.
  - simpl. apply nth_error_None. rewrite put_length, repeat_length.
    apply nth_error_None. exact E.
Qed.

Lemma reset_spiking (c : R -> bool) (a : list R) :
  np.zip_with Rminus a
    (np.zip_with Rmult (map (fun v => if c v then 1 else 0) a) a) =
  map (fun v => if c v then 0 else v) a.
Proof.
  induction a as [|v a IH]; simpl; [reflexivity |].
  rewrite IH. f_equal. destruct (c v); ring.
Qed.

Lemma fire_eq (self : System) (dt : R) :
  fire self dt =
  set_t (after_self_threshold self dt) (t self).
Proof.
  unfold fire, after_self_threshold, set_t, set_events, set_phases. simpl.
  unfold np.zeros. rewrite put_where_indicator, reset_spiking.
  rewrite !map_map. reflexivity.
Qed.

Lemma self_threshold_branch_eq (self : System) (min_dt : R) :
  self_threshold_branch self min_dt = after_self_threshold self (Rmax min_dt 0).
Proof.
  unfold self_threshold_branch. rewrite fire_eq. reflexivity.
Qed.

Lemma any_nonempty (a : list R) : np.any a = true -> exists m, np.min a = Ok m.
Proof.
  destruct a as [|x a]; simpl; [discriminate |].
  intros _. eexists. reflexivity.
Qed.

Lemma next_delivery_total (self : System) :
  exists location, next_delivery self = Ok (next_dt self, location).
Proof.
  unfold next_delivery, next_dt, horizon.
  destruct (np.any (external_events self)) eqn:Ha.
  - destruct (any_nonempty _ Ha) as (m & ->). simpl.
    destruct (events self) as [|ev rest].
    + unfold np.Rltb. destruct (Rlt_dec (m - t self) 500) as [Hl | Hl].
      * exists 2%nat. rewrite Rmin_left by lra. reflexivity.
      * rewrite Rmin_right by lra.
        destruct (np.Reqb (m - t self) 500); eexists; reflexivity.
    + unfold np.Rltb.
      destruct (Rlt_dec (m - t self) (fst ev - t self)) as [Hl | Hl].
      * exists 2%nat. rewrite Rmin_left by lra. reflexivity.
      * rewrite Rmin_right by lra.
        destruct (np.Reqb (m - t self) (fst ev - t self)); eexists; reflexivity.
  - destruct (events self) as [|ev rest]; eexists; reflexivity.
Qed.

Lemma branch_taken_self (self : System) :
  branch_taken self = Ok SelfThreshold <->
  exists mx, np.max (phases self) = Ok mx /\ 1 - mx < next_dt self.
Proof.
  unfold branch_taken.
  destruct (next_delivery_total self) as (location & ->). simpl.
  destruct (np.max (phases self)) as [mx | e]; simpl.
  - unfold np.Rltb. destruct (Rlt_dec (1 - mx) (next_dt self)) as [Hl | Hl].
    + split; [intros _; exists mx; auto | reflexivity].
    + split.
      * destruct (np.Reqb (1 - mx) (next_dt self)); discriminate.
      * intros (mx' & E & H). injection E as <-. contradiction.
  - split; [discriminate | intros (mx & E & _); discriminate].
Qed.

Lemma jump_self (U : nat -> R) (self : System) (mx : R) :
  np.max (phases self) = Ok mx -> 1 - mx < next_dt self ->
  jump_to_next_event U self = Ok (after_self_threshold self (Rmax (1 - mx) 0)).
Proof.
  intros Hmx Hlt. unfold jump_to_next_event.
  destruct (next_delivery_total self) as (location & ->). simpl.
  rewrite Hmx. simpl. rewrite Rltb_true by exact Hlt.
  rewrite self_threshold_branch_eq. reflexivity.
Qed.

Lemma external_spikes_draws (U : nat -> R) (default : option nat)
      (indices : list nat) :
  forall (s s' : System) (v v' : list R),
    external_spikes U default indices s v = Ok (v', s') ->
    events s' = events s /\ rng s' = (rng s + length indices)%nat.
Proof.
  induction indices as [|index rest IH]; intros s s' v v' H; simpl in H.
  - injection H as _ <-. split; [reflexivity | simpl; lia].
  - match type of H with
    | bind ?m _ = _ => destruct m as [rate | e]; simpl in H; [| discriminate]
    end.
    unfold get_InterSpikeInterval in H.
    destruct (np.Reqb rate 0); simpl in H; [discriminate |].
    apply IH in H. destruct H as (He & Hr). simpl in He, Hr.
    split; [exact He | simpl; lia].
Qed.

(** What the assembly of the arriving spikes does to the queue and to the
    count of draws: an external arrival alone leaves the queue and takes one
    draw per external neuron that spikes; every other case takes the head of
    the queue. *)
Lemma arrivals_queue (U : nat -> R) (default3 : option nat) (location : nat)
      (dt : R) (s s' : System) (sv : list R) :
  arrivals U default3 location dt s = Ok (sv, s') ->
  (location = 2%nat /\ events s' = events s /\
   rng s' = (rng s + length (np.where_ (fun x => np.Reqb x (t s + dt))
                                       (external_events s)))%nat) \/
  (location <> 2%nat /\ exists ev, events s = ev :: events s').
Proof.
  intros H. unfold arrivals in H.
  destruct location as [|[|[|[|location]]]]; try discriminate.
  - right. split; [discriminate |].
    unfold pop_event in H. destruct (events s) as [|ev rest] eqn:E; simpl in H;
      [discriminate |].
    injection H as _ <-. exists ev. reflexivity.
  - left. split; [reflexivity |].
    match type of H with
    | bind ?m _ = _ => destruct m as [[v s1] | e] eqn:E; simpl in H; [| discriminate]
    end.
    injection H as _ <-. apply external_spikes_draws in E. exact E.
  - right. split; [discriminate |].
    match type of H with
    | bind ?m _ = _ => destruct m as [[v s1] | e] eqn:E; simpl in H; [| discriminate]
    end.
    apply external_spikes_draws in E. destruct E as (E & _).
    unfold pop_event in H. destruct (events s1) as [|ev rest] eqn:E1; simpl in H;
      [discriminate |].
    injection H as _ <-. exists ev. simpl. symmetry. exact E.
Qed.

(** When [1 - max(phases)] is not below the time to the next delivery, the
    step runs the code of the tie or of the delivery. *)
Lemma jump_other (U : nat -> R) (self : System) (mx : R) :
  np.max (phases self) = Ok mx -> ~ 1 - mx < next_dt self ->
  exists location,
    next_delivery self = Ok (next_dt self, location) /\
    jump_to_next_event U self =
    if np.Reqb (1 - mx) (next_dt self)
    then tie_branch U self location mx (1 - mx)
    else delivery_branch U self location (next_dt self).
Proof.
  intros Hmx Hge. unfold jump_to_next_event.
  destruct (next_delivery_total self) as (location & E).
  exists location. split; [exact E |].
  rewrite E. cbn [bind]. rewrite Hmx. cbn [bind].
  rewrite Rltb_false by lra. reflexivity.
Qed.

(** Seen from outside: a step of the tie or of the delivery does not leave
    the queue one entry longer, unless it is a tie with an external arrival
    alone. *)
Lemma jump_other_observed (U : nat -> R) (self s' : System) (mx : R) :
  np.max (phases self) = Ok mx -> ~ 1 - mx < next_dt self ->
  next_delivery self <> Ok (1 - mx, 2%nat) ->
  jump_to_next_event U self = Ok s' ->
  length (events s') <> S (length (events self)).
Proof.
  intros Hmx Hge Hcorner Hj Hlen.
  destruct (jump_other U self mx Hmx Hge) as (location & Hnext & Hstep).
  rewrite Hj in Hstep. symmetry in Hstep.
  destruct (np.Reqb (1 - mx) (next_dt self)) eqn:Etie.
  - apply Reqb_spec in Etie. rewrite <- Etie in Hnext.
    unfold tie_branch in Hstep.
    match type of Hstep with
    | bind ?m _ = _ => destruct m as [[sv s1] | e] eqn:E; simpl in Hstep;
                         [| discriminate]
    end.
    match type of Hstep with
    | bind ?m _ = _ => destruct m as [ph | e]; simpl in Hstep; [| discriminate]
    end.
    injection Hstep as <-. cbn [events set_t set_phases] in Hlen.
    apply arrivals_queue in E. rewrite fire_eq in E.
    cbn [events rng t external_events set_t after_self_threshold] in E.
    destruct E as [(-> & _) | (_ & ev & He)]; [contradiction |].
    apply (f_equal (@length _)) in He. rewrite length_app in He.
    simpl in He. lia.
  - unfold delivery_branch in Hstep.
    match type of Hstep with
    | bind ?m _ = _ => destruct m as [[sv s1] | e] eqn:E; simpl in Hstep;
                         [| discriminate]
    end.
    injection Hstep as <-. cbn [events set_t set_phases] in Hlen.
    apply arrivals_queue in E. cbn [events rng t external_events set_phases] in E.
    destruct E as [(_ & He & _) | (_ & ev & He)].
    + rewrite He in Hlen. lia.
    + apply (f_equal (@length _)) in He. simpl in He. lia.
Qed.

(** C2, as the code has it.  The self-threshold branch is taken exactly when
    the unclamped [1 - max(phases)] is strictly below the time to the next
    delivery ([next_dt]: queue head, external arrival, or 500).  If it is,
    the step advances by [max(1 - max(phases), 0)], resets the phases at or
    above 1, appends one delivery at [tau + t + dt] and applies no potential
    jump.  If it is not, the step is the tie branch (on equality) or the
    delivery branch.  Seen from outside, the tie with an external arrival
    alone apart: the step that returns has left the queue one entry longer
    exactly in the first case.  When the
    clamped [dt_self] of the specification is the strict minimum (and no
    phase is below -499) the branch is taken.  On a network without neuron
    no branch is taken: the step raises. *)
Theorem self_threshold_branch_taken (U : nat -> R) (self : System) :
  (branch_taken self = Ok SelfThreshold <->
   exists mx, np.max (phases self) = Ok mx /\ 1 - mx < next_dt self) /\
  (forall mx, np.max (phases self) = Ok mx -> 1 - mx < next_dt self ->
     jump_to_next_event U self =
     Ok (after_self_threshold self (Rmax (1 - mx) 0))) /\
  (forall mx, np.max (phases self) = Ok mx -> ~ 1 - mx < next_dt self ->
     exists location,
       next_delivery self = Ok (next_dt self, location) /\
       jump_to_next_event U self =
       if np.Reqb (1 - mx) (next_dt self)
       then tie_branch U self location mx (1 - mx)
       else delivery_branch U self location (next_dt self)) /\
  (forall mx s', np.max (phases self) = Ok mx ->
     next_delivery self <> Ok (1 - mx, 2%nat) ->
     jump_to_next_event U self = Ok s' ->
     (1 - mx < next_dt self <->
      length (events s') = S (length (events self)))) /\
  (dt_self_strict_minimum self ->
   (forall mx, np.max (phases self) = Ok mx -> -499 < mx) ->
   branch_taken self = Ok SelfThreshold /\
   exists mx, np.max (phases self) = Ok mx /\
              jump_to_next_event U self =
              Ok (after_self_threshold self (Rmax (1 - mx) 0))) /\
  (forall e, np.max (phases self) = Raise e ->
     jump_to_next_event U self = Raise e).
Proof.
  split; [apply branch_taken_self |]. split; [apply jump_self |].
  split; [apply jump_other |]. split; [| split].
  - intros mx s' Hmx Hcorner Hj. split.
    + intros Hlt. rewrite (jump_self U self mx Hmx Hlt) in Hj.
      injection Hj as <-. simpl. rewrite length_app. simpl. lia.
    + intros Hobs. destruct (Rlt_dec (1 - mx) (next_dt self)) as [Hlt | Hge];
        [exact Hlt |].
      exfalso. exact (jump_other_observed U self s' mx Hmx Hge Hcorner Hj Hobs).
  - intros (mx & Hmx & Hint & Hext) Hlow.
    specialize (Hlow mx Hmx).
    assert (Hh : 1 - mx < horizon self).
    { unfold horizon. destruct (events self) as [|ev rest]; [lra |].
      specialize (Hint ev eq_refl). pose proof (Rmax_r 0 (1 - mx)). lra. }
    assert (Hlt : 1 - mx < next_dt self).
    { unfold next_dt. destruct (np.any (external_events self)); [| exact Hh].
      destruct (np.min (external_events self)) as [m | e]; [| exact Hh].
      specialize (Hext m eq_refl). pose proof (Rmax_r 0 (1 - mx)).
      apply Rmin_glb_lt; lra. }
    split.
    + apply branch_taken_self. exists mx. split; [exact Hmx | exact Hlt].
    + exists mx. split; [exact Hmx | apply jump_self; assumption].
  - intros e He. unfold jump_to_next_event.
    destruct (next_delivery_total self) as (location & ->). cbn [bind].
    rewrite He. reflexivity.
Qed.

(** C2 fails on the code.  After the first step of [build_ext] with a redrawn
    arrival equal to the new clock, the phase is 1.1 and an external arrival
    is due now: [dt_self = max(0, -0.1) = 0] is not strictly below the time 0
    to that arrival, yet the step takes the self-threshold branch. *)
Lemma self_threshold_taken_without_strict_minimum :
  let U := draws_ext (exp (- (1 / 2))) in
  exists s0 s1,
    build_ext (exp (- (1 / 2))) = Ok s0 /\
    jump_to_next_event U s0 = Ok s1 /\
    branch_taken s1 = Ok SelfThreshold /\
    jump_to_next_event U s1 =
      Ok (after_self_threshold s1 (Rmax (1 - 11 / 10) 0)) /\
    ~ dt_self_strict_minimum s1.
Proof.
  cbv zeta. exists ext0, (ext1 (exp (- (1 / 2)))).
  split; [apply build_ext_eq |]. split; [apply step_ext0 |].
  split; [apply branch_taken_ext1 |].
  split.
  { apply jump_self; [reflexivity |].
    unfold next_dt, horizon, ext1. eval_step. rewrite ln_exp.
    decide_tests. eval_step. rewrite Rmin_left by lra. lra. }
  intros (mx & Hmx & _ & Hext).
  unfold ext1 in Hmx, Hext. simpl in Hmx, Hext.
  injection Hmx as <-.
  specialize (Hext _ eq_refl). rewrite ln_exp in Hext.
  pose proof (Rmax_l 0 (1 - 11 / 10)). lra.
Qed.

Lemma self_threshold_branch_taken_witness :
  jump_to_next_event (draws_ext (exp (- (1 / 2)))) (ext1 (exp (- (1 / 2)))) =
  Ok (after_self_threshold (ext1 (exp (- (1 / 2)))) (Rmax (1 - 11 / 10) 0)).
Proof.
  apply (proj1 (proj2 (self_threshold_branch_taken
                         (draws_ext (exp (- (1 / 2)))) (ext1 (exp (- (1 / 2))))))).
  - reflexivity.
  - unfold next_dt, horizon, ext1. eval_step. rewrite ln_exp.
    decide_tests. eval_step. rewrite Rmin_left by lra. lra.
Defined.

(** ** Steps of a network without external input *)

Lemma next_delivery_isolated (s : System) :
  isolated s ->
  next_delivery s =
  Ok (horizon s, match events s with [] => 0%nat | _ :: _ => 1%nat end).
Proof.
  unfold isolated, next_delivery, horizon. intros ->. simpl.
  destruct (events s); reflexivity.
Qed.

Lemma neglect_spec (ids : list nat) (ph ph' : list R) :
  neglect ids ph = Ok ph' -> Forall2 kept_or_reset ph ph'.
Proof.
  assert (Hrefl : forall l : list R, Forall2 kept_or_reset l l).
  { induction l; constructor; [left; reflexivity | assumption]. }
  assert (Hset : forall (l : list R) i, Forall2 kept_or_reset l (np.set_at i 0 l)).
  { induction l as [|x l IH]; intros [|i]; simpl; constructor;
      try (left; reflexivity); try (right; reflexivity); auto. }
  assert (Htrans : forall a b c : list R,
             Forall2 kept_or_reset a b -> Forall2 kept_or_reset b c ->
             Forall2 kept_or_reset a c).
  { intros a b c Hab. revert c. induction Hab as [|x y a b Hxy Hab IH]; intros c Hbc.
    - inversion Hbc. constructor.
    - inversion Hbc as [|y' z b' c' Hyz Hbc']; subst. constructor; [| auto].
      destruct Hxy as [-> | ->]; destruct Hyz as [-> | ->];
        unfold kept_or_reset; auto. }
  revert ph. induction ids as [|i ids IH]; intros ph H; simpl in H.
  - injection H as <-. apply Hrefl.
  - destruct (get_item ph i) as [p | e]; simpl in H; [| discriminate].
    destruct (np.Rltb 1 p).
    + eapply Htrans; [apply Hset | apply IH; exact H].
    + apply IH. exact H.
Qed.

Lemma neglect_ok (ids : list nat) (ph : list R) :
  Forall (fun i => (i < length ph)%nat) ids -> exists ph', neglect ids ph = Ok ph'.
Proof.
  revert ph. induction ids as [|i ids IH]; intros ph H; simpl.
  - eexists. reflexivity.
  - inversion H as [|i' ids' Hi Hids]; subst.
    destruct (get_item_ok ph i Hi) as (p & -> & _). simpl.
    destruct (np.Rltb 1 p).
    + apply IH. rewrite set_at_length. exact Hids.
    + apply IH. exact Hids.
Qed.

Lemma where_bound (p : R -> bool) (a : list R) :
  Forall (fun i => (i < length a)%nat) (np.where_ p a).
Proof.
  apply Forall_forall. intros i Hi. apply In_where in Hi.
  destruct Hi as (y & Hy & _). eapply nth_error_lt; eauto.
Qed.

Lemma h_congr (s1 s2 : System) (eps : list R) :
  I_gamma s1 = I_gamma s2 -> phases s1 = phases s2 -> h s1 eps = h s2 eps.
Proof. intros HI Hp. unfold h. rewrite HI, Hp. reflexivity. Qed.

Lemma jump_isolated (U : nat -> R) (s s' : System) :
  isolated s -> jump_to_next_event U s = Ok s' ->
  exists mx, np.max (phases s) = Ok mx /\ same_network s s' /\
             isolated_step s s' mx.
Proof.
  intros Hiso Hj. unfold jump_to_next_event in Hj.
  rewrite (next_delivery_isolated s Hiso) in Hj. simpl in Hj.
  destruct (np.max (phases s)) as [mx | e] eqn:Hmx; simpl in Hj; [| discriminate].
  exists mx. split; [reflexivity |].
  unfold np.Rltb in Hj. destruct (Rlt_dec (1 - mx) (horizon s)) as [Hlt | Hge].
  - injection Hj as <-. rewrite self_threshold_branch_eq.
    split; [repeat split | apply step_self; [exact Hlt | reflexivity]].
  - unfold np.Reqb in Hj.
    destruct (Req_dec_T (1 - mx) (horizon s)) as [Heq | Hne].
    + unfold tie_branch in Hj. rewrite fire_eq in Hj.
      unfold horizon in Heq.
      destruct (events s) as [|ev rest] eqn:Hev.
      * unfold arrivals in Hj. simpl in Hj. discriminate.
      * unfold arrivals, pop_event in Hj. simpl in Hj. rewrite Hev in Hj.
        simpl in Hj.
        match type of Hj with
        | context [neglect ?ids ?ph] =>
            destruct (neglect ids ph) as [ph' | e] eqn:Hn
        end; simpl in Hj; [| discriminate].
        injection Hj as <-. apply neglect_spec in Hn.
        split; [repeat split |].
        eapply step_tie; [exact Hev | exact Heq | reflexivity | reflexivity |].
        exact Hn.
    + unfold delivery_branch in Hj. unfold horizon in *.
      destruct (events s) as [|ev rest] eqn:Hev.
      * unfold arrivals in Hj. simpl in Hj. discriminate.
      * unfold arrivals, pop_event in Hj. simpl in Hj. rewrite Hev in Hj.
        simpl in Hj. injection Hj as <-.
        split; [repeat split |].
        eapply step_delivery; [exact Hev | lra | reflexivity | reflexivity |].
        reflexivity.
Qed.

Lemma fold_left_Rmax_spec (a : list R) (x : R) :
  (fold_left Rmax a x = x \/ In (fold_left Rmax a x) a) /\
  x <= fold_left Rmax a x /\
  Forall (fun p => p <= fold_left Rmax a x) a.
Proof.
  revert x. induction a as [|y a IH]; intros x; simpl.
  - split; [left; reflexivity |]. split; [lra | constructor].
  - destruct (IH (Rmax x y)) as (Hin & Hle & Hall).
    pose proof (Rmax_l x y). pose proof (Rmax_r x y).
    split; [| split].
    + destruct Hin as [E | Hin]; [| right; right; exact Hin].
      rewrite E. unfold Rmax. destruct (Rle_dec x y); [right; left | left]; reflexivity.
    + lra.
    + constructor; [lra | exact Hall].
Qed.

Lemma max_spec (a : list R) (mx : R) :
  np.max a = Ok mx -> In mx a /\ Forall (fun p => p <= mx) a.
Proof.
  destruct a as [|x a]; simpl; [discriminate |].
  intros H. injection H as <-.
  destruct (fold_left_Rmax_spec a x) as (Hin & Hle & Hall).
  split.
  - destruct Hin as [E | Hin]; [left; symmetry; exact E | right; exact Hin].
  - constructor; assumption.
Qed.

Lemma max_ok (a : list R) : a <> [] -> exists mx, np.max a = Ok mx.
Proof. destruct a; [contradiction | intros _; eexists; reflexivity]. Qed.

Lemma sorted_app_last (l : list R) (y : R) :
  StronglySorted Rle l -> Forall (fun x => x <= y) l ->
  StronglySorted Rle (l ++ [y]).
Proof.
  induction l as [|x l IH]; intros Hs Hall; simpl.
  - constructor; constructor.
  - inversion Hs as [|x' l' Hs' Hx]; subst.
    inversion Hall as [|x' l' Hxy Hall']; subst.
    constructor; [apply IH; assumption |].
    apply Forall_app. split; [exact Hx | constructor; [exact Hxy | constructor]].
Qed.

Lemma dot_length (M : list (list R)) (v : list R) : length (np.dot M v) = length M.
Proof. unfold np.dot. apply length_map. Qed.

Lemma h_length_shaped (n : nat) (s : System) (base eps : list R) :
  shaped n s -> length base = n -> length eps = n ->
  length (h (set_phases s base) eps) = n.
Proof.
  intros (_ & HI & Hg & _) Hb He. rewrite h_length. simpl. lia.
Qed.

Lemma Forall2_length_eq {A B : Type} (P : A -> B -> Prop) (a : list A) (b : list B) :
  Forall2 P a b -> length a = length b.
Proof. induction 1; simpl; congruence. Qed.

(** A step of a network without external input keeps the shapes and the
    order of the queue, and does not move the clock back. *)
Lemma isolated_step_preserves (n : nat) (s s' : System) (mx : R) :
  isolated_step s s' mx -> same_network s s' ->
  shaped n s -> isolated s -> queue_ok s ->
  shaped n s' /\ isolated s' /\ queue_ok s' /\ t s <= t s'.
Proof.
  intros Hstep (HN & HNe & Htau & HIg & Hrates & HW & Hext & Hrng)
         Hsh Hiso (Htau0 & Hq & Hsorted).
  assert (Hiso' : isolated s') by (unfold isolated in *; congruence).
  assert (Heps : forall ev, length (jump_of s ev) = n).
  { intros ev. unfold jump_of, epsilon. rewrite dot_length. apply Hsh. }
  destruct Hstep as [Hlt -> | ev rest Hev Hlt Ht Hev' Hph | ev rest Hev Heq Ht Hev' Hph].
  - (* self-threshold *)
    pose proof (Rmax_r (1 - mx) 0) as Hdt0.
    assert (Hhead : forall e, In e (events s) -> t s + Rmax (1 - mx) 0 <= fst e).
    { intros e He. unfold horizon in Hlt.
      destruct (events s) as [|ev0 rest] eqn:Hev; [destruct He |].
      simpl in Hsorted. apply StronglySorted_inv in Hsorted.
      destruct Hsorted as (Hs' & Hx).
      pose proof (Forall_inv Hq) as Hq0.
      assert (fst ev0 <= fst e).
      { destruct He as [<- | He]; [lra |].
        rewrite Forall_forall in Hx. apply Hx. apply in_map. exact He. }
      unfold Rmax. destruct (Rle_dec (1 - mx) 0); lra. }
    split; [| split; [exact Hiso' | split]].
    + destruct Hsh as (Hp & HI & Hg & Hw). unfold shaped. simpl.
      rewrite length_map. auto.
    + unfold queue_ok. simpl. split; [exact Htau0 |]. split.
      * apply Forall_app. split.
        -- rewrite Forall_forall in Hq |- *. intros e He.
           specialize (Hq e He). specialize (Hhead e He). lra.
        -- constructor; [simpl; lra | constructor].
      * rewrite map_app. simpl. apply sorted_app_last; [exact Hsorted |].
        rewrite Forall_forall in Hq |- *. intros x Hx.
        apply in_map_iff in Hx. destruct Hx as (e & <- & He).
        specialize (Hq e He). lra.
    + simpl. lra.
  - (* delivery *)
    rewrite Hev in Hq, Hsorted. simpl in Hsorted.
    apply StronglySorted_inv in Hsorted. destruct Hsorted as (Hs' & Hx).
    pose proof (Forall_inv Hq) as Hq0. pose proof (Forall_inv_tail Hq) as Hq'.
    split; [| split; [exact Hiso' | split]].
    + destruct Hsh as (Hp & HI & Hg & Hw). unfold shaped.
      rewrite Hph, HIg, HW.
      rewrite (h_length_shaped n s); unfold shaped; auto.
      rewrite length_map. exact Hp.
    + unfold queue_ok. rewrite Htau, Hev', Ht. split; [exact Htau0 |].
      split; [| exact Hs'].
      rewrite Forall_forall in Hq', Hx |- *. intros e He.
      specialize (Hq' e He). specialize (Hx (fst e) (in_map fst _ _ He)). lra.
    + lra.
  - (* tie *)
    rewrite Hev in Hq, Hsorted. simpl in Hsorted.
    apply StronglySorted_inv in Hsorted. destruct Hsorted as (Hs' & Hx).
    pose proof (Forall_inv Hq) as Hq0. pose proof (Forall_inv_tail Hq) as Hq'.
    assert (Hdt : Rmax (1 - mx) 0 = fst ev - t s).
    { rewrite Heq. apply Rmax_left. lra. }
    split; [| split; [exact Hiso' | split]].
    + destruct Hsh as (Hp & HI & Hg & Hw). unfold shaped.
      rewrite HIg, HW. rewrite <- (Forall2_length_eq _ _ _ Hph).
      rewrite (h_length_shaped n s); unfold shaped; auto.
      rewrite length_map. exact Hp.
    + unfold queue_ok. rewrite Htau, Hev', Ht, Hdt. split; [exact Htau0 |]. split.
      * apply Forall_app. split.
        -- rewrite Forall_forall in Hq', Hx |- *. intros e He.
           specialize (Hq' e He). specialize (Hx (fst e) (in_map fst _ _ He)). lra.
        -- constructor; [simpl; lra | constructor].
      * rewrite map_app. simpl. apply sorted_app_last; [exact Hs' |].
        rewrite Forall_forall in Hq' |- *. intros x Hx'.
        apply in_map_iff in Hx'. destruct Hx' as (e & <- & He).
        specialize (Hq' e He). lra.
    + rewrite Ht, Hdt. lra.
Qed.

(** ** Excitatory networks without external input *)

Lemma exp_nonpos_le_1 (x : R) : x <= 0 -> exp x <= 1.
Proof.
  intros [H | ->]; [left; apply exp_neg_lt_1; exact H | rewrite exp_0; lra].
Qed.

Lemma ln_le_0 (x : R) : 0 < x -> x <= 1 -> ln x <= 0.
Proof.
  intros H0 [H | ->]; [| rewrite ln_1; lra].
  left. rewrite <- ln_1. apply ln_increasing; assumption.
Qed.

Lemma dot_row_nonneg (row v : list R) :
  Forall (fun w => 0 <= w) row -> Forall (fun x => 0 <= x) v ->
  0 <= np.dot_row row v.
Proof.
  unfold np.dot_row. intros Hr. revert v.
  induction Hr as [|w row Hw Hr IH]; intros v Hv; simpl; [lra |].
  destruct Hv as [|x v Hx Hv]; simpl; [lra |].
  specialize (IH v Hv). nra.
Qed.

Lemma dot_nonneg (M : list (list R)) (v : list R) :
  Forall (Forall (fun w => 0 <= w)) M -> Forall (fun x => 0 <= x) v ->
  Forall (fun x => 0 <= x) (np.dot M v).
Proof.
  intros HM Hv. unfold np.dot. apply Forall_map.
  eapply Forall_impl; [| exact HM]. intros row Hrow.
  apply dot_row_nonneg; assumption.
Qed.

Lemma zeros_nonneg (n : nat) : Forall (fun x => 0 <= x) (np.zeros n).
Proof.
  unfold np.zeros. apply Forall_forall. intros x Hx.
  apply repeat_spec in Hx. lra.
Qed.

Lemma Forall_nth_error {A : Type} (P : A -> Prop) (l : list A) (k : nat) (x : A) :
  Forall P l -> nth_error l k = Some x -> P x.
Proof.
  intros H E. rewrite Forall_forall in H. apply H. eapply nth_error_In; eauto.
Qed.

(** With positive I and gamma, phases that are not negative and a
    potential jump that is not negative, h gives no negative phase. *)
Lemma h_nonneg (s : System) (eps : list R) :
  Forall (fun I_k => 0 < I_k) (fst (I_gamma s)) ->
  Forall (fun gamma_k => 0 < gamma_k) (snd (I_gamma s)) ->
  Forall (fun p => 0 <= p) (phases s) ->
  Forall (fun x => 0 <= x) eps ->
  Forall (fun p => 0 <= p) (h s eps).
Proof.
  intros HI Hg Hp He. apply Forall_forall. intros x Hx.
  apply In_nth_error in Hx. destruct Hx as (k & Hk).
  pose proof (nth_error_lt _ _ _ Hk) as Hlen. rewrite h_length in Hlen.
  destruct (nth_error (fst (I_gamma s)) k) as [I_k|] eqn:EI;
    [| apply nth_error_None in EI; lia].
  destruct (nth_error (snd (I_gamma s)) k) as [g_k|] eqn:Eg;
    [| apply nth_error_None in Eg; lia].
  destruct (nth_error (phases s) k) as [p_k|] eqn:Ep;
    [| apply nth_error_None in Ep; lia].
  destruct (nth_error eps k) as [e_k|] eqn:Ee;
    [| apply nth_error_None in Ee; lia].
  rewrite (h_pointwise s eps k _ _ _ _ EI Eg Ep Ee) in Hk. injection Hk as <-.
  pose proof (Forall_nth_error _ _ _ _ HI EI) as HI0.
  pose proof (Forall_nth_error _ _ _ _ Hg Eg) as Hg0.
  pose proof (Forall_nth_error _ _ _ _ Hp Ep) as Hp0.
  pose proof (Forall_nth_error _ _ _ _ He Ee) as He0.
  simpl in HI0, Hg0, Hp0, He0.
  unfold np.Rleb, sentinel.
  destruct (Rle_dec (log_arg_of I_k g_k p_k e_k) 0) as [Hle | Hgt]; [lra |].
  assert (Hla1 : log_arg_of I_k g_k p_k e_k <= 1).
  { unfold log_arg_of.
    assert (exp (- g_k * p_k) <= 1) by (apply exp_nonpos_le_1; nra).
    assert (0 <= g_k / I_k * e_k).
    { apply Rmult_le_pos; [| exact He0].
      apply Rlt_le. apply Rdiv_lt_0_compat; assumption. }
    lra. }
  assert (Hln : ln (log_arg_of I_k g_k p_k e_k) <= 0) by (apply ln_le_0; lra).
  assert (Hinv : 0 < / g_k) by (apply Rinv_0_lt_compat; exact Hg0).
  unfold Rdiv. nra.
Qed.

Lemma kept_or_reset_nonneg (a b : list R) :
  Forall2 kept_or_reset a b -> Forall (fun p => 0 <= p) a ->
  Forall (fun p => 0 <= p) b.
Proof.
  induction 1 as [|x y a b Hxy Hab IH]; intros Ha; [constructor |].
  pose proof (Forall_inv Ha) as Hx. pose proof (Forall_inv_tail Ha) as Ha'.
  simpl in Hx.
  constructor; [| apply IH; exact Ha'].
  destruct Hxy as [-> | ->]; lra.
Qed.

Lemma isolated_step_nonneg (s s' : System) (mx : R) :
  isolated_step s s' mx -> same_network s s' ->
  queue_ok s -> excitatory s -> nonneg s ->
  excitatory s' /\ nonneg s'.
Proof.
  intros Hstep (HN & HNe & Htau & HIg & Hrates & HW & Hext & Hrng)
         (Htau0 & Hq & Hsorted) (HWpos & HIpos & Hgpos) (Hp & Hev0).
  split; [unfold excitatory; rewrite HW, HIg; auto |].
  assert (Hjump : forall ev, In ev (events s) ->
                             Forall (fun x => 0 <= x) (jump_of s ev)).
  { intros ev Hin. unfold jump_of, epsilon. apply dot_nonneg; [exact HWpos |].
    apply Forall_app. split; [| apply zeros_nonneg].
    rewrite Forall_forall in Hev0. apply Hev0. exact Hin. }
  destruct Hstep as [Hlt -> | ev rest Hev Hlt Ht Hev' Hph | ev rest Hev Heq Ht Hev' Hph].
  - pose proof (Rmax_r (1 - mx) 0) as Hdt0.
    unfold nonneg. simpl. split.
    + apply Forall_map. eapply Forall_impl; [| exact Hp].
      intros p Hp0. simpl in Hp0. destruct (np.Rleb 1 (p + Rmax (1 - mx) 0)); lra.
    + apply Forall_app. split; [exact Hev0 |].
      constructor; [| constructor]. simpl. apply Forall_map.
      apply Forall_forall. intros p _.
      destruct (np.Rleb 1 (p + Rmax (1 - mx) 0)); lra.
  - assert (Hin : In ev (events s)) by (rewrite Hev; left; reflexivity).
    rewrite Hev in Hq, Hev0.
    pose proof (Forall_inv Hq) as Hq0. simpl in Hq0.
    unfold nonneg. rewrite Hph, Hev'. split; [| exact (Forall_inv_tail Hev0)].
    apply h_nonneg; simpl; auto.
    apply Forall_map. eapply Forall_impl; [| exact Hp].
    intros p Hp0. simpl in Hp0. lra.
  - assert (Hin : In ev (events s)) by (rewrite Hev; left; reflexivity).
    rewrite Hev in Hq, Hev0.
    pose proof (Forall_inv Hq) as Hq0. simpl in Hq0.
    pose proof (Rmax_r (1 - mx) 0) as Hdt0.
    unfold nonneg. rewrite Hev'. split.
    + eapply kept_or_reset_nonneg; [exact Hph |].
      apply h_nonneg; simpl; auto.
      apply Forall_map. eapply Forall_impl; [| exact Hp].
      intros p Hp0. simpl in Hp0. destruct (np.Rleb 1 (p + Rmax (1 - mx) 0)); lra.
    + apply Forall_app. split; [exact (Forall_inv_tail Hev0) |].
      constructor; [| constructor]. simpl. apply Forall_map.
      apply Forall_forall. intros p _.
      destruct (np.Rleb 1 (p + Rmax (1 - mx) 0)); lra.
Qed.

Lemma jump_isolated_ok (U : nat -> R) (n : nat) (s : System) :
  (0 < n)%nat -> shaped n s -> isolated s ->
  Forall (fun p => 0 <= p) (phases s) ->
  exists s', jump_to_next_event U s = Ok s'.
Proof.
  intros Hn Hsh Hiso Hp. unfold jump_to_next_event.
  rewrite (next_delivery_isolated s Hiso). simpl.
  destruct (max_ok (phases s)) as (mx & Hmx).
  { destruct Hsh as (Hlen & _). destruct (phases s); [simpl in Hlen; lia | discriminate]. }
  rewrite Hmx. simpl.
  assert (Hmx0 : 0 <= mx).
  { destruct (max_spec _ _ Hmx) as (Hin & _).
    rewrite Forall_forall in Hp. apply Hp. exact Hin. }
  unfold np.Rltb. destruct (Rlt_dec (1 - mx) (horizon s)) as [Hlt | Hge].
  { eexists. reflexivity. }
  assert (Hne : exists ev rest, events s = ev :: rest).
  { unfold horizon in Hge. destruct (events s) as [|ev rest]; [lra | eauto]. }
  destruct Hne as (ev & rest & Hev).
  destruct (np.Reqb (1 - mx) (horizon s)).
  - unfold tie_branch. rewrite fire_eq. unfold arrivals, pop_event. simpl.
    rewrite Hev. simpl.
    match goal with
    | |- context [neglect ?ids ?ph] => destruct (neglect_ok ids ph) as (ph' & ->)
    end.
    + eapply Forall_impl; [| apply where_bound].
      intros i Hi. simpl in Hi.
      match goal with
      | |- (_ < length (h ?x ?eps))%nat =>
          replace (length (h x eps)) with n
      end.
      * destruct Hsh as (Hlen & _). lia.
      * symmetry. rewrite h_length. simpl. rewrite length_map.
        unfold epsilon. rewrite dot_length. simpl.
        destruct Hsh as (H1 & H2 & H3 & H4). lia.
    + simpl. eexists. reflexivity.
  - unfold delivery_branch, arrivals, pop_event. simpl. rewrite Hev. simpl.
    eexists. reflexivity.
Qed.

(** ** Termination of the run loop without external input *)

Lemma filter_length_mono {A : Type} (f g : A -> bool) (l : list A) :
  (forall a, In a l -> f a = true -> g a = true) ->
  (length (filter f l) <= length (filter g l))%nat.
Proof.
  induction l as [|a l IH]; intros Hfg; simpl; [lia |].
  assert (IH' : (length (filter f l) <= length (filter g l))%nat).
  { apply IH. intros b Hb. apply Hfg. right. exact Hb. }
  assert (Ha := Hfg a (or_introl eq_refl)).
  destruct (f a); [rewrite Ha by reflexivity; simpl; lia |].
  destruct (g a); simpl; lia.
Qed.

Lemma filter_length_lt {A : Type} (f g : A -> bool) (l : list A) (x : A) :
  (forall a, In a l -> f a = true -> g a = true) ->
  In x l -> g x = true -> f x = false ->
  (length (filter f l) < length (filter g l))%nat.
Proof.
  induction l as [|a l IH]; intros Hfg Hx Hgx Hfx; [destruct Hx |].
  assert (Hl : forall b, In b l -> f b = true -> g b = true).
  { intros b Hb. apply Hfg. right. exact Hb. }
  pose proof (filter_length_mono f g l Hl) as Hle.
  simpl. destruct Hx as [-> | Hx].
  - rewrite Hgx, Hfx. simpl. lia.
  - specialize (IH Hl Hx Hgx Hfx).
    assert (Ha := Hfg a (or_introl eq_refl)).
    destruct (f a); [rewrite Ha by reflexivity; simpl; lia |].
    destruct (g a); simpl; lia.
Qed.

(** While the clock stays below [bound = t0 + min(tau, 1)], every step of
    a network without external input decreases [steps_left]. *)
Lemma isolated_step_decreases (n : nat) (t0 : R) (s s' : System) (mx : R) :
  isolated_step s s' mx -> same_network s s' ->
  np.max (phases s) = Ok mx ->
  shaped n s -> shaped n s' -> queue_ok s -> t0 <= t s ->
  t s' < t0 + Rmin (tau s) 1 ->
  (steps_left n t0 (t0 + Rmin (tau s) 1) s'
   < steps_left n t0 (t0 + Rmin (tau s) 1) s)%nat.
Proof.
  intros Hstep Hsame Hmx Hsh Hsh' (Htau0 & Hq & Hsorted) Ht0 Hbound.
  pose proof (Rmin_l (tau s) 1) as Hml. pose proof (Rmin_r (tau s) 1) as Hmr.
  set (bound := t0 + Rmin (tau s) 1) in *.
  unfold steps_left.
  destruct Hstep as [Hlt -> | ev rest Hev Hlt Ht Hev' Hph | ev rest Hev Heq Ht Hev' Hph].
  - (* self-threshold: the queue keeps its early deliveries, the neuron with
       the largest phase stops being stale *)
    pose proof (Rmax_r (1 - mx) 0) as Hdt0.
    pose proof (Rmax_l (1 - mx) 0) as Hdt1.
    simpl in Hbound.
    assert (He : early bound (after_self_threshold s (Rmax (1 - mx) 0)) = early bound s).
    { unfold early. simpl. rewrite filter_app, length_app. simpl.
      rewrite Rltb_false by (unfold bound; lra). simpl. lia. }
    rewrite He.
    assert (Hs : (stale t0 (after_self_threshold s (Rmax (1 - mx) 0)) < stale t0 s)%nat).
    { unfold stale. simpl. rewrite filter_map_swap, length_map.
      destruct (max_spec _ _ Hmx) as (Hin & _).
      apply (filter_length_lt _ _ _ mx); [| exact Hin | |].
      - intros p _ Hp. apply Rltb_spec in Hp. apply Rltb_spec.
        unfold np.Rleb in Hp.
        destruct (Rle_dec 1 (p + Rmax (1 - mx) 0)); lra.
      - apply Rltb_true. unfold bound in Hbound. lra.
      - rewrite Rleb_true by lra. apply Rltb_false. lra. }
    nia.
  - (* delivery: one early delivery leaves the queue *)
    assert (He : early bound s = S (early bound s')).
    { unfold early. rewrite Hev, Hev'. simpl.
      rewrite Rltb_true by lra. reflexivity. }
    assert (Hs : (stale t0 s' <= n)%nat).
    { unfold stale. destruct Hsh' as (Hlen & _). rewrite <- Hlen.
      apply filter_length_le. }
    rewrite He. nia.
  - (* tie: one early delivery leaves the queue, the new one is not early *)
    rewrite Hev in Hq. pose proof (Forall_inv Hq) as Hq0. simpl in Hq0.
    assert (Hdt : Rmax (1 - mx) 0 = fst ev - t s).
    { rewrite Heq. apply Rmax_left. lra. }
    assert (He : early bound s = S (early bound s')).
    { unfold early. rewrite Hev, Hev'. simpl.
      rewrite Rltb_true by lra.
      rewrite filter_app, length_app. simpl.
      rewrite Rltb_false by (unfold bound; lra). simpl. lia. }
    assert (Hs : (stale t0 s' <= n)%nat).
    { unfold stale. destruct Hsh' as (Hlen & _). rewrite <- Hlen.
      apply filter_length_le. }
    rewrite He. nia.
Qed.

Lemma finishes_now (U : nat -> R) (s : System) (t_end : R) :
  t_end <= t s -> finishes U s t_end.
Proof.
  intros H. exists 0%nat. left. exists s. simpl.
  rewrite Rltb_false by exact H. split; [reflexivity | exact H].
Qed.

Lemma finishes_raise (U : nat -> R) (s : System) (t_end : R) (e : exn) :
  jump_to_next_event U s = Raise e -> finishes U s t_end.
Proof.
  intros H. destruct (Rlt_dec (t s) t_end) as [Hlt | Hge].
  - exists 1%nat. right. exists e. simpl.
    rewrite Rltb_true by exact Hlt. rewrite H. reflexivity.
  - apply finishes_now. lra.
Qed.

Lemma finishes_step (U : nat -> R) (s s' : System) (t_end : R) :
  jump_to_next_event U s = Ok s' -> finishes U s' t_end -> finishes U s t_end.
Proof.
  intros H (fuel & Hf). destruct (Rlt_dec (t s) t_end) as [Hlt | Hge].
  - exists (S fuel). simpl. rewrite Rltb_true by exact Hlt. rewrite H. exact Hf.
  - apply finishes_now. lra.
Qed.

(** From a state at time [t0 <= t s], the loop finishes as soon as it does
    from every later state whose clock has reached [t0 + min(tau, 1)]. *)
Lemma finishes_window (U : nat -> R) (n : nat) (tau0 t0 t_end : R) (m : nat) :
  forall s,
    shaped n s -> isolated s -> queue_ok s -> tau s = tau0 -> t0 <= t s ->
    (steps_left n t0 (t0 + Rmin tau0 1) s <= m)%nat ->
    (forall s', shaped n s' -> isolated s' -> queue_ok s' -> tau s' = tau0 ->
                t0 + Rmin tau0 1 <= t s' -> finishes U s' t_end) ->
    finishes U s t_end.
Proof.
  induction m as [|m IH]; intros s Hsh Hiso Hq Htau Ht0 Hm Hlater.
  - destruct (jump_to_next_event U s) as [s' | e] eqn:Hj;
      [| eapply finishes_raise; eauto].
    destruct (jump_isolated U s s' Hiso Hj) as (mx & Hmx & Hsame & Hstep).
    destruct (isolated_step_preserves n s s' mx Hstep Hsame Hsh Hiso Hq)
      as (Hsh' & Hiso' & Hq' & Hmono).
    assert (Htau' : tau s' = tau0) by (destruct Hsame as (_ & _ & E & _); congruence).
    apply (finishes_step U s s' t_end Hj).
    destruct (Rlt_dec (t s') (t0 + Rmin tau0 1)) as [Hlt | Hge].
    + pose proof (isolated_step_decreases n t0 s s' mx Hstep Hsame Hmx Hsh Hsh' Hq Ht0)
        as Hdec.
      rewrite Htau in Hdec. specialize (Hdec Hlt). lia.
    + apply Hlater; auto. lra.
  - destruct (jump_to_next_event U s) as [s' | e] eqn:Hj;
      [| eapply finishes_raise; eauto].
    destruct (jump_isolated U s s' Hiso Hj) as (mx & Hmx & Hsame & Hstep).
    destruct (isolated_step_preserves n s s' mx Hstep Hsame Hsh Hiso Hq)
      as (Hsh' & Hiso' & Hq' & Hmono).
    assert (Htau' : tau s' = tau0) by (destruct Hsame as (_ & _ & E & _); congruence).
    apply (finishes_step U s s' t_end Hj).
    destruct (Rlt_dec (t s') (t0 + Rmin tau0 1)) as [Hlt | Hge].
    + pose proof (isolated_step_decreases n t0 s s' mx Hstep Hsame Hmx Hsh Hsh' Hq Ht0)
        as Hdec.
      rewrite Htau in Hdec. specialize (Hdec Hlt).
      apply IH; auto; try lra. lia.
    + apply Hlater; auto. lra.
Qed.

(** With a positive delay and no external input the loop finishes from
    every well-formed state. *)
Lemma finishes_isolated (U : nat -> R) (n : nat) (t_end : R) (s : System) :
  shaped n s -> isolated s -> queue_ok s -> 0 < tau s ->
  finishes U s t_end.
Proof.
  intros Hsh Hiso Hq Htau.
  set (tau0 := tau s). set (delta := Rmin tau0 1).
  assert (Hdelta : 0 < delta).
  { unfold delta, tau0. apply Rmin_glb_lt; lra. }
  destruct (INR_archimed delta (t_end - t s) Hdelta) as (j & Hj).
  assert (Hgen : forall j s0,
             shaped n s0 -> isolated s0 -> queue_ok s0 -> tau s0 = tau0 ->
             t_end - t s0 <= INR j * delta -> finishes U s0 t_end).
  { clear. intros j. induction j as [|j IH]; intros s0 Hsh Hiso Hq Htau Hj.
    - apply finishes_now. simpl in Hj. lra.
    - apply (finishes_window U n tau0 (t s0) t_end
               (steps_left n (t s0) (t s0 + Rmin tau0 1) s0) s0); auto; try lra.
      intros s' Hsh' Hiso' Hq' Htau' Ht'.
      apply IH; auto. rewrite S_INR in Hj. fold delta in Ht'. lra. }
  apply (Hgen j s); auto. lra.
Qed.

(** ** The state a construction without external population starts from *)

Lemma for_each_preserves {A S : Type} (P : S -> Prop) (l : list A)
      (body : A -> S -> result S) (s s' : S) :
  P s ->
  (forall a s0 s1, In a l -> P s0 -> body a s0 = Ok s1 -> P s1) ->
  for_each l body s = Ok s' -> P s'.
Proof.
  revert s. induction l as [|a l IH]; intros s Hs Hbody H; simpl in H.
  - injection H as <-. exact Hs.
  - destruct (body a s) as [s1 | e] eqn:E; simpl in H; [| discriminate].
    apply (IH s1); auto.
    + apply (Hbody a s s1); auto. left. reflexivity.
    + intros b s0 s2 Hb. apply Hbody. right. exact Hb.
Qed.

Lemma map_slice_length {A : Type} (lo len : nat) (f : A -> A) (a : list A) :
  length (np.map_slice lo len f a) = length a.
Proof.
  unfold np.map_slice.
  rewrite !length_app, length_map, !length_firstn, !length_skipn. lia.
Qed.

Lemma fill_I_gamma_shape (N0 : list nat) (I gamma : list R) (Ig : list R * list R) :
  fill_I_gamma N0 I gamma = Ok Ig ->
  length (fst Ig) = np.sum N0 /\ length (snd Ig) = np.sum N0.
Proof.
  unfold fill_I_gamma.
  apply (for_each_preserves
           (fun Ig : list R * list R =>
              length (fst Ig) = np.sum N0 /\ length (snd Ig) = np.sum N0)).
  - unfold np.ones. simpl. rewrite repeat_length. auto.
  - intros i [row0 row1] s1 _ (H0 & H1) Hb. simpl in H0, H1.
    destruct (get_item N0 i) as [n_i|]; simpl in Hb; [| discriminate].
    destruct (get_item I i) as [I_i|]; simpl in Hb; [| discriminate].
    destruct (get_item gamma i) as [g_i|]; simpl in Hb; [| discriminate].
    injection Hb as <-. simpl. rewrite !map_slice_length. auto.
Qed.

Lemma rand2_length (U : nat -> R) (k rows cols : nat) :
  length (rand2 U k rows cols) = rows.
Proof. unfold rand2. rewrite length_map, length_seq. reflexivity. Qed.

Lemma create_matrix_rows (U : nat -> R) (src : list nat) (J : list (list R)) (K : R)
      (s s' : System) (W : list (list R)) :
  create_matrix U src J K s = Ok (W, s') ->
  length W = np.sum (N s) /\
  s' = set_rng s (rng s + np.sum (N s) * np.sum src).
Proof.
  unfold create_matrix. cbv zeta. intros H.
  match type of H with
  | bind (for_each ?l ?b ?r0) _ = _ =>
      destruct (for_each l b r0) as [r | e] eqn:E; simpl in H; [| discriminate]
  end.
  injection H as <- <-. split; [| reflexivity].
  revert E.
  apply (for_each_preserves (fun r : list (list R) => length r = np.sum (N s))).
  - apply rand2_length.
  - intros i r0 r1 _ Hr0 Hb. simpl in Hb.
    destruct (get_item (N s) i) as [n_i|]; simpl in Hb; [| discriminate].
    destruct (float_div K n_i) as [p_i|]; simpl in Hb; [| discriminate].
    revert Hb.
    apply (for_each_preserves (fun r : list (list R) => length r = np.sum (N s))).
    + rewrite map_slice_length. exact Hr0.
    + intros j r2 r3 _ Hr2 Hb.
      destruct (get_item src j) as [n_j|]; simpl in Hb; [| discriminate].
      destruct (get_item J i) as [J_i|]; simpl in Hb; [| discriminate].
      destruct (get_item J_i j) as [J_ij|]; simpl in Hb; [| discriminate].
      injection Hb as <-. rewrite map_slice_length. exact Hr2.
Qed.

Lemma concatenate1_length (A B : list (list R)) :
  length (np.concatenate1 A B) = Nat.min (length A) (length B).
Proof.
  revert B. induction A as [|ra A IH]; intros [|rb B]; simpl; auto.
Qed.

(** The pieces [System.__init__] assembles when there is no external
    population. *)
Lemma System_init_isolated (U : nat -> R) (N0 : list nat) (J_int : list (list R))
      (I gamma : list R) (K tau0 : R) (J_ext : list (list R)) (rates0 : list R)
      (s0 : System) :
  System_init U N0 J_int I gamma K tau0 [] J_ext rates0 = Ok s0 ->
  exists Ig W_int W_ext s1 s2 s3,
    fill_I_gamma N0 I gamma = Ok Ig /\
    s1 = mkSystem N0 [] tau0 Ig 0 [] rates0 [] (rand U 0 (np.sum N0)) []
                  (np.sum N0) /\
    create_matrix U N0 J_int K s1 = Ok (W_int, s2) /\
    create_matrix U [] J_ext K s2 = Ok (W_ext, s3) /\
    s0 = set_weight_matrix s3 (np.concatenate1 W_int W_ext).
Proof.
  unfold System_init. intros H.
  destruct (fill_I_gamma N0 I gamma) as [Ig | e]; simpl in H; [| discriminate].
  unfold create_weight_matrix, create_ext_weight_matrix, create_phases in H.
  simpl in H.
  match type of H with
  | bind ?m _ = _ => destruct m as [[W_int s2] | e] eqn:E1; simpl in H; [| discriminate]
  end.
  match type of H with
  | bind ?m _ = _ => destruct m as [[W_ext s3] | e] eqn:E2; simpl in H; [| discriminate]
  end.
  injection H as <-.
  pose proof (create_matrix_rows _ _ _ _ _ _ _ E1) as (_ & Es2).
  simpl in Es2.
  assert (HNe : N_ext s2 = []) by (rewrite Es2; reflexivity).
  rewrite HNe in E2.
  exists Ig, W_int, W_ext. eexists. exists s2, s3.
  split; [reflexivity |]. split; [reflexivity |].
  split; [exact E1 |]. split; [exact E2 | reflexivity].
Qed.

Lemma System_init_isolated_shape (U : nat -> R) (N0 : list nat)
      (J_int : list (list R)) (I gamma : list R) (K tau0 : R)
      (J_ext : list (list R)) (rates0 : list R) (s0 : System) :
  System_init U N0 J_int I gamma K tau0 [] J_ext rates0 = Ok s0 ->
  0 <= tau0 ->
  shaped (np.sum N0) s0 /\ isolated s0 /\ queue_ok s0 /\ tau s0 = tau0.
Proof.
  intros H Htau.
  destruct (System_init_isolated _ _ _ _ _ _ _ _ _ _ H)
    as (Ig & W_int & W_ext & s1 & s2 & s3 & HIg & -> & E1 & E2 & ->).
  destruct (create_matrix_rows _ _ _ _ _ _ _ E1) as (Hl1 & ->).
  destruct (create_matrix_rows _ _ _ _ _ _ _ E2) as (Hl2 & ->).
  simpl in Hl1, Hl2.
  destruct (fill_I_gamma_shape _ _ _ _ HIg) as (HI0 & HI1).
  split; [| split; [reflexivity | split; [| reflexivity]]].
  - unfold shaped. simpl. unfold rand.
    rewrite length_map, length_seq, concatenate1_length. repeat split; auto. lia.
  - unfold queue_ok. simpl. split; [exact Htau |]. split; constructor.
Qed.

(** ** Construction of an excitatory network *)

Lemma connect_nonneg (p_i x : R) : 0 <= x < 1 -> 0 < p_i -> 0 <= connect p_i x.
Proof.
  intros Hx Hp. unfold connect, np.astype_int.
  destruct (Rle_dec 0 (x + (1 - p_i))) as [Hs | Hs].
  - destruct (base_Int_part (x + (1 - p_i))) as (Hlo & _).
    assert (Hlt : IZR (Int_part (x + (1 - p_i))) < IZR 2) by lra.
    apply lt_IZR in Hlt.
    assert (Hle : (Int_part (x + (1 - p_i)) <= 1)%Z) by lia.
    apply IZR_le in Hle. lra.
  - destruct (base_Int_part (- (x + (1 - p_i)))) as (_ & Hhi).
    assert (Hlt : IZR (-1) < IZR (Int_part (- (x + (1 - p_i))))) by lra.
    apply lt_IZR in Hlt.
    assert (Hle : (- Int_part (- (x + (1 - p_i))) <= 0)%Z) by lia.
    apply IZR_le in Hle. lra.
Qed.

Lemma Forall_firstn {A : Type} (P : A -> Prop) (n : nat) (l : list A) :
  Forall P l -> Forall P (firstn n l).
Proof.
  intros H. rewrite <- (firstn_skipn n l) in H. apply Forall_app in H. tauto.
Qed.

Lemma Forall_skipn {A : Type} (P : A -> Prop) (n : nat) (l : list A) :
  Forall P l -> Forall P (skipn n l).
Proof.
  intros H. rewrite <- (firstn_skipn n l) in H. apply Forall_app in H. tauto.
Qed.

Lemma map_slice_Forall {A : Type} (P : A -> Prop) (lo len : nat) (f : A -> A)
      (a : list A) :
  Forall P a -> (forall x, P x -> P (f x)) -> Forall P (np.map_slice lo len f a).
Proof.
  intros Ha Hf. unfold np.map_slice.
  apply Forall_app. split; [apply Forall_firstn; exact Ha |].
  apply Forall_app. split; [| apply Forall_skipn; exact Ha].
  apply Forall_map. eapply Forall_impl; [exact Hf |].
  apply Forall_firstn. apply Forall_skipn. exact Ha.
Qed.

Lemma fill_I_gamma_positive (N0 : list nat) (I gamma : list R)
      (Ig : list R * list R) :
  Forall (fun x => 0 < x) I -> Forall (fun x => 0 < x) gamma ->
  fill_I_gamma N0 I gamma = Ok Ig ->
  Forall (fun x => 0 < x) (fst Ig) /\ Forall (fun x => 0 < x) (snd Ig).
Proof.
  intros HI Hg. unfold fill_I_gamma.
  apply (for_each_preserves
           (fun Ig : list R * list R =>
              Forall (fun x => 0 < x) (fst Ig) /\ Forall (fun x => 0 < x) (snd Ig))).
  - unfold np.ones. simpl. split; apply Forall_forall; intros x Hx;
      apply repeat_spec in Hx; lra.
  - intros i [row0 row1] s1 _ (H0 & H1) Hb. simpl in H0, H1.
    destruct (get_item N0 i) as [n_i|]; simpl in Hb; [| discriminate].
    unfold get_item in Hb.
    destruct (nth_error I i) as [I_i|] eqn:EI; simpl in Hb; [| discriminate].
    destruct (nth_error gamma i) as [g_i|] eqn:Eg; simpl in Hb; [| discriminate].
    injection Hb as <-. simpl.
    pose proof (Forall_nth_error _ _ _ _ HI EI) as HIi.
    pose proof (Forall_nth_error _ _ _ _ Hg Eg) as Hgi. simpl in HIi, Hgi.
    split; apply map_slice_Forall; auto; intros x Hx; nra.
Qed.

Lemma for_each_seq {St : Type} (Q : nat -> St -> Prop)
      (body : nat -> St -> result St) (len : nat) :
  forall (i0 : nat) (s s' : St),
    Q i0 s ->
    (forall i s0 s1, (i0 <= i < i0 + len)%nat -> Q i s0 -> body i s0 = Ok s1 ->
                     Q (S i) s1) ->
    for_each (seq i0 len) body s = Ok s' -> Q (i0 + len)%nat s'.
Proof.
  induction len as [|len IH]; intros i0 s s' Hs Hbody H; simpl in H.
  - injection H as <-. rewrite Nat.add_0_r. exact Hs.
  - destruct (body i0 s) as [s1 | e] eqn:E; simpl in H; [| discriminate].
    replace (i0 + S len)%nat with (S i0 + len)%nat by lia.
    apply (IH (S i0) s1 s'); auto.
    + apply (Hbody i0 s s1); auto. lia.
    + intros i s2 s3 Hi. apply Hbody. lia.
Qed.

Lemma first_index_eq (sizes : list nat) (i : nat) :
  first_index sizes i = np.sum (firstn i sizes).
Proof. destruct i; reflexivity. Qed.

Lemma sum_firstn_S (sizes : list nat) (i n_i : nat) :
  nth_error sizes i = Some n_i ->
  np.sum (firstn (S i) sizes) = (np.sum (firstn i sizes) + n_i)%nat.
Proof.
  revert i. induction sizes as [|x sizes IH]; intros [|i] H; simpl in H;
    try discriminate.
  - injection H as ->. simpl. lia.
  - specialize (IH i H).
    change (np.sum (firstn (S (S i)) (x :: sizes)))
      with (x + np.sum (firstn (S i) sizes))%nat.
    change (np.sum (firstn (S i) (x :: sizes)))
      with (x + np.sum (firstn i sizes))%nat.
    lia.
Qed.

Lemma sum_firstn_le (sizes : list nat) (i : nat) :
  (np.sum (firstn i sizes) <= np.sum sizes)%nat.
Proof.
  revert i. induction sizes as [|x sizes IH]; intros [|i].
  - simpl. lia.
  - simpl. lia.
  - simpl. lia.
  - specialize (IH i).
    change (np.sum (firstn (S i) (x :: sizes)))
      with (x + np.sum (firstn i sizes))%nat.
    change (np.sum (x :: sizes)) with (x + np.sum sizes)%nat.
    lia.
Qed.

Lemma firstn_add {A : Type} (lo len : nat) (a : list A) :
  firstn (lo + len) a = firstn lo a ++ firstn len (skipn lo a).
Proof.
  revert a. induction lo as [|lo IH]; intros a; simpl; [reflexivity |].
  destruct a as [|x a]; simpl.
  - rewrite firstn_nil. reflexivity.
  - rewrite IH. reflexivity.
Qed.

Lemma map_slice_split {A : Type} (lo len : nat) (f : A -> A) (a : list A) :
  (lo + len <= length a)%nat ->
  firstn (lo + len) (np.map_slice lo len f a) =
    firstn lo a ++ map f (firstn len (skipn lo a)) /\
  skipn (lo + len) (np.map_slice lo len f a) = skipn (lo + len) a.
Proof.
  intros Hlen. unfold np.map_slice.
  set (l1 := firstn lo a). set (l2 := map f (firstn len (skipn lo a))).
  set (l3 := skipn (lo + len) a).
  assert (H1 : length l1 = lo) by (unfold l1; rewrite length_firstn; lia).
  assert (H2 : length l2 = len).
  { unfold l2. rewrite length_map, length_firstn, length_skipn. lia. }
  rewrite app_assoc.
  assert (H12 : length (l1 ++ l2) = (lo + len)%nat) by (rewrite length_app; lia).
  split.
  - rewrite firstn_app, H12, Nat.sub_diag. simpl.
    rewrite app_nil_r. apply firstn_all2. lia.
  - rewrite skipn_app, H12, Nat.sub_diag. simpl.
    rewrite skipn_all2 by lia. reflexivity.
Qed.

(** The rows of the matrix of draws are turned, one population at a time,
    into rows without negative entry. *)
Lemma create_matrix_nonneg (U : nat -> R) (src : list nat) (J : list (list R))
      (K : R) (s s' : System) (W : list (list R)) :
  (forall k, 0 <= U k < 1) -> 0 < K ->
  Forall (fun n_i => (0 < n_i)%nat) (N s) ->
  (src <> [] -> Forall (Forall (fun J_ij => 0 <= J_ij)) J) ->
  create_matrix U src J K s = Ok (W, s') ->
  Forall (Forall (fun w => 0 <= w)) W.
Proof.
  intros HU HK HN HJ. unfold create_matrix. cbv zeta. intros H.
  match type of H with
  | bind (for_each ?l ?b ?r0) _ = _ =>
      destruct (for_each l b r0) as [r | e] eqn:E; simpl in H; [| discriminate]
  end.
  injection H as <- _.
  set (nonneg_row := Forall (fun w : R => 0 <= w)).
  set (raw_row := Forall (fun w : R => 0 <= w < 1)).
  set (Q := fun (i : nat) (r : list (list R)) =>
              length r = np.sum (N s) /\
              Forall nonneg_row (firstn (np.sum (firstn i (N s))) r) /\
              Forall raw_row (skipn (np.sum (firstn i (N s))) r)).
  assert (HQ : Q (0 + length (N s))%nat r).
  { revert E. apply (for_each_seq Q).
    - unfold Q. simpl. split; [apply rand2_length |]. split; [constructor |].
      unfold rand2, rand. apply Forall_map. apply Forall_forall. intros a _.
      apply Forall_map. apply Forall_forall. intros k _. apply HU.
    - intros i r0 r1 Hi (Hlen & Hdone & Hraw) Hb. simpl in Hb.
      unfold get_item in Hb.
      destruct (nth_error (N s) i) as [n_i|] eqn:En; simpl in Hb; [| discriminate].
      rewrite first_index_eq in Hb.
      set (lo := np.sum (firstn i (N s))) in *.
      assert (Hlo : np.sum (firstn (S i) (N s)) = (lo + n_i)%nat)
        by (apply sum_firstn_S; exact En).
      assert (Hfit : (lo + n_i <= length r0)%nat).
      { rewrite Hlen, <- Hlo. apply sum_firstn_le. }
      assert (Hni : (0 < n_i)%nat) by (apply (Forall_nth_error _ _ _ _ HN En)).
      rewrite (float_div_ok K n_i Hni) in Hb. cbn [bind] in Hb.
      assert (Hp : 0 < K / INR n_i).
      { apply Rdiv_lt_0_compat; [exact HK | apply lt_0_INR; exact Hni]. }
      set (P := fun r : list (list R) =>
                  length r = np.sum (N s) /\
                  Forall nonneg_row (firstn (lo + n_i) r) /\
                  Forall raw_row (skipn (lo + n_i) r)).
      assert (HP : P r1).
      { revert Hb. apply (for_each_preserves P).
        - unfold P. rewrite map_slice_length.
          destruct (map_slice_split lo n_i (map (connect (K / INR n_i))) r0 Hfit)
            as (-> & ->).
          split; [exact Hlen |]. split.
          + apply Forall_app. split; [exact Hdone |].
            apply Forall_map. eapply Forall_impl;
              [| apply Forall_firstn; exact Hraw].
            intros row Hrow. unfold nonneg_row. apply Forall_map.
            eapply Forall_impl; [| exact Hrow].
            intros x Hx. apply connect_nonneg; assumption.
          + rewrite Nat.add_comm, <- skipn_skipn. apply Forall_skipn. exact Hraw.
        - intros j r2 r3 Hj (Hlen2 & Hdone2 & Hraw2) Hb2. cbv beta in Hb2.
          assert (HJ' : Forall (Forall (fun J_ij => 0 <= J_ij)) J).
          { apply HJ. intros ->. destruct Hj. }
          destruct (nth_error src j) as [n_j|]; simpl in Hb2; [| discriminate].
          destruct (nth_error J i) as [J_i|] eqn:EJi; simpl in Hb2; [| discriminate].
          destruct (nth_error J_i j) as [J_ij|] eqn:EJij; simpl in Hb2;
            [| discriminate].
          injection Hb2 as <-.
          assert (HJij : 0 <= J_ij).
          { pose proof (Forall_nth_error _ _ _ _ HJ' EJi) as HJi. simpl in HJi.
            apply (Forall_nth_error _ _ _ _ HJi EJij). }
          assert (Hfit2 : (lo + n_i <= length r2)%nat) by (rewrite Hlen2, <- Hlen; exact Hfit).
          unfold P. rewrite map_slice_length.
          match goal with
          | |- context [np.map_slice lo n_i ?g r2] =>
              destruct (map_slice_split lo n_i g r2 Hfit2) as (-> & ->)
          end.
          split; [exact Hlen2 |]. split; [| exact Hraw2].
          rewrite firstn_add in Hdone2. apply Forall_app in Hdone2.
          destruct Hdone2 as (Hd1 & Hd2).
          apply Forall_app. split; [exact Hd1 |].
          apply Forall_map. eapply Forall_impl; [| exact Hd2].
          intros row Hrow. unfold nonneg_row. apply map_slice_Forall; [exact Hrow |].
          intros x Hx. simpl in Hx. nra. }
      unfold Q. rewrite Hlo. exact HP. }
  destruct HQ as (Hlen & Hdone & _). simpl in Hdone.
  rewrite firstn_all in Hdone. rewrite <- Hlen in Hdone.
  rewrite firstn_all in Hdone. exact Hdone.
Qed.

Lemma concatenate1_Forall (P : R -> Prop) (A B : list (list R)) :
  Forall (Forall P) A -> Forall (Forall P) B ->
  Forall (Forall P) (np.concatenate1 A B).
Proof.
  intros HA. revert B. induction HA as [|ra A Hra HA IH]; intros B HB; simpl;
    [constructor |].
  destruct HB as [|rb B Hrb HB]; [constructor |].
  constructor; [apply Forall_app; split; assumption | apply IH; exact HB].
Qed.

(** A construction without external population, with positive in-degree,
    population sizes, I and gamma, a delay and connection strengths that are
    not negative, and draws in [0,1), starts in a well-formed excitatory
    state. *)
Lemma System_init_excitatory (U : nat -> R) (N0 : list nat) (J_int : list (list R))
      (I gamma : list R) (K tau0 : R) (J_ext : list (list R)) (rates0 : list R)
      (s0 : System) :
  (forall k, 0 <= U k < 1) -> 0 < K -> 0 <= tau0 ->
  Forall (fun n_i => (0 < n_i)%nat) N0 ->
  Forall (fun x => 0 < x) I -> Forall (fun x => 0 < x) gamma ->
  Forall (Forall (fun J_ij => 0 <= J_ij)) J_int ->
  System_init U N0 J_int I gamma K tau0 [] J_ext rates0 = Ok s0 ->
  shaped (np.sum N0) s0 /\ isolated s0 /\ queue_ok s0 /\
  excitatory s0 /\ nonneg s0.
Proof.
  intros HU HK Htau HN HI Hg HJi H.
  destruct (System_init_isolated_shape _ _ _ _ _ _ _ _ _ _ H Htau)
    as (Hsh & Hiso & Hq & _).
  split; [exact Hsh |]. split; [exact Hiso |]. split; [exact Hq |].
  destruct (System_init_isolated _ _ _ _ _ _ _ _ _ _ H)
    as (Ig & W_int & W_ext & s1 & s2 & s3 & HIg & Es1 & E1 & E2 & ->).
  destruct (fill_I_gamma_positive _ _ _ _ HI Hg HIg) as (HI0 & HI1).
  pose proof (create_matrix_rows _ _ _ _ _ _ _ E1) as (_ & Es2).
  pose proof (create_matrix_rows _ _ _ _ _ _ _ E2) as (_ & Es3).
  assert (HW1 : Forall (Forall (fun w => 0 <= w)) W_int).
  { apply (create_matrix_nonneg U N0 J_int K s1 s2 W_int); auto.
    rewrite Es1. exact HN. }
  assert (HW2 : Forall (Forall (fun w => 0 <= w)) W_ext).
  { apply (create_matrix_nonneg U [] J_ext K s2 s3 W_ext); auto.
    - rewrite Es2, Es1. exact HN.
    - intros Hne. contradiction. }
  split.
  - unfold excitatory. rewrite Es3, Es2, Es1. simpl.
    split; [apply concatenate1_Forall; assumption | split; assumption].
  - unfold nonneg. rewrite Es3, Es2, Es1. simpl. split; [| constructor].
    unfold rand. apply Forall_map. apply Forall_forall. intros k _.
    destruct (HU k). assumption.
Qed.

(** ** The one-neuron network *)

Lemma build_one_eq (J tau0 : R) : build_one J tau0 = Ok (one J tau0 0 [] (1 / 2)).
Proof.
  unfold build_one, System_init. eval_step.
  rewrite !(connect_saturated (1 / INR 1) (draws_half _))
    by (unfold draws_half; simpl; lra).
  unfold one. unfold_setters. unfold draws_half. struct_eq.
Qed.

Lemma one_drifts (U : nat -> R) (J tau0 t0 p : R) :
  0 <= p < 1 ->
  jump_to_next_event U (one J tau0 t0 [] p) =
  Ok (one J tau0 (t0 + (1 - p)) [(tau0 + t0 + (1 - p), [1])] 0).
Proof.
  intros Hp.
  rewrite (jump_self U _ p); [| reflexivity | unfold next_dt, horizon; simpl; lra].
  unfold after_self_threshold, one. simpl.
  rewrite Rmax_left by lra. rewrite Rleb_true by lra. struct_eq.
Qed.

Lemma one_fires_now (U : nat -> R) (J tau0 t0 p : R) :
  1 <= p < 500 ->
  jump_to_next_event U (one J tau0 t0 [] p) =
  Ok (one J tau0 t0 [(tau0 + t0, [1])] 0).
Proof.
  intros Hp.
  rewrite (jump_self U _ p); [| reflexivity | unfold next_dt, horizon; simpl; lra].
  unfold after_self_threshold, one. simpl.
  rewrite Rmax_right by lra. rewrite Rleb_true by lra. struct_eq.
Qed.

Lemma one_receives (U : nat -> R) (J tau0 t0 a : R) :
  0 <= a - t0 < 1 ->
  jump_to_next_event U (one J tau0 t0 [(a, [1])] 0) =
  Ok (one J tau0 a [] (h_one J (a - t0))).
Proof.
  intros Ha. unfold jump_to_next_event, next_delivery, one. eval_step.
  decide_tests. unfold delivery_branch, arrivals. eval_step.
  unfold h, h_one. eval_step.
  replace (- (1) * (0 + (a - t0))) with (- (a - t0)) by lra.
  replace (exp (- (a - t0)) - 1 / 1 * (J * 1 + 0)) with (exp (- (a - t0)) - J) by lra.
  destruct (np.Rleb (exp (- (a - t0)) - J) 0); eval_step;
    unfold sentinel; unfold_setters; struct_eq.
Qed.

Lemma h_one_saturated (J x : R) : 0 <= x -> 1 <= J -> h_one J x = 11 / 10.
Proof.
  intros Hx HJ. unfold h_one.
  pose proof (exp_nonpos_le_1 (- x)). rewrite Rleb_true by lra. reflexivity.
Qed.

(** ** C1: the phases of an excitatory network without external input *)

Lemma System_init_isolated_total (U : nat -> R) (N0 : list nat)
      (J_int : list (list R)) (I gamma : list R) (K tau0 : R)
      (J_ext : list (list R)) (rates0 : list R) :
  Forall (fun n_i => (0 < n_i)%nat) N0 ->
  covers I (length N0) -> covers gamma (length N0) ->
  covers2 J_int (length N0) (length N0) ->
  exists s0, System_init U N0 J_int I gamma K tau0 [] J_ext rates0 = Ok s0.
Proof.
  intros Hpos HI Hg HJ. unfold System_init.
  destruct (fill_I_gamma_ok N0 I gamma HI Hg) as (Ig & ->). simpl.
  unfold create_weight_matrix, create_ext_weight_matrix.
  match goal with
  | |- context [create_matrix U ?src J_int K ?s] =>
      destruct (create_matrix_ok U src J_int K s) as (W1 & s2 & -> & HN2 & HNe2);
        [exact Hpos | exact HJ |]
  end.
  simpl.
  destruct (create_matrix_ok U (N_ext s2) J_ext K s2) as (W2 & s3 & -> & _).
  { rewrite HN2. exact Hpos. }
  { rewrite HNe2. simpl. intros i j _ Hj. lia. }
  simpl. eexists. reflexivity.
Qed.

Lemma calm_step (U : nat -> R) (n : nat) (s : System) :
  (0 < n)%nat -> calm n s ->
  exists s', jump_to_next_event U s = Ok s' /\ calm n s' /\ t s <= t s'.
Proof.
  intros Hn (Hsh & Hiso & Hq & Hex & Hnn).
  destruct (jump_isolated_ok U n s Hn Hsh Hiso (proj1 Hnn)) as (s' & Hj).
  exists s'. split; [exact Hj |].
  destruct (jump_isolated U s s' Hiso Hj) as (mx & Hmx & Hsame & Hstep).
  destruct (isolated_step_preserves n s s' mx Hstep Hsame Hsh Hiso Hq)
    as (Hsh' & Hiso' & Hq' & Hmono).
  destruct (isolated_step_nonneg s s' mx Hstep Hsame Hq Hex Hnn) as (Hex' & Hnn').
  unfold calm. auto 10.
Qed.

Lemma calm_steps (U : nat -> R) (n : nat) (k : nat) :
  (0 < n)%nat -> forall s, calm n s ->
  exists sk, steps U k s = Ok sk /\ calm n sk /\ t s <= t sk.
Proof.
  intros Hn. induction k as [|k IH]; intros s Hs; simpl.
  - exists s. split; [reflexivity | split; [exact Hs | lra]].
  - destruct (calm_step U n s Hn Hs) as (s' & -> & Hs' & Ht). simpl.
    destruct (IH s' Hs') as (sk & Hk & Hsk & Htk).
    exists sk. split; [exact Hk | split; [exact Hsk | lra]].
Qed.

Lemma sum_positive (sizes : list nat) :
  sizes <> [] -> Forall (fun n_i => (0 < n_i)%nat) sizes -> (0 < np.sum sizes)%nat.
Proof.
  destruct sizes as [|x sizes]; [contradiction |].
  intros _ H. pose proof (Forall_inv H) as Hx. simpl in *. lia.
Qed.

(** C1, as the code has it.  For a network without external population,
    with draws in [0,1), positive in-degree, population sizes, I and gamma,
    and delay and connection strengths that are not negative, the
    construction succeeds, every number of steps can be taken, and after
    them no phase is negative.  No upper bound holds. *)
Theorem phases_never_negative (U : nat -> R) (N0 : list nat)
        (J_int : list (list R)) (I gamma : list R) (K tau0 : R)
        (J_ext : list (list R)) (rates0 : list R) (k : nat) :
  (forall i, 0 <= U i < 1) -> 0 < K -> 0 <= tau0 ->
  N0 <> [] -> Forall (fun n_i => (0 < n_i)%nat) N0 ->
  covers I (length N0) -> Forall (fun x => 0 < x) I ->
  covers gamma (length N0) -> Forall (fun x => 0 < x) gamma ->
  covers2 J_int (length N0) (length N0) ->
  Forall (Forall (fun J_ij => 0 <= J_ij)) J_int ->
  exists s0 sk,
    System_init U N0 J_int I gamma K tau0 [] J_ext rates0 = Ok s0 /\
    steps U k s0 = Ok sk /\
    Forall (fun p => 0 <= p) (phases sk).
Proof.
  intros HU HK Htau HN0 HN HcI HI Hcg Hg HcJ HJ.
  destruct (System_init_isolated_total U N0 J_int I gamma K tau0 J_ext rates0)
    as (s0 & Hs0); auto.
  assert (Hcalm : calm (np.sum N0) s0).
  { unfold calm.
    apply (System_init_excitatory U N0 J_int I gamma K tau0 J_ext rates0 s0);
      assumption. }
  destruct (calm_steps U (np.sum N0) k (sum_positive N0 HN0 HN) s0 Hcalm)
    as (sk & Hk & Hsk & _).
  exists s0, sk. split; [exact Hs0 |]. split; [exact Hk |].
  destruct Hsk as (_ & _ & _ & _ & Hp & _). exact Hp.
Qed.

Lemma phases_never_negative_witness :
  exists s0 sk,
    System_init draws_half [1%nat] [[2]] [1] [1] 1 (1 / 20) [] [] [] = Ok s0 /\
    steps draws_half 3 s0 = Ok sk /\
    Forall (fun p => 0 <= p) (phases sk).
Proof.
  apply (phases_never_negative draws_half [1%nat] [[2]] [1] [1] 1 (1 / 20) [] [] 3).
  - intros i. unfold draws_half. lra.
  - lra.
  - lra.
  - discriminate.
  - repeat constructor.
  - unfold covers. simpl. lia.
  - repeat constructor. lra.
  - unfold covers. simpl. lia.
  - repeat constructor. lra.
  - intros i j Hi Hj. simpl in Hi, Hj.
    assert (i = 0%nat) by lia. assert (j = 0%nat) by lia. subst.
    exists [2], 2. split; reflexivity.
  - repeat constructor. lra.
Defined.

(** C1 fails on the code.  With a self-connection of strength -1 the phase
    after the second step is [-ln(exp(-1/20) + 1) < 0]; with the positive
    strength [exp(-1/20) - exp(-2)] it is 2, above 1.1. *)
Lemma phases_leave_the_interval :
  (exists s0 s2 p,
      build_one (-1) (1 / 20) = Ok s0 /\
      steps draws_half 2 s0 = Ok s2 /\
      phases s2 = [p] /\ p < 0) /\
  (exists s0 s2 p,
      build_one (exp (- (1 / 20)) - exp (- 2)) (1 / 20) = Ok s0 /\
      steps draws_half 2 s0 = Ok s2 /\
      phases s2 = [p] /\ 11 / 10 < p).
Proof.
  split.
  - eexists. eexists. eexists.
    split; [apply build_one_eq |]. split.
    + simpl. rewrite one_drifts by lra. simpl.
      rewrite one_receives by lra. simpl. reflexivity.
    + split; [reflexivity |].
      replace (1 / 20 + 0 + (1 - 1 / 2) - (0 + (1 - 1 / 2))) with (1 / 20) by lra.
      unfold h_one. pose proof (exp_pos (- (1 / 20))) as He.
      rewrite Rleb_false by lra.
      assert (0 < ln (exp (- (1 / 20)) - -1)); [| lra].
      rewrite <- ln_1. apply ln_increasing; lra.
  - eexists. eexists. eexists.
    split; [apply build_one_eq |]. split.
    + simpl. rewrite one_drifts by lra. simpl.
      rewrite one_receives by lra. simpl. reflexivity.
    + split; [reflexivity |].
      replace (1 / 20 + 0 + (1 - 1 / 2) - (0 + (1 - 1 / 2))) with (1 / 20) by lra.
      unfold h_one. pose proof (exp_pos (- 2)) as He.
      replace (exp (- (1 / 20)) - (exp (- (1 / 20)) - exp (- 2))) with (exp (- 2))
        by lra.
      rewrite Rleb_false by lra. rewrite ln_exp. lra.
Qed.

(** ** C4: termination of [run] *)

Lemma calm_returns (U : nat -> R) (n : nat) (t_end : R) (s : System) :
  (0 < n)%nat -> calm n s -> 0 < tau s ->
  exists fuel s', run U fuel s t_end = Returns s' /\ t_end <= t s'.
Proof.
  intros Hn Hs Htau.
  assert (Hfin : finishes U s t_end).
  { destruct Hs as (Hsh & Hiso & Hq & _). eapply finishes_isolated; eauto. }
  destruct Hfin as (fuel & [(s' & Hr & Ht) | (e & Hr)]); [eauto |].
  exfalso. revert s Hs Htau Hr. induction fuel as [|fuel IH]; intros s Hs Htau Hr.
  - simpl in Hr. destruct (np.Rltb (t s) t_end); discriminate.
  - simpl in Hr. destruct (np.Rltb (t s) t_end); [| discriminate].
    destruct (calm_step U n s Hn Hs) as (s' & Hj & Hs' & _).
    rewrite Hj in Hr.
    assert (Htau' : 0 < tau s').
    { destruct (jump_isolated U s s' (proj1 (proj2 Hs)) Hj)
        as (mx & _ & (_ & _ & E & _) & _). rewrite E. exact Htau. }
    exact (IH s' Hs' Htau' Hr).
Qed.

(** Termination in exact arithmetic.  With the sums of this embedding, which
    are exact, a positive delay is never lost in [tau + t + dt]: a
    construction without external population and with a positive delay then
    ends every [run(t_end)], by a return with the clock at or past [t_end]
    or by an exception, and an excitatory network (draws in [0,1), positive
    in-degree, sizes, I and gamma, no negative strength) returns.  The
    float64 sum [tau + t + dt] can equal [t + dt] for a small delay, which
    then acts like the delay 0 of [run_never_returns_without_delay]: this is
    a statement about exact sums only. *)
Lemma run_terminates_in_exact_arithmetic (U : nat -> R) (N0 : list nat)
      (J_int : list (list R)) (I gamma : list R) (K tau0 : R)
      (J_ext : list (list R)) (rates0 : list R) (s0 : System) (t_end : R) :
  System_init U N0 J_int I gamma K tau0 [] J_ext rates0 = Ok s0 ->
  0 < tau0 ->
  (exists fuel,
      (exists s', run U fuel s0 t_end = Returns s' /\ t_end <= t s') \/
      (exists e, run U fuel s0 t_end = Raises e)) /\
  ((forall i, 0 <= U i < 1) -> 0 < K ->
   N0 <> [] -> Forall (fun n_i => (0 < n_i)%nat) N0 ->
   Forall (fun x => 0 < x) I -> Forall (fun x => 0 < x) gamma ->
   Forall (Forall (fun J_ij => 0 <= J_ij)) J_int ->
   exists fuel s', run U fuel s0 t_end = Returns s' /\ t_end <= t s').
Proof.
  intros Hs0 Htau.
  destruct (System_init_isolated_shape _ _ _ _ _ _ _ _ _ _ Hs0 (Rlt_le _ _ Htau))
    as (Hsh & Hiso & Hq & Htau0).
  split.
  - apply (finishes_isolated U (np.sum N0)); auto. rewrite Htau0. exact Htau.
  - intros HU HK HN0 HN HI Hg HJ.
    apply (calm_returns U (np.sum N0)).
    + apply sum_positive; assumption.
    + unfold calm.
      apply (System_init_excitatory U N0 J_int I gamma K tau0 J_ext rates0 s0);
        try assumption. lra.
    + rewrite Htau0. exact Htau.
Qed.

(** C4 fails on the code.  With delay 0 and a self-connection of strength 2
    the neuron fires at 1/2, receives its own spike at once, is set to 1.1,
    fires again at once, and so on: the clock stays at 1/2 and [run(1)]
    never returns. *)
Lemma run_never_returns_without_delay :
  exists s0,
    build_one 2 0 = Ok s0 /\
    forall fuel, run draws_half fuel s0 1 = Unfinished.
Proof.
  exists (one 2 0 0 [] (1 / 2)). split; [apply build_one_eq |].
  assert (Hloop : forall fuel t0 a p,
             t0 = 1 / 2 -> a = 1 / 2 -> p = 11 / 10 ->
             run draws_half fuel (one 2 0 t0 [(a, [1])] 0) 1 = Unfinished /\
             run draws_half fuel (one 2 0 t0 [] p) 1 = Unfinished).
  { induction fuel as [|fuel IH]; intros t0 a p Ht Ha Hp.
    - simpl. rewrite Rltb_true by lra. auto.
    - split.
      + simpl. rewrite Rltb_true by lra.
        rewrite one_receives by lra.
        apply (IH a a (h_one 2 (a - t0))); [lra | lra |].
        apply h_one_saturated; lra.
      + simpl. rewrite Rltb_true by lra.
        rewrite one_fires_now by lra.
        apply (IH t0 (0 + t0) p); lra. }
  intros [|fuel].
  - simpl. rewrite Rltb_true by lra. reflexivity.
  - simpl. rewrite Rltb_true by lra. rewrite one_drifts by lra.
    apply (Hloop fuel _ _ (11 / 10)); lra.
Qed.

(** ** The output buffers *)

Lemma read_back_S (kind : nat -> file) (n0 c : nat) (d : folder) :
  read_back kind n0 (S c) d =
  read_back kind n0 c d ++
  match d (kind (n0 + c)%nat) with Some a => a | None => [] end.
Proof.
  unfold read_back. rewrite seq_S, flat_map_app. simpl.
  rewrite app_nil_r. reflexivity.
Qed.

Lemma read_back_save (kind : nat -> file) (n0 c : nat) (f : file)
      (a : list (list R)) (d : folder) :
  (forall n, (n0 <= n < n0 + c)%nat -> file_eqb (kind n) f = false) ->
  read_back kind n0 c (np_save f a d) = read_back kind n0 c d.
Proof.
  induction c as [|c IH]; intros Hf; [reflexivity |].
  rewrite !read_back_S. rewrite IH by (intros n Hn; apply Hf; lia).
  unfold np_save at 1. rewrite Hf by lia. reflexivity.
Qed.

Lemma firstn_set_at_below {A : Type} (k j : nat) (x : A) (a : list A) :
  (k <= j)%nat -> firstn k (np.set_at j x a) = firstn k a.
Proof.
  revert k j. induction a as [|y a IH]; intros [|k] [|j] H; simpl; auto; try lia.
  f_equal. apply IH. lia.
Qed.

Lemma firstn_set_at_next {A : Type} (j : nat) (x : A) (a : list A) :
  (j < length a)%nat -> firstn (S j) (np.set_at j x a) = firstn j a ++ [x].
Proof.
  revert j. induction a as [|y a IH]; intros [|j] H; simpl in *; try lia.
  - reflexivity.
  - f_equal. apply IH. lia.
Qed.

Lemma zeros2_length (rows cols : nat) : length (zeros2 rows cols) = rows.
Proof. unfold zeros2. apply repeat_length. Qed.

Lemma set_row_ok (k : nat) (row : list R) (M : list (list R)) :
  (k < length M)%nat -> set_row k row M = Ok (np.set_at k row M).
Proof.
  intros H. unfold set_row. apply Nat.ltb_lt in H. rewrite H. reflexivity.
Qed.

(** The part of the loop body that follows the step records one phase row,
    at most one spike row, and keeps the buffers in order. *)
Lemma record_buffered (cap n0 : nat) (accP accS : list (list R)) (lt : R)
      (nf : nat) (b : buffers) (d : folder) (s : System) :
  buffered cap n0 accP accS lt nf b d ->
  exists nf' b' d',
    record cap (mkWithOutput s nf) b d = Ok (mkWithOutput s nf', b', d') /\
    buffered cap n0 (accP ++ [phase_row s]) (accS ++ fst (spike_step lt s))
             (snd (spike_step lt s)) nf' b' d'.
Proof.
  intros (Hi & Hout & Hsp & Hisp & Hn0 & Hlt & HP & HS).
  destruct b as [out sp i0 isp l]. simpl in *. subst l.
  (* the spike table *)
  assert (Hspike : exists sp' isp',
             (match last_event (events s) with
              | None => Ok (mkBuffers out sp i0 isp lt)
              | Some ev =>
                  if np.Rltb lt (fst ev) then
                    sp1 <- set_row isp ((fst ev - tau s) :: snd ev) sp ;;
                    Ok (mkBuffers out sp1 i0 (S isp) (fst ev))
                  else Ok (mkBuffers out sp i0 isp lt)
              end) = Ok (mkBuffers out sp' i0 isp' (snd (spike_step lt s))) /\
             length sp' = cap /\ (isp' <= S i0)%nat /\
             firstn isp' sp' = firstn isp sp ++ fst (spike_step lt s)).
  { unfold spike_step. destruct (last_event (events s)) as [ev|].
    - destruct (np.Rltb lt (fst ev)).
      + rewrite set_row_ok by lia. simpl.
        exists (np.set_at isp ((fst ev - tau s) :: snd ev) sp), (S isp).
        split; [reflexivity |]. rewrite set_at_length.
        split; [exact Hsp |]. split; [lia |].
        apply firstn_set_at_next. lia.
      + exists sp, isp. simpl. rewrite app_nil_r. repeat split; auto.
    - exists sp, isp. simpl. rewrite app_nil_r. repeat split; auto. }
  destruct Hspike as (sp' & isp' & Hrec & Hsp' & Hisp' & Hrows).
  unfold record.
  cbn [system n_files outputs spikes i i_spike last_t].
  rewrite Hrec. cbn [bind outputs spikes i i_spike last_t].
  rewrite set_row_ok by lia. cbn [bind outputs spikes i i_spike last_t].
  destruct (Nat.eqb_spec (S i0) cap) as [Hfull | Hroom].
  - (* the phase table is full: both tables are saved *)
    eexists. eexists. eexists. split; [reflexivity |].
    unfold buffered. cbn [outputs spikes i i_spike last_t firstn].
    rewrite !zeros2_length.
    split; [lia |]. split; [reflexivity |]. split; [reflexivity |].
    split; [lia |]. split; [lia |]. split; [reflexivity |].
    replace (S nf - n0)%nat with (S (nf - n0)) by lia.
    rewrite !read_back_S. replace (n0 + (nf - n0))%nat with nf by lia.
    rewrite !read_back_save
      by (intros n Hn; simpl; try reflexivity; apply Nat.eqb_neq; lia).
    unfold np_save. cbn [file_eqb]. rewrite Nat.eqb_refl. rewrite !app_nil_r.
    split.
    + rewrite <- HP, <- app_assoc. f_equal.
      rewrite <- (firstn_all (np.set_at i0 (t s :: phases s) out)).
      rewrite set_at_length, Hout, <- Hfull.
      apply firstn_set_at_next. lia.
    + rewrite <- HS, <- app_assoc. f_equal. exact Hrows.
  - eexists. eexists. eexists. split; [reflexivity |].
    unfold buffered. cbn [outputs spikes i i_spike last_t].
    rewrite set_at_length.
    split; [lia |]. split; [exact Hout |]. split; [exact Hsp' |].
    split; [lia |]. split; [lia |]. split; [reflexivity |].
    split.
    + rewrite <- HP, <- app_assoc. f_equal. apply firstn_set_at_next. lia.
    + rewrite <- HS, <- app_assoc. f_equal. exact Hrows.
Qed.

Lemma last_shift {A : Type} (l : list A) :
  forall x y : A, last (y :: l) x = last l y.
Proof.
  induction l as [|z l IH]; intros x y; [reflexivity |].
  change (last (y :: z :: l) x) with (last (z :: l) x).
  rewrite (IH x z), (IH y z). reflexivity.
Qed.

Lemma output_loop_spec (U : nat -> R) (cap n0 : nat) (t_end : R) (tr : list System) :
  forall (fuel : nat) (s : System) (nf : nat) (b : buffers) (d : folder)
         (accP accS : list (list R)) (lt : R),
    loop_trace U t_end s tr -> (length tr <= fuel)%nat ->
    buffered cap n0 accP accS lt nf b d ->
    exists nf' b' d' lt',
      output_loop U fuel cap t_end (mkWithOutput s nf) b d =
        Returns (mkWithOutput (last tr s) nf', b', d') /\
      buffered cap n0 (accP ++ map phase_row tr) (accS ++ spike_rows lt tr) lt'
               nf' b' d'.
Proof.
  induction tr as [|s' tr IH]; intros fuel s nf b d accP accS lt Htr Hfuel Hb.
  - simpl in Htr. exists nf, b, d, lt.
    destruct fuel; simpl; rewrite Rltb_false by exact Htr;
      rewrite !app_nil_r; auto.
  - destruct Htr as (Hlt & Hj & Htr).
    destruct fuel as [|fuel]; [simpl in Hfuel; lia |].
    simpl in Hfuel. cbn [output_loop system n_files].
    rewrite Rltb_true by exact Hlt.
    rewrite Hj. cbn [bind system n_files].
    destruct (record_buffered cap n0 accP accS lt nf b d s' Hb)
      as (nf1 & b1 & d1 & Hrec & Hb1).
    rewrite Hrec.
    destruct (IH fuel s' nf1 b1 d1 _ _ _ Htr ltac:(lia) Hb1)
      as (nf' & b' & d' & lt' & Hloop & Hb').
    exists nf', b', d', lt'. split.
    + rewrite Hloop. rewrite last_shift. reflexivity.
    + cbn [map spike_rows]. rewrite <- !app_assoc in Hb'. exact Hb'.
Qed.

(** A run that takes the steps [tr] returns, and the phase and the spike
    artifacts read back in numeric order are the rows recorded after every
    step. *)
Lemma WithOutput_run_spec (U : nat -> R) (OUTPUT_MEMORY : R) (w : WithOutput)
      (t_end : R) (d : folder) (tr : list System) (fuel : nat) :
  (0 < output_size_of OUTPUT_MEMORY (system w))%Z ->
  loop_trace U t_end (system w) tr -> (length tr <= fuel)%nat ->
  exists d' c,
    WithOutput_run U OUTPUT_MEMORY fuel w t_end d =
      Returns (mkWithOutput (last tr (system w)) (n_files w + c), d') /\
    read_back phases_npy (n_files w) c d' = map phase_row tr /\
    read_back spikes_npy (n_files w) c d' = spike_rows 0 tr.
Proof.
  intros Hcap Htr Hfuel. unfold WithOutput_run.
  destruct (Z.ltb_spec (output_size_of OUTPUT_MEMORY (system w)) 0) as [Hneg | _];
    [lia |].
  set (cap := Z.to_nat (output_size_of OUTPUT_MEMORY (system w))).
  set (cols := (np.sum (N (system w)) + 1)%nat).
  assert (Hb0 : buffered cap (n_files w) [] [] 0 (n_files w)
                  (mkBuffers (zeros2 cap cols) (zeros2 cap cols) 0 0 0) d).
  { unfold buffered. simpl. rewrite zeros2_length, Nat.sub_diag.
    unfold cap. repeat split; auto; lia. }
  destruct w as [s nf]. simpl in *.
  destruct (output_loop_spec U cap nf t_end tr fuel s nf _ d [] [] 0 Htr Hfuel Hb0)
    as (nf' & b' & d' & lt' & Hloop & Hb').
  rewrite Hloop.
  destruct Hb' as (Hi & Hout & Hsp & Hisp & Hn0 & Hlt & HP & HS).
  simpl in HP, HS.
  eexists. exists (S nf' - nf)%nat. split; [| split].
  - replace (nf + (S nf' - nf))%nat with (S nf') by lia. reflexivity.
  - replace (S nf' - nf)%nat with (S (nf' - nf)) by lia.
    rewrite read_back_S. replace (nf + (nf' - nf))%nat with nf' by lia.
    rewrite !read_back_save
      by (intros n Hn; simpl; try reflexivity; apply Nat.eqb_neq; lia).
    unfold np_save. cbn [file_eqb]. rewrite Nat.eqb_refl. exact HP.
  - replace (S nf' - nf)%nat with (S (nf' - nf)) by lia.
    rewrite read_back_S. replace (nf + (nf' - nf))%nat with nf' by lia.
    rewrite !read_back_save
      by (intros n Hn; simpl; try reflexivity; apply Nat.eqb_neq; lia).
    unfold np_save. cbn [file_eqb]. rewrite Nat.eqb_refl. exact HS.
Qed.

(** ** The pending deliveries hold indicator vectors *)

Lemma external_spikes_events (U : nat -> R) (default : option nat) (indices : list nat) :
  forall (s s' : System) (v v' : list R),
    external_spikes U default indices s v = Ok (v', s') -> events s' = events s.
Proof.
  induction indices as [|index rest IH]; intros s s' v v' H; simpl in H.
  - injection H as _ <-. reflexivity.
  - match type of H with
    | bind ?m _ = _ => destruct m as [rate | e]; simpl in H; [| discriminate]
    end.
    unfold get_InterSpikeInterval in H.
    destruct (np.Reqb rate 0); simpl in H; [discriminate |].
    apply IH in H. exact H.
Qed.

Lemma arrivals_events (U : nat -> R) (P : R * list R -> Prop) (default3 : option nat)
      (location : nat) (dt : R) (s s' : System) (sv : list R) :
  arrivals U default3 location dt s = Ok (sv, s') ->
  Forall P (events s) -> Forall P (events s').
Proof.
  intros H HP. unfold arrivals in H.
  destruct location as [|[|[|[|location]]]]; try discriminate.
  - unfold pop_event in H. destruct (events s) as [|ev rest] eqn:E; simpl in H;
      [discriminate |].
    injection H as _ <-. simpl. exact (Forall_inv_tail HP).
  - match type of H with
    | bind ?m _ = _ => destruct m as [[v s1] | e] eqn:E; simpl in H; [| discriminate]
    end.
    injection H as _ <-. apply external_spikes_events in E. rewrite E. exact HP.
  - match type of H with
    | bind ?m _ = _ => destruct m as [[v s1] | e] eqn:E; simpl in H; [| discriminate]
    end.
    apply external_spikes_events in E.
    unfold pop_event in H. destruct (events s1) as [|ev rest] eqn:E1; simpl in H;
      [discriminate |].
    injection H as _ <-. simpl. rewrite <- E in HP.
    exact (Forall_inv_tail HP).
Qed.

Lemma fire_binary (s : System) (dt : R) :
  Forall (fun ev => binary (snd ev)) (events s) ->
  Forall (fun ev => binary (snd ev)) (events (fire s dt)).
Proof.
  intros H. rewrite fire_eq. simpl. apply Forall_app. split; [exact H |].
  constructor; [| constructor]. simpl. unfold binary. apply Forall_map.
  apply Forall_forall. intros p _. destruct (np.Rleb 1 (p + dt)); auto.
Qed.

(** Every step keeps the queue a queue of indicator vectors. *)
Lemma jump_binary (U : nat -> R) (s s' : System) :
  jump_to_next_event U s = Ok s' ->
  Forall (fun ev => binary (snd ev)) (events s) ->
  Forall (fun ev => binary (snd ev)) (events s').
Proof.
  intros H HP. unfold jump_to_next_event in H.
  destruct (next_delivery s) as [[dt location] | e]; simpl in H; [| discriminate].
  destruct (np.max (phases s)) as [mx | e]; simpl in H; [| discriminate].
  destruct (np.Rltb (1 - mx) dt).
  - injection H as <-. unfold self_threshold_branch. simpl.
    apply (fire_binary s). exact HP.
  - destruct (np.Reqb (1 - mx) dt).
    + unfold tie_branch in H.
      match type of H with
      | bind ?m _ = _ => destruct m as [[sv s1] | e] eqn:E; simpl in H; [| discriminate]
      end.
      match type of H with
      | bind ?m _ = _ => destruct m as [ph | e]; simpl in H; [| discriminate]
      end.
      injection H as <-. simpl.
      eapply arrivals_events; [exact E |]. apply fire_binary. exact HP.
    + unfold delivery_branch in H.
      match type of H with
      | bind ?m _ = _ => destruct m as [[sv s1] | e] eqn:E; simpl in H; [| discriminate]
      end.
      injection H as <-. simpl.
      eapply arrivals_events; [exact E |]. simpl. exact HP.
Qed.

Lemma loop_trace_binary (U : nat -> R) (t_end : R) (tr : list System) :
  forall s, loop_trace U t_end s tr ->
            Forall (fun ev => binary (snd ev)) (events s) ->
            Forall (fun x => Forall (fun ev => binary (snd ev)) (events x)) tr.
Proof.
  induction tr as [|s' tr IH]; intros s Htr Hs; [constructor |].
  destruct Htr as (_ & Hj & Htr).
  pose proof (jump_binary U s s' Hj Hs) as Hs'.
  constructor; [exact Hs' | apply (IH s' Htr Hs')].
Qed.

Lemma last_In {A : Type} (l : list A) : forall x : A, In (last l x) (x :: l).
Proof.
  induction l as [|y l IH]; intros x; [left; reflexivity |].
  rewrite last_shift. right. apply IH.
Qed.

Lemma last_event_In (ev : list (R * list R)) (e : R * list R) :
  last_event ev = Some e -> In e ev.
Proof.
  destruct ev as [|x ev]; simpl; [discriminate |].
  intros H. injection H as <-. apply last_In.
Qed.

Lemma spike_rows_origin (tr : list System) :
  forall (lt : R) (row : list R),
    In row (spike_rows lt tr) ->
    exists s ev, In s tr /\ last_event (events s) = Some ev /\
                 row = (fst ev - tau s) :: snd ev.
Proof.
  induction tr as [|s tr IH]; intros lt row Hin; simpl in Hin; [destruct Hin |].
  apply in_app_or in Hin. destruct Hin as [Hin | Hin].
  - unfold spike_step in Hin.
    destruct (last_event (events s)) as [ev|] eqn:E; [| destruct Hin].
    destruct (np.Rltb lt (fst ev)); [| destruct Hin].
    destruct Hin as [<- | []]. exists s, ev. split; [left; reflexivity | auto].
  - destruct (IH _ _ Hin) as (s1 & ev & Hs1 & Hev & Hrow).
    exists s1, ev. split; [right; exact Hs1 | auto].
Qed.


(** ** C6: the phase artifacts of a run *)


(** *** The recorded run of the one-neuron network *)

Lemma recorded_run_trace :
  loop_trace draws_half (3 / 5) (one 2 (1 / 20) 0 [] (1 / 2)) recorded_run.
Proof.
  unfold recorded_run. simpl.
  split; [lra |]. split.
  { rewrite one_drifts by lra. f_equal. unfold one. struct_eq. }
  split; [lra |]. split.
  { rewrite one_receives by lra. rewrite h_one_saturated by lra. reflexivity. }
  split; [lra |]. split.
  { rewrite one_fires_now by lra. f_equal. unfold one. struct_eq. }
  split; [lra |]. split.
  { rewrite one_receives by lra. rewrite h_one_saturated by lra. reflexivity. }
  lra.
Qed.

Lemma output_size_32 (J tau0 t0 p : R) (ev : list (R * list R)) :
  output_size_of 32 (one J tau0 t0 ev p) = 2%Z.
Proof.
  unfold output_size_of, one. simpl.
  apply astype_int_nonneg; lra.
Qed.



(** C5 fails on the code.  In the recorded run the first row of the spike
    artifacts holds the time 1/2, at which the neuron fired; the delivery it
    was taken from arrives at 11/20, and no delivery of the run arrives at
    1/2.  The row is recorded after the first step, which appends the
    delivery; the delivery is taken from the queue by the second step. *)
Lemma spike_row_holds_emission_time :
  exists w' d' c row rest,
    WithOutput_run draws_half 32 4 (mkWithOutput (one 2 (1 / 20) 0 [] (1 / 2)) 0)
                   (3 / 5) empty_folder = Returns (w', d') /\
    read_back spikes_npy 0 c d' = row :: rest /\
    hd 0 row = 1 / 2 /\
    (forall s ev, In s (one 2 (1 / 20) 0 [] (1 / 2) :: recorded_run) ->
                  In ev (events s) -> fst ev <> hd 0 row) /\
    spike_rows 0 (firstn 1 recorded_run) = [row].
Proof.
  destruct (WithOutput_run_spec draws_half 32
              (mkWithOutput (one 2 (1 / 20) 0 [] (1 / 2)) 0) (3 / 5) empty_folder
              recorded_run 4) as (d' & c & Hrun & _ & HS).
  - simpl. rewrite output_size_32. lia.
  - apply recorded_run_trace.
  - simpl. lia.
  - assert (Hrows : spike_rows 0 recorded_run =
                    [[11 / 20 - 1 / 20; 1]; [3 / 5 - 1 / 20; 1]]).
    { unfold recorded_run, spike_rows, spike_step. simpl.
      decide_tests. simpl. decide_tests. reflexivity. }
    eexists. exists d', c, [11 / 20 - 1 / 20; 1], [[3 / 5 - 1 / 20; 1]].
    cbn [n_files system] in HS.
    split; [exact Hrun |]. split; [rewrite HS; exact Hrows |].
    split; [simpl; lra |]. split.
    + intros s ev Hs Hev. simpl in Hs.
      destruct Hs as [<- | [<- | [<- | [<- | [<- | []]]]]]; simpl in Hev;
        try contradiction; destruct Hev as [<- | []]; simpl; lra.
    + unfold recorded_run, spike_rows, spike_step. simpl.
      decide_tests. reflexivity.
Qed.

(** ** Further properties of the phase-update law *)

Lemma ln_monotone (x y : R) : 0 < x -> x <= y -> ln x <= ln y.
Proof.
  intros Hx [Hlt | Heq].
  - left. apply ln_increasing; assumption.
  - subst. right. reflexivity.
Qed.

(** X1. Two potential jumps applied one after the other, with no time in
    between, act like one jump by their sum, provided the first one saturates
    no neuron: [h] after [h] is [h] of the summed jumps (a saturation by the
    second jump included). *)
Theorem h_adds_jumps (s : System) (eps1 eps2 : list R) :
  length (fst (I_gamma s)) = length (phases s) ->
  length (snd (I_gamma s)) = length (phases s) ->
  length eps1 = length (phases s) ->
  length eps2 = length (phases s) ->
  Forall (fun gamma_k => gamma_k <> 0) (snd (I_gamma s)) ->
  (forall k I_k gamma_k phase_k e_k,
      nth_error (fst (I_gamma s)) k = Some I_k ->
      nth_error (snd (I_gamma s)) k = Some gamma_k ->
      nth_error (phases s) k = Some phase_k ->
      nth_error eps1 k = Some e_k ->
      0 < log_arg_of I_k gamma_k phase_k e_k) ->
  h (set_phases s (h s eps1)) eps2 = h s (np.zip_with Rplus eps1 eps2).
Proof.
  intros HlI Hlg Hl1 Hl2 Hg Hpos.
  apply nth_error_ext. intros k.
  destruct (nth_error (phases s) k) as [phase_k|] eqn:Hp.
  - assert (Hk : (k < length (phases s))%nat) by (eapply nth_error_lt; eauto).
    destruct (nth_error (fst (I_gamma s)) k) as [I_k|] eqn:EI;
      [| apply nth_error_None in EI; lia].
    destruct (nth_error (snd (I_gamma s)) k) as [gamma_k|] eqn:Eg;
      [| apply nth_error_None in Eg; lia].
    destruct (nth_error eps1 k) as [e1|] eqn:E1;
      [| apply nth_error_None in E1; lia].
    destruct (nth_error eps2 k) as [e2|] eqn:E2;
      [| apply nth_error_None in E2; lia].
    assert (Hgk : gamma_k <> 0).
    { rewrite Forall_forall in Hg. apply Hg. eapply nth_error_In; eauto. }
    pose proof (Hpos k _ _ _ _ EI Eg Hp E1) as HL1.
    pose proof (h_pointwise s eps1 k _ _ _ _ EI Eg Hp E1) as Hin.
    rewrite Rleb_false in Hin by exact HL1.
    assert (E12 : nth_error (np.zip_with Rplus eps1 eps2) k = Some (e1 + e2)).
    { rewrite nth_error_zip_with, E1, E2. reflexivity. }
    rewrite (h_pointwise s _ k _ _ _ _ EI Eg Hp E12).
    rewrite (h_pointwise (set_phases s (h s eps1)) eps2 k I_k gamma_k _ e2
               EI Eg Hin E2).
    assert (Hla : log_arg_of I_k gamma_k
                    (-1 / gamma_k * ln (log_arg_of I_k gamma_k phase_k e1)) e2
                  = log_arg_of I_k gamma_k phase_k (e1 + e2)).
    { unfold log_arg_of at 1.
      replace (- gamma_k * (-1 / gamma_k * ln (log_arg_of I_k gamma_k phase_k e1)))
        with (ln (log_arg_of I_k gamma_k phase_k e1)) by (field; exact Hgk).
      rewrite exp_ln by exact HL1.
      unfold log_arg_of, Rdiv. ring. }
    rewrite Hla. reflexivity.
  - assert (Hk : (length (phases s) <= k)%nat) by (apply nth_error_None; exact Hp).
    transitivity (@None R).
    + apply nth_error_None. rewrite h_length. simpl. lia.
    + symmetry. apply nth_error_None. rewrite h_length. lia.
Qed.

Lemma h_adds_jumps_witness :
  h (set_phases (mkSystem [1%nat] [] 0 ([1], [1]) 0 [] [] [] [0] [[0]] 0)
       (h (mkSystem [1%nat] [] 0 ([1], [1]) 0 [] [] [] [0] [[0]] 0) [1 / 4]))
    [1 / 4]
  = h (mkSystem [1%nat] [] 0 ([1], [1]) 0 [] [] [] [0] [[0]] 0)
      (np.zip_with Rplus [1 / 4] [1 / 4]).
Proof.
  apply (h_adds_jumps (mkSystem [1%nat] [] 0 ([1], [1]) 0 [] [] [] [0] [[0]] 0)
                      [1 / 4] [1 / 4]).
  - reflexivity.
  - reflexivity.
  - reflexivity.
  - reflexivity.
  - simpl. repeat constructor. lra.
  - intros k I_k gamma_k phase_k e_k HI Hg Hp He.
    destruct k as [|k]; simpl in *.
    + injection HI as <-. injection Hg as <-. injection Hp as <-. injection He as <-.
      unfold log_arg_of.
      match goal with |- context [exp ?a] => replace a with 0 by lra end.
      rewrite exp_0. lra.
    + destruct k; discriminate.
Defined.

(** X2. For a neuron with I > 0 and gamma > 0: a jump that is not positive
    never saturates the neuron and never advances its phase; a jump that is
    not negative and does not saturate the neuron never sets its phase
    back. *)
Theorem h_follows_sign_of_jump (s : System) (eps : list R) (k : nat)
        (I_k gamma_k phase_k e_k : R) :
  nth_error (fst (I_gamma s)) k = Some I_k ->
  nth_error (snd (I_gamma s)) k = Some gamma_k ->
  nth_error (phases s) k = Some phase_k ->
  nth_error eps k = Some e_k ->
  0 < I_k -> 0 < gamma_k ->
  (e_k <= 0 ->
   0 < log_arg_of I_k gamma_k phase_k e_k /\
   exists q, nth_error (h s eps) k = Some q /\ q <= phase_k) /\
  (0 <= e_k -> 0 < log_arg_of I_k gamma_k phase_k e_k ->
   exists q, nth_error (h s eps) k = Some q /\ phase_k <= q).
Proof.
  intros HI Hg Hp He HIpos Hgpos.
  pose proof (h_pointwise s eps k _ _ _ _ HI Hg Hp He) as Hh.
  pose proof (exp_pos (- gamma_k * phase_k)) as Hexp.
  assert (Hc : 0 < gamma_k / I_k) by (apply Rdiv_lt_0_compat; assumption).
  assert (Hback : phase_k = -1 / gamma_k * ln (exp (- gamma_k * phase_k))).
  { rewrite ln_exp. field. lra. }
  split.
  - intros Hneg.
    assert (Hge : exp (- gamma_k * phase_k) <= log_arg_of I_k gamma_k phase_k e_k).
    { unfold log_arg_of. nra. }
    split; [lra |].
    rewrite Rleb_false in Hh by lra.
    eexists. split; [exact Hh |].
    rewrite Hback at 2.
    pose proof (ln_monotone _ _ Hexp Hge) as Hln.
    assert (Hinv : 0 < / gamma_k) by (apply Rinv_0_lt_compat; exact Hgpos).
    unfold Rdiv. nra.
  - intros Hpos HL.
    assert (Hle : log_arg_of I_k gamma_k phase_k e_k <= exp (- gamma_k * phase_k)).
    { unfold log_arg_of. nra. }
    rewrite Rleb_false in Hh by lra.
    eexists. split; [exact Hh |].
    rewrite Hback at 1.
    pose proof (ln_monotone _ _ HL Hle) as Hln.
    assert (Hinv : 0 < / gamma_k) by (apply Rinv_0_lt_compat; exact Hgpos).
    unfold Rdiv. nra.
Qed.

Lemma h_follows_sign_of_jump_witness :
  (-1 <= 0 ->
   0 < log_arg_of 1 1 0 (-1) /\
   exists q,
     nth_error (h (mkSystem [1%nat] [] 0 ([1], [1]) 0 [] [] [] [0] [[0]] 0) [-1]) 0
     = Some q /\ q <= 0) /\
  (0 <= -1 -> 0 < log_arg_of 1 1 0 (-1) ->
   exists q,
     nth_error (h (mkSystem [1%nat] [] 0 ([1], [1]) 0 [] [] [] [0] [[0]] 0) [-1]) 0
     = Some q /\ 0 <= q).
Proof.
  apply (h_follows_sign_of_jump
           (mkSystem [1%nat] [] 0 ([1], [1]) 0 [] [] [] [0] [[0]] 0) [-1] 0%nat
           1 1 0 (-1)); try reflexivity; lra.
Defined.

(** ** The step and the run loop on any network *)

Lemma same_parameters_refl (s : System) : same_parameters s s.
Proof. unfold same_parameters. repeat split; reflexivity || lia. Qed.

Lemma same_parameters_trans (s1 s2 s3 : System) :
  same_parameters s1 s2 -> same_parameters s2 s3 -> same_parameters s1 s3.
Proof.
  unfold same_parameters.
  intros (A1 & A2 & A3 & A4 & A5 & A6 & A7 & A8) (B1 & B2 & B3 & B4 & B5 & B6 & B7 & B8).
  repeat split; try congruence. lia.
Qed.

Lemma external_spikes_frame (U : nat -> R) (default : option nat)
      (indices : list nat) :
  forall (s s' : System) (v v' : list R),
    external_spikes U default indices s v = Ok (v', s') ->
    same_parameters s s' /\ phases s' = phases s /\ t s' = t s /\
    rng s' = (rng s + length indices)%nat.
Proof.
  induction indices as [|index rest IH]; intros s s' v v' H; simpl in H.
  - injection H as _ <-. split; [apply same_parameters_refl |].
    repeat split. simpl. lia.
  - match type of H with
    | bind ?m _ = _ => destruct m as [rate | e]; simpl in H; [| discriminate]
    end.
    unfold get_InterSpikeInterval in H.
    destruct (np.Reqb rate 0); simpl in H; [discriminate |].
    apply IH in H.
    destruct H as ((A1 & A2 & A3 & A4 & A5 & A6 & A7 & A8) & Hp & Ht & Hr).
    cbn [N N_ext tau I_gamma rates weight_matrix external_events rng phases t
         set_external_events set_rng] in *.
    rewrite set_at_length in A7.
    split; [unfold same_parameters; repeat split; try assumption; lia |].
    repeat split; try assumption. simpl. lia.
Qed.

Lemma arrivals_frame (U : nat -> R) (default3 : option nat) (location : nat)
      (dt : R) (s s' : System) (sv : list R) :
  arrivals U default3 location dt s = Ok (sv, s') ->
  same_parameters s s' /\ phases s' = phases s /\ t s' = t s.
Proof.
  intros H. unfold arrivals in H.
  destruct location as [|[|[|[|location]]]]; try discriminate.
  - unfold pop_event in H. destruct (events s) as [|ev rest] eqn:E; simpl in H;
      [discriminate |].
    injection H as _ <-.
    split; [unfold same_parameters; simpl; repeat split; lia |].
    split; reflexivity.
  - match type of H with
    | bind ?m _ = _ => destruct m as [[v s1] | e] eqn:E; simpl in H; [| discriminate]
    end.
    injection H as _ <-. apply external_spikes_frame in E.
    destruct E as (A & B & C & _). split; [exact A |]. split; assumption.
  - match type of H with
    | bind ?m _ = _ => destruct m as [[v s1] | e] eqn:E; simpl in H; [| discriminate]
    end.
    apply external_spikes_frame in E. destruct E as (A & B & C & _).
    unfold pop_event in H. destruct (events s1) as [|ev rest] eqn:E1; simpl in H;
      [discriminate |].
    injection H as _ <-.
    destruct A as (A1 & A2 & A3 & A4 & A5 & A6 & A7 & A8).
    unfold same_parameters. simpl. repeat split; assumption.
Qed.

Lemma jump_frame (U : nat -> R) (s s' : System) :
  jump_to_next_event U s = Ok s' -> same_parameters s s'.
Proof.
  intros H. unfold jump_to_next_event in H.
  destruct (next_delivery s) as [[dt location] | e]; simpl in H; [| discriminate].
  destruct (np.max (phases s)) as [mx | e]; simpl in H; [| discriminate].
  destruct (np.Rltb (1 - mx) dt).
  - injection H as <-. rewrite self_threshold_branch_eq.
    unfold same_parameters. simpl. repeat split. lia.
  - destruct (np.Reqb (1 - mx) dt).
    + unfold tie_branch in H.
      match type of H with
      | bind ?m _ = _ => destruct m as [[sv s1] | e] eqn:E; simpl in H; [| discriminate]
      end.
      match type of H with
      | bind ?m _ = _ => destruct m as [ph | e]; simpl in H; [| discriminate]
      end.
      injection H as <-. apply arrivals_frame in E. destruct E as (A & _).
      rewrite fire_eq in A. exact A.
    + unfold delivery_branch in H.
      match type of H with
      | bind ?m _ = _ => destruct m as [[sv s1] | e] eqn:E; simpl in H; [| discriminate]
      end.
      injection H as <-. apply arrivals_frame in E. destruct E as (A & _).
      exact A.
Qed.

(** X3. A run never changes the network: when [run(t_end)] returns, the
    population sizes, the delay, I and gamma, the rates and the weight
    matrix are what they were, there are as many external neurons as
    before, and the count of draws taken has not gone down. *)
Theorem run_keeps_network (U : nat -> R) (fuel : nat) (t_end : R) :
  forall s s', run U fuel s t_end = Returns s' -> same_parameters s s'.
Proof.
  induction fuel as [|fuel IH]; intros s s' H; simpl in H.
  - destruct (np.Rltb (t s) t_end); [discriminate |].
    injection H as <-. apply same_parameters_refl.
  - destruct (np.Rltb (t s) t_end).
    + destruct (jump_to_next_event U s) as [s1 | e] eqn:Hj; [| discriminate].
      eapply same_parameters_trans; [eapply jump_frame; exact Hj |].
      apply IH. exact H.
    + injection H as <-. apply same_parameters_refl.
Qed.

Lemma run_one_neuron_once (U : nat -> R) :
  run U 1 (one 0 (1 / 20) 0 [] (1 / 2)) (1 / 4) =
  Returns (one 0 (1 / 20) (0 + (1 - 1 / 2)) [(1 / 20 + 0 + (1 - 1 / 2), [1])] 0).
Proof.
  cbn [run]. simpl t at 1. decide_tests.
  rewrite one_drifts by lra. cbn [run]. simpl t at 1. decide_tests. reflexivity.
Qed.

Lemma run_keeps_network_witness :
  same_parameters
    (one 0 (1 / 20) 0 [] (1 / 2))
    (one 0 (1 / 20) (0 + (1 - 1 / 2)) [(1 / 20 + 0 + (1 - 1 / 2), [1])] 0).
Proof.
  apply (run_keeps_network draws_half 1 (1 / 4)). apply run_one_neuron_once.
Defined.

Lemma run_more_fuel (U : nat -> R) (t_end : R) (f g : nat) :
  forall s s', run U f s t_end = Returns s' -> run U (f + g) s t_end = Returns s'.
Proof.
  induction f as [|f IH]; intros s s' H; simpl in H.
  - destruct (np.Rltb (t s) t_end) eqn:E; [discriminate |].
    destruct g; simpl; rewrite E; exact H.
  - simpl. destruct (np.Rltb (t s) t_end); [| exact H].
    destruct (jump_to_next_event U s) as [s1 | e]; [| discriminate].
    apply IH. exact H.
Qed.

(** X4. A run can be interrupted and resumed: for [t1 <= t2], [run(t1)]
    followed by [run(t2)] ends in the state [run(t2)] alone ends in, and
    every run to [t2] passes through the state at which the run to [t1]
    stops. *)
Theorem run_resumes (U : nat -> R) (t1 t2 : R) :
  t1 <= t2 ->
  (forall f1 f2 s s1 s2,
      run U f1 s t1 = Returns s1 -> run U f2 s1 t2 = Returns s2 ->
      run U (f1 + f2) s t2 = Returns s2) /\
  (forall f s s2,
      run U f s t2 = Returns s2 ->
      exists s1, run U f s t1 = Returns s1 /\ run U f s1 t2 = Returns s2).
Proof.
  intros Hle. split.
  - induction f1 as [|f1 IH]; intros f2 s s1 s2 H1 H2; simpl in H1.
    + destruct (np.Rltb (t s) t1); [discriminate |].
      injection H1 as <-. exact H2.
    + destruct (np.Rltb (t s) t1) eqn:E.
      * apply Rltb_spec in E.
        destruct (jump_to_next_event U s) as [s' | e] eqn:Hj; [| discriminate].
        simpl. rewrite Rltb_true by lra. rewrite Hj.
        apply (IH f2 s' s1 s2 H1 H2).
      * injection H1 as <-.
        rewrite Nat.add_comm. apply run_more_fuel. exact H2.
  - induction f as [|f IH]; intros s s2 H; simpl in H.
    + destruct (np.Rltb (t s) t2) eqn:E; [discriminate |].
      injection H as <-. exists s. simpl. rewrite E.
      rewrite Rltb_false; [split; reflexivity |].
      destruct (Rlt_dec (t s) t2) as [Hlt | Hge].
      * apply Rltb_true in Hlt. congruence.
      * lra.
    + destruct (np.Rltb (t s) t1) eqn:E1.
      * apply Rltb_spec in E1. rewrite Rltb_true in H by lra.
        destruct (jump_to_next_event U s) as [s' | e] eqn:Hj; [| discriminate].
        destruct (IH s' s2 H) as (s1 & Ha & Hb).
        exists s1. split.
        -- simpl. rewrite Rltb_true by exact E1. rewrite Hj. exact Ha.
        -- replace (S f) with (f + 1)%nat by lia. apply run_more_fuel. exact Hb.
      * exists s. split.
        -- simpl. rewrite E1. reflexivity.
        -- simpl. exact H.
Qed.

Lemma run_resumes_witness :
  (forall f1 f2 s s1 s2,
      run draws_half f1 s (1 / 4) = Returns s1 ->
      run draws_half f2 s1 (1 / 2) = Returns s2 ->
      run draws_half (f1 + f2) s (1 / 2) = Returns s2) /\
  (forall f s s2,
      run draws_half f s (1 / 2) = Returns s2 ->
      exists s1, run draws_half f s (1 / 4) = Returns s1 /\
                 run draws_half f s1 (1 / 2) = Returns s2).
Proof.
  apply (run_resumes draws_half (1 / 4) (1 / 2)). lra.
Defined.

(** ** Errors and invariants of the step without external input *)

Lemma jump_isolated_succeeds (U : nat -> R) (n : nat) (s : System) (mx : R) :
  shaped n s -> isolated s ->
  np.max (phases s) = Ok mx -> events s <> [] \/ -499 < mx ->
  exists s', jump_to_next_event U s = Ok s'.
Proof.
  intros Hsh Hiso Hmx Hor. unfold jump_to_next_event.
  rewrite (next_delivery_isolated s Hiso). simpl.
  rewrite Hmx. simpl.
  unfold np.Rltb. destruct (Rlt_dec (1 - mx) (horizon s)) as [Hlt | Hge].
  { eexists. reflexivity. }
  assert (Hne : exists ev rest, events s = ev :: rest).
  { unfold horizon in Hge. destruct (events s) as [|ev rest]; [| eauto].
    destruct Hor as [Hor | Hor]; [contradiction | lra]. }
  destruct Hne as (ev & rest & Hev).
  destruct (np.Reqb (1 - mx) (horizon s)).
  - unfold tie_branch. rewrite fire_eq. unfold arrivals, pop_event. simpl.
    rewrite Hev. simpl.
    match goal with
    | |- context [neglect ?ids ?ph] => destruct (neglect_ok ids ph) as (ph' & ->)
    end.
    + eapply Forall_impl; [| apply where_bound].
      intros i Hi. simpl in Hi.
      match goal with
      | |- (_ < length (h ?x ?eps))%nat =>
          replace (length (h x eps)) with n
      end.
      * destruct Hsh as (Hlen & _). lia.
      * symmetry. rewrite h_length. simpl. rewrite length_map.
        unfold epsilon. rewrite dot_length. simpl.
        destruct Hsh as (H1 & H2 & H3 & H4). lia.
    + simpl. eexists. reflexivity.
  - unfold delivery_branch, arrivals, pop_event. simpl. rewrite Hev. simpl.
    eexists. reflexivity.
Qed.

(** X5. When a step of a network without external neurons fails: with no
    neuron at all the maximum of the phases raises ValueError; with an empty
    queue and every phase at or below -499 (no event within the horizon of
    500) the spike vector is never assigned and its use raises
    UnboundLocalError; in every other state the step succeeds. *)
Theorem step_errors_without_external_input (U : nat -> R) (n : nat) (s : System) :
  shaped n s -> isolated s ->
  (phases s = [] -> jump_to_next_event U s = Raise ValueError) /\
  (forall mx, np.max (phases s) = Ok mx -> events s = [] -> mx <= -499 ->
              jump_to_next_event U s = Raise UnboundLocalError) /\
  (forall mx, np.max (phases s) = Ok mx -> events s <> [] \/ -499 < mx ->
              exists s', jump_to_next_event U s = Ok s').
Proof.
  intros Hsh Hiso.
  split; [| split].
  - unfold jump_to_next_event.
    rewrite (next_delivery_isolated s Hiso). simpl.
    intros ->. reflexivity.
  - unfold jump_to_next_event.
    rewrite (next_delivery_isolated s Hiso). simpl.
    intros mx Hmx Hev Hle. rewrite Hmx. simpl.
    unfold horizon. rewrite Hev.
    rewrite Rltb_false by lra.
    destruct (np.Reqb (1 - mx) 500).
    + unfold tie_branch, arrivals. reflexivity.
    + unfold delivery_branch, arrivals. reflexivity.
  - intros mx Hmx Hor.
    apply (jump_isolated_succeeds U n s mx Hsh Hiso Hmx Hor).
Qed.

Lemma one_shaped (J tau0 t0 : R) (ev : list (R * list R)) (p : R) :
  shaped 1 (one J tau0 t0 ev p) /\ isolated (one J tau0 t0 ev p).
Proof. unfold shaped, isolated. simpl. repeat split. Qed.

Lemma step_errors_without_external_input_witness :
  (phases (one 0 (1 / 20) 0 [] (1 / 2)) = [] ->
   jump_to_next_event draws_half (one 0 (1 / 20) 0 [] (1 / 2)) = Raise ValueError) /\
  (forall mx, np.max (phases (one 0 (1 / 20) 0 [] (1 / 2))) = Ok mx ->
              events (one 0 (1 / 20) 0 [] (1 / 2)) = [] -> mx <= -499 ->
              jump_to_next_event draws_half (one 0 (1 / 20) 0 [] (1 / 2)) =
              Raise UnboundLocalError) /\
  (forall mx, np.max (phases (one 0 (1 / 20) 0 [] (1 / 2))) = Ok mx ->
              events (one 0 (1 / 20) 0 [] (1 / 2)) <> [] \/ -499 < mx ->
              exists s', jump_to_next_event draws_half (one 0 (1 / 20) 0 [] (1 / 2))
                         = Ok s').
Proof.
  apply (step_errors_without_external_input draws_half 1
           (one 0 (1 / 20) 0 [] (1 / 2))).
  - apply one_shaped.
  - apply one_shaped.
Defined.

(** X6. A step of the self-threshold branch emits at least one spike: the
    delivery it appends marks, with entries 0 and 1 only and one entry per
    neuron, exactly the neurons it resets; every neuron whose phase was the
    largest is among them; and afterwards every phase is below 1. *)
Theorem self_threshold_step_fires (U : nat -> R) (s : System) (mx : R) :
  np.max (phases s) = Ok mx -> 1 - mx < next_dt s ->
  exists s' spikes,
    jump_to_next_event U s = Ok s' /\
    events s' = events s ++ [(tau s + t s + Rmax (1 - mx) 0, spikes)] /\
    binary spikes /\ In 1 spikes /\ length spikes = length (phases s) /\
    Forall (fun p => p < 1) (phases s') /\
    (forall k, nth_error spikes k = Some 1 <->
               exists p, nth_error (phases s) k = Some p /\
                         1 <= p + Rmax (1 - mx) 0) /\
    (forall k, nth_error spikes k = Some 1 -> nth_error (phases s') k = Some 0) /\
    (forall k, nth_error (phases s) k = Some mx -> nth_error spikes k = Some 1).
Proof.
  intros Hmx Hlt.
  rewrite (jump_self U s mx Hmx Hlt).
  set (dt := Rmax (1 - mx) 0).
  assert (Hdt : 1 - mx <= dt) by (unfold dt; apply Rmax_l).
  eexists. eexists. split; [reflexivity |].
  unfold after_self_threshold. cbn [events phases].
  split; [reflexivity |].
  assert (Hchar : forall k,
             nth_error (map (fun p => if np.Rleb 1 (p + dt) then 1 else 0)
                            (phases s)) k = Some 1 <->
             exists p, nth_error (phases s) k = Some p /\ 1 <= p + dt).
  { intros k. rewrite nth_error_map.
    destruct (nth_error (phases s) k) as [p|]; simpl.
    - destruct (np.Rleb 1 (p + dt)) eqn:E.
      + apply Rleb_spec in E. split; [intros _; exists p; auto | reflexivity].
      + split.
        * intros H. injection H as H. lra.
        * intros (p' & Hp' & Hle). injection Hp' as <-.
          apply Rleb_true in Hle. congruence.
    - split; [discriminate | intros (p & Hp & _); discriminate]. }
  assert (Hmax : forall k, nth_error (phases s) k = Some mx ->
             nth_error (map (fun p => if np.Rleb 1 (p + dt) then 1 else 0)
                            (phases s)) k = Some 1).
  { intros k Hk. apply Hchar. exists mx. split; [exact Hk | lra]. }
  split; [| split; [| split; [| split; [| split; [| split]]]]].
  - unfold binary. apply Forall_map. apply Forall_forall. intros p _.
    destruct (np.Rleb 1 (p + dt)); auto.
  - destruct (max_spec _ _ Hmx) as (Hin & _).
    apply In_nth_error in Hin. destruct Hin as (k & Hk).
    eapply nth_error_In. apply (Hmax k Hk).
  - apply length_map.
  - apply Forall_map. apply Forall_forall. intros p _.
    destruct (np.Rleb 1 (p + dt)) eqn:E; [lra |].
    unfold np.Rleb in E. destruct (Rle_dec 1 (p + dt)); [discriminate | lra].
  - exact Hchar.
  - intros k Hk. apply Hchar in Hk. destruct Hk as (p & Hp & Hle).
    rewrite nth_error_map, Hp. simpl. rewrite Rleb_true by exact Hle. reflexivity.
  - exact Hmax.
Qed.

Lemma self_threshold_step_fires_witness :
  exists s' spikes,
    jump_to_next_event draws_half (one 0 (1 / 20) 0 [] (1 / 2)) = Ok s' /\
    events s' = events (one 0 (1 / 20) 0 [] (1 / 2)) ++
                [(tau (one 0 (1 / 20) 0 [] (1 / 2)) + t (one 0 (1 / 20) 0 [] (1 / 2))
                  + Rmax (1 - 1 / 2) 0, spikes)] /\
    binary spikes /\ In 1 spikes /\
    length spikes = length (phases (one 0 (1 / 20) 0 [] (1 / 2))) /\
    Forall (fun p => p < 1) (phases s') /\
    (forall k, nth_error spikes k = Some 1 <->
               exists p, nth_error (phases (one 0 (1 / 20) 0 [] (1 / 2))) k = Some p /\
                         1 <= p + Rmax (1 - 1 / 2) 0) /\
    (forall k, nth_error spikes k = Some 1 -> nth_error (phases s') k = Some 0) /\
    (forall k, nth_error (phases (one 0 (1 / 20) 0 [] (1 / 2))) k = Some (1 / 2) ->
               nth_error spikes k = Some 1).
Proof.
  apply (self_threshold_step_fires draws_half (one 0 (1 / 20) 0 [] (1 / 2)) (1 / 2)).
  - reflexivity.
  - unfold next_dt, horizon. simpl. lra.
Defined.

Lemma steps_isolated (U : nat -> R) (n : nat) (k : nat) :
  forall s sk,
    shaped n s -> isolated s -> queue_ok s ->
    steps U k s = Ok sk ->
    shaped n sk /\ isolated sk /\ queue_ok sk /\ tau sk = tau s /\ t s <= t sk.
Proof.
  induction k as [|k IH]; intros s sk Hsh Hiso Hq H; simpl in H.
  - injection H as <-.
    split; [exact Hsh | split; [exact Hiso | split; [exact Hq | split]]];
      [reflexivity | lra].
  - destruct (jump_to_next_event U s) as [s1 | e] eqn:Hj; simpl in H; [| discriminate].
    destruct (jump_isolated U s s1 Hiso Hj) as (mx & Hmx & Hsame & Hstep).
    destruct (isolated_step_preserves n s s1 mx Hstep Hsame Hsh Hiso Hq)
      as (Hsh1 & Hiso1 & Hq1 & Ht1).
    destruct (IH s1 sk Hsh1 Hiso1 Hq1 H) as (A & B & C & D & E).
    destruct Hsame as (_ & _ & Htau & _).
    split; [exact A | split; [exact B | split; [exact C | split]]];
      [congruence | lra].
Qed.

(** X7. Without external input and with a delay that is not negative, the
    queue of pending deliveries stays in order of arrival after any number
    of steps from construction, every pending delivery arrives between the
    clock and the clock plus the delay, the clock has not gone below 0, and
    the phase vector keeps one entry per neuron. *)
Theorem queue_stays_in_order (U : nat -> R) (N0 : list nat)
        (J_int : list (list R)) (I gamma : list R) (K tau0 : R)
        (J_ext : list (list R)) (rates0 : list R) (k : nat) (s0 sk : System) :
  System_init U N0 J_int I gamma K tau0 [] J_ext rates0 = Ok s0 ->
  0 <= tau0 ->
  steps U k s0 = Ok sk ->
  StronglySorted Rle (map fst (events sk)) /\
  Forall (fun ev => t sk <= fst ev <= t sk + tau0) (events sk) /\
  0 <= t sk /\
  length (phases sk) = np.sum N0.
Proof.
  intros Hinit Htau Hsteps.
  destruct (System_init_isolated_shape U N0 J_int I gamma K tau0 J_ext rates0 s0
              Hinit Htau) as (Hsh & Hiso & Hq & Ht0).
  assert (Hclock : t s0 = 0).
  { destruct (System_init_isolated U N0 J_int I gamma K tau0 J_ext rates0 s0 Hinit)
      as (Ig & W_int & W_ext & s1 & s2 & s3 & _ & E1 & E2 & E3 & E4).
    apply create_matrix_rows in E2, E3.
    destruct E2 as (_ & E2). destruct E3 as (_ & E3).
    rewrite E4, E3, E2, E1. reflexivity. }
  destruct (steps_isolated U (np.sum N0) k s0 sk Hsh Hiso Hq Hsteps)
    as (A & B & (C1 & C2 & C3) & D & E).
  split; [exact C3 |]. split; [| split].
  - rewrite D, Ht0 in C2. exact C2.
  - lra.
  - apply A.
Qed.

Lemma queue_stays_in_order_witness :
  StronglySorted Rle (map fst (events (one 0 (1 / 20) (0 + (1 - 1 / 2))
                                        [(1 / 20 + 0 + (1 - 1 / 2), [1])] 0))) /\
  Forall (fun ev => t (one 0 (1 / 20) (0 + (1 - 1 / 2))
                          [(1 / 20 + 0 + (1 - 1 / 2), [1])] 0) <= fst ev
                    <= t (one 0 (1 / 20) (0 + (1 - 1 / 2))
                             [(1 / 20 + 0 + (1 - 1 / 2), [1])] 0) + 1 / 20)
         (events (one 0 (1 / 20) (0 + (1 - 1 / 2))
                      [(1 / 20 + 0 + (1 - 1 / 2), [1])] 0)) /\
  0 <= t (one 0 (1 / 20) (0 + (1 - 1 / 2)) [(1 / 20 + 0 + (1 - 1 / 2), [1])] 0) /\
  length (phases (one 0 (1 / 20) (0 + (1 - 1 / 2))
                      [(1 / 20 + 0 + (1 - 1 / 2), [1])] 0)) = np.sum [1%nat].
Proof.
  apply (queue_stays_in_order draws_half [1%nat] [[0]] [1] [1] 1 (1 / 20) [] []
           1 (one 0 (1 / 20) 0 [] (1 / 2))).
  - apply (build_one_eq 0 (1 / 20)).
  - lra.
  - simpl. rewrite one_drifts by lra. reflexivity.
Defined.

(** ** Construction: what the loops over the populations compute *)

Lemma sum_firstn_mono (sizes : list nat) (i j : nat) :
  (i <= j)%nat -> (np.sum (firstn i sizes) <= np.sum (firstn j sizes))%nat.
Proof.
  revert i j. induction sizes as [|x sizes IH]; intros i j Hij.
  - rewrite !firstn_nil. lia.
  - destruct i as [|i]; [simpl; lia |].
    destruct j as [|j]; [lia |].
    simpl. specialize (IH i j). lia.
Qed.

Lemma sum_firstn_all (sizes : list nat) :
  np.sum (firstn (length sizes) sizes) = np.sum sizes.
Proof. rewrite firstn_all. reflexivity. Qed.

Lemma slice_in_range (sizes : list nat) (i n_i : nat) :
  nth_error sizes i = Some n_i ->
  (np.sum (firstn i sizes) + n_i <= np.sum sizes)%nat.
Proof.
  intros H. rewrite <- (sum_firstn_S sizes i n_i H). apply sum_firstn_le.
Qed.

Lemma nth_error_map_slice {A : Type} (lo len : nat) (f : A -> A) (a : list A)
      (k : nat) :
  (lo + len <= length a)%nat ->
  nth_error (np.map_slice lo len f a) k =
  if ((lo <=? k) && (k <? lo + len))%nat then option_map f (nth_error a k)
  else nth_error a k.
Proof.
  intros Hlen. unfold np.map_slice.
  assert (Hl1 : length (firstn lo a) = lo) by (rewrite length_firstn; lia).
  assert (Hl2 : length (map f (firstn len (skipn lo a))) = len).
  { rewrite length_map, length_firstn, length_skipn. lia. }
  destruct (lo <=? k)%nat eqn:E1; simpl.
  - apply Nat.leb_le in E1.
    rewrite nth_error_app2 by lia. rewrite Hl1.
    destruct (k <? lo + len)%nat eqn:E2.
    + apply Nat.ltb_lt in E2.
      rewrite nth_error_app1 by lia.
      rewrite nth_error_map, nth_error_firstn.
      replace (k - lo <? len)%nat with true by (symmetry; apply Nat.ltb_lt; lia).
      rewrite nth_error_skipn. replace (lo + (k - lo))%nat with k by lia.
      reflexivity.
    + apply Nat.ltb_ge in E2.
      rewrite nth_error_app2 by lia. rewrite Hl2.
      rewrite nth_error_skipn. f_equal. lia.
  - apply Nat.leb_gt in E1.
    rewrite nth_error_app1 by lia.
    rewrite nth_error_firstn.
    replace (k <? lo)%nat with true by (symmetry; apply Nat.ltb_lt; lia).
    reflexivity.
Qed.

Lemma sliced_start {A : Type} (sizes : list nat) (f : nat -> A -> A) (a : list A) :
  sliced sizes f 0 a a.
Proof.
  unfold sliced. split; [reflexivity |]. split.
  - intros j' n' b' Hj. lia.
  - reflexivity.
Qed.

Lemma sliced_step {A : Type} (sizes : list nat) (f : nat -> A -> A) (j n_j : nat)
      (a a' : list A) :
  sliced sizes f j a a' ->
  nth_error sizes j = Some n_j ->
  (np.sum (firstn j sizes) + n_j <= length a)%nat ->
  sliced sizes f (S j) a (np.map_slice (first_index sizes j) n_j (f j) a').
Proof.
  intros (Hlen & Hdone & Hrest) Hj Hfit.
  rewrite first_index_eq.
  unfold sliced. split; [rewrite map_slice_length; exact Hlen |]. split.
  - intros j' n' b' Hj' Hn' Hb'.
    rewrite nth_error_map_slice by lia.
    rewrite first_index_eq.
    destruct (Nat.eq_dec j' j) as [-> | Hne].
    + assert (n' = n_j) by congruence. subst n'.
      replace ((np.sum (firstn j sizes) <=? np.sum (firstn j sizes) + b') &&
               (np.sum (firstn j sizes) + b' <? np.sum (firstn j sizes) + n_j))%nat
        with true.
      * rewrite Hrest by lia. reflexivity.
      * symmetry. apply andb_true_iff. split;
          [apply Nat.leb_le | apply Nat.ltb_lt]; lia.
    + assert (Hlt : (j' < j)%nat) by lia.
      pose proof (sum_firstn_S sizes j' n' Hn') as HS.
      pose proof (sum_firstn_mono sizes (S j') j ltac:(lia)) as Hm.
      replace (np.sum (firstn j sizes) <=? np.sum (firstn j' sizes) + b')%nat
        with false by (symmetry; apply Nat.leb_gt; lia).
      simpl. specialize (Hdone j' n' b' Hlt Hn' Hb').
      rewrite first_index_eq in Hdone. exact Hdone.
  - intros b Hb. rewrite (sum_firstn_S sizes j n_j Hj) in Hb.
    rewrite nth_error_map_slice by lia.
    replace (b <? np.sum (firstn j sizes) + n_j)%nat
      with false by (symmetry; apply Nat.ltb_ge; lia).
    rewrite andb_false_r. apply Hrest. lia.
Qed.

Lemma get_item_Ok {A : Type} (l : list A) (k : nat) (x : A) :
  get_item l k = Ok x -> nth_error l k = Some x.
Proof.
  unfold get_item. destruct (nth_error l k); [| discriminate].
  intros H. injection H as <-. reflexivity.
Qed.

Lemma fill_I_gamma_sliced (N0 : list nat) (I gamma : list R) (Ig : list R * list R) :
  fill_I_gamma N0 I gamma = Ok Ig ->
  sliced N0 (fun i x => x * nth i I 0) (length N0) (np.ones (np.sum N0)) (fst Ig) /\
  sliced N0 (fun i x => x * nth i gamma 0) (length N0) (np.ones (np.sum N0)) (snd Ig).
Proof.
  unfold fill_I_gamma.
  apply (for_each_seq
           (fun i (Ig : list R * list R) =>
              sliced N0 (fun i x => x * nth i I 0) i
                     (np.ones (np.sum N0)) (fst Ig) /\
              sliced N0 (fun i x => x * nth i gamma 0) i
                     (np.ones (np.sum N0)) (snd Ig))
           _ (length N0) 0%nat (np.ones (np.sum N0), np.ones (np.sum N0)) Ig).
  { split; apply sliced_start. }
  intros i [row0 row1] s1 Hi (H0 & H1) Hb. simpl in H0, H1.
  destruct (get_item N0 i) as [n_i|] eqn:En; simpl in Hb; [| discriminate].
  destruct (get_item I i) as [I_i|] eqn:EI; simpl in Hb; [| discriminate].
  destruct (get_item gamma i) as [g_i|] eqn:Eg; simpl in Hb; [| discriminate].
  injection Hb as <-. simpl.
  apply get_item_Ok in En, EI, Eg.
  pose proof (slice_in_range N0 i n_i En) as Hfit.
  rewrite <- (nth_error_nth I i 0 EI), <- (nth_error_nth gamma i 0 Eg).
  split.
  - apply (sliced_step N0 (fun i x => x * nth i I 0) i n_i _ row0 H0 En).
    unfold np.ones. rewrite repeat_length. exact Hfit.
  - apply (sliced_step N0 (fun i x => x * nth i gamma 0) i n_i _ row1 H1 En).
    unfold np.ones. rewrite repeat_length. exact Hfit.
Qed.

Lemma get_initial_ISI_spec (U : nat -> R) (s s' : System) :
  length (external_events s) = np.sum (N_ext s) ->
  get_initial_ISI U s = Ok s' ->
  redrawn s s' /\
  rng s' = (rng s + np.sum (N_ext s))%nat /\
  length (external_events s') = np.sum (N_ext s) /\
  (forall m size i r,
      nth_error (N_ext s) m = Some size -> (i < size)%nat ->
      nth_error (rates s) m = Some r ->
      nth_error (external_events s') (first_index (N_ext s) m + i) =
      Some (first_arrival U s m i r)).
Proof.
  intros Hlen H. unfold get_initial_ISI in H.
  set (done := fun (n : nat) (s0 : System) =>
                 forall m size i r,
                   (m < n)%nat ->
                   nth_error (N_ext s) m = Some size -> (i < size)%nat ->
                   nth_error (rates s) m = Some r ->
                   nth_error (external_events s0) (first_index (N_ext s) m + i) =
                   Some (first_arrival U s m i r)).
  set (Q := fun (n : nat) (s0 : System) =>
              redrawn s s0 /\
              rng s0 = (rng s + np.sum (firstn n (N_ext s)))%nat /\
              length (external_events s0) = np.sum (N_ext s) /\
              done n s0).
  assert (HQ : Q (0 + length (N_ext s))%nat s').
  { revert H. apply (for_each_seq Q).
    - unfold Q, redrawn, done. simpl. repeat split; try lia; intros; lia.
    - intros n s0 s1 Hn (Hre & Hrng & Hl & Hdone) Hb. simpl in Hb.
      assert (HNe : N_ext s0 = N_ext s) by apply Hre.
      rewrite HNe in Hb.
      destruct (get_item (N_ext s) n) as [size_n|] eqn:En; simpl in Hb; [| discriminate].
      apply get_item_Ok in En.
      pose proof (slice_in_range (N_ext s) n size_n En) as Hfit.
      set (Qi := fun (i : nat) (s2 : System) =>
                   redrawn s s2 /\
                   rng s2 = (rng s + np.sum (firstn n (N_ext s)) + i)%nat /\
                   length (external_events s2) = np.sum (N_ext s) /\
                   done n s2 /\
                   (forall i' r, (i' < i)%nat -> nth_error (rates s) n = Some r ->
                      nth_error (external_events s2) (first_index (N_ext s) n + i') =
                      Some (first_arrival U s n i' r))).
      assert (HQi : Qi (0 + size_n)%nat s1).
      { revert Hb. apply (for_each_seq Qi).
        - unfold Qi. split; [exact Hre |]. split; [lia |]. split; [exact Hl |].
          split; [exact Hdone |]. intros; lia.
        - intros i s2 s3 Hi (Hre2 & Hrng2 & Hl2 & Hdone2 & Hcur) Hb.
          assert (Hrs : rates s2 = rates s) by apply Hre2.
          assert (Ht2 : t s2 = t s) by apply Hre2.
          rewrite Hrs in Hb.
          destruct (get_item (rates s) n) as [rate|] eqn:Er; simpl in Hb;
            [| discriminate].
          apply get_item_Ok in Er.
          unfold get_InterSpikeInterval in Hb.
          destruct (np.Reqb rate 0); simpl in Hb; [discriminate |].
          injection Hb as <-.
          unfold Qi. cbn [rng external_events set_external_events set_rng].
          split; [| split; [| split; [| split]]].
          + destruct Hre2 as (A1 & A2 & A3 & A4 & A5 & A6 & A7 & A8 & A9).
            unfold redrawn. simpl. repeat split; assumption.
          + lia.
          + rewrite set_at_length. exact Hl2.
          + unfold done. cbn [external_events set_external_events set_rng].
            intros m size i0 r Hm Hsz Hi0 Hr.
            rewrite nth_error_set_at_neq; [apply (Hdone2 m size i0 r); assumption |].
            rewrite !first_index_eq.
            pose proof (sum_firstn_S (N_ext s) m size Hsz) as HS.
            pose proof (sum_firstn_mono (N_ext s) (S m) n ltac:(lia)) as Hm2.
            lia.
          + intros i' r Hi' Hr.
            destruct (Nat.eq_dec i' i) as [-> | Hne].
            * rewrite nth_error_set_at_eq.
              -- assert (r = rate) by congruence. subst r.
                 unfold first_arrival. rewrite Ht2, Hrng2, first_index_eq.
                 reflexivity.
              -- rewrite Hl2, first_index_eq. simpl in Hi. lia.
            * rewrite nth_error_set_at_neq by lia.
              apply Hcur; [lia | exact Hr]. }
      destruct HQi as (Hre1 & Hrng1 & Hl1 & Hdone1 & Hcur1). simpl in Hrng1, Hcur1.
      unfold Q. split; [exact Hre1 |]. split; [| split; [exact Hl1 |]].
      + rewrite (sum_firstn_S (N_ext s) n size_n En). lia.
      + intros m size i r Hm Hsz Hi Hr.
        destruct (Nat.eq_dec m n) as [-> | Hne].
        * assert (size = size_n) by congruence. subst size.
          apply Hcur1; assumption.
        * apply (Hdone1 m size i r); [lia | assumption..]. }
  destruct HQ as (Hre & Hrng & Hl & Hdone). simpl in Hrng.
  rewrite firstn_all in Hrng.
  split; [exact Hre |]. split; [exact Hrng |]. split; [exact Hl |].
  intros m size i r Hsz Hi Hr.
  apply (Hdone m size i r); try assumption.
  simpl. apply nth_error_lt in Hsz. exact Hsz.
Qed.

Lemma nth_error_rand (U : nat -> R) (k n b : nat) :
  (b < n)%nat -> nth_error (rand U k n) b = Some (U (k + b)%nat).
Proof.
  intros Hb. unfold rand. rewrite nth_error_map, nth_error_seq.
  replace (b <? n)%nat with true by (symmetry; apply Nat.ltb_lt; exact Hb).
  reflexivity.
Qed.

Lemma rand_length (U : nat -> R) (k n : nat) : length (rand U k n) = n.
Proof. unfold rand. rewrite length_map, length_seq. reflexivity. Qed.

Lemma nth_error_rand2 (U : nat -> R) (k rows cols a : nat) :
  (a < rows)%nat -> nth_error (rand2 U k rows cols) a = Some (raw_row U k cols a).
Proof.
  intros Ha. unfold rand2. rewrite nth_error_map, nth_error_seq.
  replace (a <? rows)%nat with true by (symmetry; apply Nat.ltb_lt; exact Ha).
  reflexivity.
Qed.

Lemma create_matrix_sliced (U : nat -> R) (src : list nat) (J : list (list R))
      (K : R) (s s' : System) (W : list (list R)) :
  create_matrix U src J K s = Ok (W, s') ->
  forall i n_i a',
    nth_error (N s) i = Some n_i -> (a' < n_i)%nat ->
    exists row,
      nth_error W (first_index (N s) i + a') = Some row /\
      sliced src (fun j x => x * strength J i j) (length src)
             (map (connect (K / INR n_i))
                  (raw_row U (rng s) (np.sum src) (first_index (N s) i + a')))
             row.
Proof.
  unfold create_matrix. cbv zeta. intros H.
  match type of H with
  | bind (for_each ?l ?b ?r0) _ = _ =>
      destruct (for_each l b r0) as [r | e] eqn:E; simpl in H; [| discriminate]
  end.
  injection H as <- _.
  set (rows := np.sum (N s)) in *. set (cols := np.sum src) in *.
  set (r0 := rand2 U (rng s) rows cols) in *.
  set (final := fun (i : nat) (n_i : nat) (a' : nat) (r1 : list (list R)) (j : nat) =>
                  exists row,
                    nth_error r1 (first_index (N s) i + a') = Some row /\
                    sliced src (fun j x => x * strength J i j) j
                           (map (connect (K / INR n_i))
                                (raw_row U (rng s) cols (first_index (N s) i + a')))
                           row).
  set (Qo := fun (i : nat) (r1 : list (list R)) =>
               length r1 = rows /\
               (forall i' n' a', (i' < i)%nat -> nth_error (N s) i' = Some n' ->
                                 (a' < n')%nat -> final i' n' a' r1 (length src)) /\
               (forall a, (np.sum (firstn i (N s)) <= a)%nat ->
                          nth_error r1 a = nth_error r0 a)).
  assert (HQ : Qo (0 + length (N s))%nat r).
  { revert E. apply (for_each_seq Qo).
    - unfold Qo. split; [apply rand2_length |]. split; [intros; lia | reflexivity].
    - intros i r1 r2 Hi (Hl & Hdone & Hraw) Hb. simpl in Hb.
      destruct (get_item (N s) i) as [n_i|] eqn:En; simpl in Hb; [| discriminate].
      apply get_item_Ok in En.
      destruct (float_div K n_i) as [p_i|] eqn:Ep; cbn [bind] in Hb; [| discriminate].
      apply float_div_inv in Ep. destruct Ep as (_ & ->).
      pose proof (slice_in_range (N s) i n_i En) as Hfit. fold rows in Hfit.
      set (lo := np.sum (firstn i (N s))) in *.
      set (rc := np.map_slice (first_index (N s) i) n_i
                   (map (connect (K / INR n_i))) r1) in *.
      assert (Hrc : forall a, nth_error rc a =
                      if ((lo <=? a) && (a <? lo + n_i))%nat
                      then option_map (map (connect (K / INR n_i))) (nth_error r1 a)
                      else nth_error r1 a).
      { intros a. unfold rc. rewrite first_index_eq.
        apply nth_error_map_slice. fold lo. lia. }
      set (Qi := fun (j : nat) (r3 : list (list R)) =>
                   length r3 = rows /\
                   (forall a, (a < lo \/ lo + n_i <= a)%nat ->
                              nth_error r3 a = nth_error rc a) /\
                   (forall a', (a' < n_i)%nat -> final i n_i a' r3 j)).
      assert (HQi : Qi (0 + length src)%nat r2).
      { revert Hb. apply (for_each_seq Qi).
        - unfold Qi. split; [unfold rc; rewrite map_slice_length; exact Hl |].
          split; [reflexivity |].
          intros a' Ha'. unfold final. rewrite first_index_eq. fold lo.
          rewrite Hrc.
          replace ((lo <=? lo + a') && (lo + a' <? lo + n_i))%nat with true
            by (symmetry; apply andb_true_iff; split;
                [apply Nat.leb_le | apply Nat.ltb_lt]; lia).
          rewrite Hraw by (fold lo; lia).
          unfold r0. rewrite nth_error_rand2 by lia. simpl.
          eexists. split; [reflexivity | apply sliced_start].
        - intros j r3 r4 Hj (Hl3 & Hout & Hin) Hb.
          destruct (get_item src j) as [n_j|] eqn:Ej; simpl in Hb; [| discriminate].
          destruct (get_item J i) as [J_i|] eqn:EJ; simpl in Hb; [| discriminate].
          destruct (get_item J_i j) as [J_ij|] eqn:EJij; simpl in Hb; [| discriminate].
          injection Hb as <-.
          apply get_item_Ok in Ej, EJ, EJij.
          assert (HJ : strength J i j = J_ij).
          { unfold strength. rewrite (nth_error_nth J i [] EJ).
            apply (nth_error_nth J_i j 0 EJij). }
          assert (Hr4 : forall a,
                     nth_error
                       (np.map_slice (first_index (N s) i) n_i
                          (np.map_slice (first_index src j) n_j (fun x => x * J_ij))
                          r3) a =
                     if ((lo <=? a) && (a <? lo + n_i))%nat
                     then option_map
                            (np.map_slice (first_index src j) n_j (fun x => x * J_ij))
                            (nth_error r3 a)
                     else nth_error r3 a).
          { intros a. rewrite first_index_eq.
            apply nth_error_map_slice. fold lo. lia. }
          unfold Qi. split; [rewrite map_slice_length; exact Hl3 |]. split.
          + intros a Ha. rewrite Hr4.
            replace ((lo <=? a) && (a <? lo + n_i))%nat with false.
            * apply Hout. exact Ha.
            * symmetry. apply andb_false_iff.
              destruct Ha; [left; apply Nat.leb_gt | right; apply Nat.ltb_ge]; lia.
          + intros a' Ha'. destruct (Hin a' Ha') as (row & Hrow & Hsl).
            unfold final. rewrite Hr4.
            rewrite first_index_eq in *. fold lo in Hrow |- *.
            replace ((lo <=? lo + a') && (lo + a' <? lo + n_i))%nat with true
              by (symmetry; apply andb_true_iff; split;
                  [apply Nat.leb_le | apply Nat.ltb_lt]; lia).
            rewrite Hrow. simpl. eexists. split; [reflexivity |].
            rewrite <- HJ.
            apply (sliced_step src (fun j x => x * strength J i j) j n_j _ row
                               Hsl Ej).
            rewrite length_map. unfold raw_row. rewrite rand_length.
            apply (slice_in_range src j n_j Ej). }
      destruct HQi as (Hl2 & Hout & Hin). simpl in Hin.
      unfold Qo. split; [exact Hl2 |]. split.
      + intros i' n' a' Hi' Hn' Ha'.
        destruct (Nat.eq_dec i' i) as [-> | Hne].
        * assert (n' = n_i) by congruence. subst n'. apply Hin. exact Ha'.
        * assert (Hlt : (i' < i)%nat) by lia.
          destruct (Hdone i' n' a' Hlt Hn' Ha') as (row & Hrow & Hsl).
          unfold final. exists row. split; [| exact Hsl].
          pose proof (sum_firstn_S (N s) i' n' Hn') as HS.
          pose proof (sum_firstn_mono (N s) (S i') i ltac:(lia)) as Hm.
          fold lo in Hm.
          rewrite first_index_eq in *.
          rewrite Hout by lia. rewrite Hrc.
          replace (lo <=? np.sum (firstn i' (N s)) + a')%nat with false
            by (symmetry; apply Nat.leb_gt; lia).
          simpl. exact Hrow.
      + intros a Ha. rewrite (sum_firstn_S (N s) i n_i En) in Ha. fold lo in Ha.
        rewrite Hout by lia. rewrite Hrc.
        replace (a <? lo + n_i)%nat with false by (symmetry; apply Nat.ltb_ge; lia).
        rewrite andb_false_r. apply Hraw. fold lo. lia. }
  destruct HQ as (_ & Hdone & _).
  intros i n_i a' Hn Ha'.
  apply (Hdone i n_i a'); [| exact Hn | exact Ha'].
  simpl. apply nth_error_lt in Hn. exact Hn.
Qed.

Lemma create_matrix_entry (U : nat -> R) (src : list nat) (J : list (list R))
      (K : R) (s s' : System) (W : list (list R)) :
  create_matrix U src J K s = Ok (W, s') ->
  forall i n_i a' j n_j b' J_i J_ij,
    nth_error (N s) i = Some n_i -> (a' < n_i)%nat ->
    nth_error src j = Some n_j -> (b' < n_j)%nat ->
    nth_error J i = Some J_i -> nth_error J_i j = Some J_ij ->
    exists row,
      nth_error W (first_index (N s) i + a') = Some row /\
      length row = np.sum src /\
      nth_error row (first_index src j + b') =
      Some (connect (K / INR n_i)
              (U (rng s + (first_index (N s) i + a') * np.sum src
                  + (first_index src j + b'))%nat)
            * J_ij).
Proof.
  intros H i n_i a' j n_j b' J_i J_ij Hn Ha' Hnj Hb' HJ HJij.
  destruct (create_matrix_sliced U src J K s s' W H i n_i a' Hn Ha')
    as (row & Hrow & Hlen & Hdone & _).
  exists row. split; [exact Hrow |].
  rewrite length_map in Hlen. unfold raw_row in Hlen. rewrite rand_length in Hlen.
  split; [exact Hlen |].
  rewrite (Hdone j n_j b'); [| apply nth_error_lt in Hnj; exact Hnj | exact Hnj
                             | exact Hb'].
  pose proof (slice_in_range src j n_j Hnj) as Hfit.
  rewrite nth_error_map. unfold raw_row.
  rewrite nth_error_rand by (rewrite first_index_eq; lia).
  simpl. f_equal. f_equal.
  unfold strength. rewrite (nth_error_nth J i [] HJ).
  apply (nth_error_nth J_i j 0 HJij).
Qed.

Lemma create_matrix_cols (U : nat -> R) (src : list nat) (J : list (list R))
      (K : R) (s s' : System) (W : list (list R)) :
  create_matrix U src J K s = Ok (W, s') ->
  Forall (fun row => length row = np.sum src) W.
Proof.
  unfold create_matrix. cbv zeta. intros H.
  match type of H with
  | bind (for_each ?l ?b ?r0) _ = _ =>
      destruct (for_each l b r0) as [r | e] eqn:E; simpl in H; [| discriminate]
  end.
  injection H as <- _. revert E.
  apply (for_each_preserves
           (fun r : list (list R) => Forall (fun row => length row = np.sum src) r)).
  - unfold rand2. apply Forall_map. apply Forall_forall. intros a _.
    apply rand_length.
  - intros i r0 r1 _ Hr0 Hb. simpl in Hb.
    destruct (get_item (N s) i) as [n_i|]; simpl in Hb; [| discriminate].
    destruct (float_div K n_i) as [p_i|]; simpl in Hb; [| discriminate].
    revert Hb.
    apply (for_each_preserves
             (fun r : list (list R) => Forall (fun row => length row = np.sum src) r)).
    + apply map_slice_Forall; [exact Hr0 |].
      intros row Hrow. rewrite length_map. exact Hrow.
    + intros j r2 r3 _ Hr2 Hb.
      destruct (get_item src j) as [n_j|]; simpl in Hb; [| discriminate].
      destruct (get_item J i) as [J_i|]; simpl in Hb; [| discriminate].
      destruct (get_item J_i j) as [J_ij|]; simpl in Hb; [| discriminate].
      injection Hb as <-.
      apply map_slice_Forall; [exact Hr2 |].
      intros row Hrow. rewrite map_slice_length. exact Hrow.
Qed.

Lemma nth_error_concatenate1 (A B : list (list R)) (a : nat) (ra rb : list R) :
  nth_error A a = Some ra -> nth_error B a = Some rb ->
  nth_error (np.concatenate1 A B) a = Some (ra ++ rb).
Proof.
  revert B a. induction A as [|x A IH]; intros [|y B] [|a] HA HB; simpl in *;
    try discriminate.
  - injection HA as <-. injection HB as <-. reflexivity.
  - apply IH; assumption.
Qed.

Lemma concatenate1_cols (A B : list (list R)) (c1 c2 : nat) :
  Forall (fun row => length row = c1) A ->
  Forall (fun row => length row = c2) B ->
  Forall (fun row => length row = (c1 + c2)%nat) (np.concatenate1 A B).
Proof.
  intros HA. revert B. induction HA as [|ra A Hra HA IH]; intros B HB; simpl;
    [constructor |].
  destruct HB as [|rb B Hrb HB]; [constructor |].
  constructor; [rewrite length_app; lia | apply IH; exact HB].
Qed.

(** The stages of [System.__init__]: the neuron parameters, the object
    after the first external arrival times are drawn, and the two blocks of
    the weight matrix with the draws they start from. *)
Lemma System_init_parts (U : nat -> R) (N0 : list nat) (J_int : list (list R))
      (I gamma : list R) (K tau0 : R) (N_ext0 : list nat) (J_ext : list (list R))
      (rates0 : list R) (s : System) :
  System_init U N0 J_int I gamma K tau0 N_ext0 J_ext rates0 = Ok s ->
  exists Ig s1 s2 s3 W_int W_ext,
    fill_I_gamma N0 I gamma = Ok Ig /\
    get_initial_ISI U (blank N0 N_ext0 tau0 Ig rates0) = Ok s1 /\
    create_matrix U N0 J_int K (create_phases U s1) = Ok (W_int, s2) /\
    create_matrix U N_ext0 J_ext K s2 = Ok (W_ext, s3) /\
    s = set_weight_matrix s3 (np.concatenate1 W_int W_ext) /\
    redrawn (blank N0 N_ext0 tau0 Ig rates0) s1 /\
    rng s1 = np.sum N_ext0 /\
    length (external_events s1) = np.sum N_ext0 /\
    s2 = set_rng (create_phases U s1) (np.sum N_ext0 + np.sum N0
                                       + np.sum N0 * np.sum N0) /\
    s3 = set_rng s2 (np.sum N_ext0 + np.sum N0 + np.sum N0 * np.sum N0
                     + np.sum N0 * np.sum N_ext0).
Proof.
  unfold System_init. intros H.
  destruct (fill_I_gamma N0 I gamma) as [Ig | e]; simpl in H; [| discriminate].
  fold (blank N0 N_ext0 tau0 Ig rates0) in H.
  match type of H with
  | bind ?m _ = _ => destruct m as [s1 | e] eqn:E0; simpl in H; [| discriminate]
  end.
  unfold create_weight_matrix, create_ext_weight_matrix in H.
  match type of H with
  | bind ?m _ = _ => destruct m as [[W_int s2] | e] eqn:E1; simpl in H; [| discriminate]
  end.
  match type of H with
  | bind ?m _ = _ => destruct m as [[W_ext s3] | e] eqn:E2; simpl in H; [| discriminate]
  end.
  injection H as <-.
  assert (Hones : length (external_events (blank N0 N_ext0 tau0 Ig rates0)) =
                  np.sum (N_ext (blank N0 N_ext0 tau0 Ig rates0))).
  { simpl. unfold np.ones. apply repeat_length. }
  destruct (get_initial_ISI_spec U _ s1 Hones E0) as (Hre & Hrng & Hl & _).
  pose proof Hre as (A1 & A2 & _).
  simpl in A1, A2, Hrng, Hl.
  pose proof (create_matrix_rows _ _ _ _ _ _ _ E1) as (_ & Es2).
  pose proof (create_matrix_rows _ _ _ _ _ _ _ E2) as (_ & Es3).
  assert (HN1 : N (create_phases U s1) = N0) by (simpl; exact A1).
  assert (HNe2 : N_ext s2 = N_ext0) by (rewrite Es2; simpl; exact A2).
  assert (HN2 : N s2 = N0) by (rewrite Es2; simpl; exact A1).
  rewrite HN1 in E1. rewrite HNe2 in E2.
  exists Ig, s1, s2, s3, W_int, W_ext.
  split; [reflexivity |]. split; [exact E0 |]. split; [exact E1 |].
  split; [exact E2 |]. split; [reflexivity |].
  split; [exact Hre |]. split; [exact Hrng |]. split; [exact Hl |].
  split.
  - rewrite Es2. simpl. rewrite A1, Hrng. reflexivity.
  - rewrite Es3. rewrite HN2, HNe2. f_equal.
    rewrite Es2. simpl. rewrite A1, Hrng. reflexivity.
Qed.

(** ** The constructed object *)

Lemma connect_bernoulli (p_i x : R) :
  0 <= x < 1 -> 0 < p_i <= 1 ->
  connect p_i x = if np.Rltb x p_i then 1 else 0.
Proof.
  intros Hx Hp. unfold connect.
  destruct (Rlt_dec x p_i) as [Hlt | Hge].
  - rewrite Rltb_true by exact Hlt.
    rewrite (astype_int_nonneg _ 0%Z); lra.
  - rewrite Rltb_false by lra.
    rewrite (astype_int_nonneg _ 1%Z); lra.
Qed.

Lemma connect_none (x : R) : 0 <= x < 1 -> connect 0 x = 0.
Proof.
  intros Hx. unfold connect. rewrite (astype_int_nonneg _ 1%Z); lra.
Qed.

Lemma in_degree_probability (K : R) (n_i a : nat) :
  (a < n_i)%nat -> 0 < K <= INR n_i -> 0 < K / INR n_i <= 1.
Proof.
  intros Ha HK.
  assert (Hn : 0 < INR n_i) by (apply lt_0_INR; lia).
  split.
  - apply Rdiv_lt_0_compat; lra.
  - apply (Rmult_le_reg_r (INR n_i)); [exact Hn |].
    unfold Rdiv. rewrite Rmult_assoc, Rinv_l by lra. lra.
Qed.

(** X8. Every neuron carries the parameters of its population: after
    construction, neuron [j] of population [i] has [I[i]] in row 0 and
    [gamma[i]] in row 1 of [I_gamma]. *)
Theorem neurons_carry_population_parameters (U : nat -> R) (N0 : list nat)
        (J_int : list (list R)) (I gamma : list R) (K tau0 : R)
        (N_ext0 : list nat) (J_ext : list (list R)) (rates0 : list R)
        (s : System) (i n_i j : nat) (I_i gamma_i : R) :
  System_init U N0 J_int I gamma K tau0 N_ext0 J_ext rates0 = Ok s ->
  nth_error N0 i = Some n_i -> (j < n_i)%nat ->
  nth_error I i = Some I_i -> nth_error gamma i = Some gamma_i ->
  nth_error (fst (I_gamma s)) (first_index N0 i + j) = Some I_i /\
  nth_error (snd (I_gamma s)) (first_index N0 i + j) = Some gamma_i.
Proof.
  intros H Hn Hj HI Hg.
  destruct (System_init_parts _ _ _ _ _ _ _ _ _ _ _ H)
    as (Ig & s1 & s2 & s3 & W_int & W_ext & HIg & E0 & _ & _ & Hs & Hre & _ & _
        & Hs2 & Hs3).
  assert (HIgs : I_gamma s = Ig).
  { destruct Hre as (_ & _ & _ & A4 & _).
    rewrite Hs, Hs3, Hs2. simpl. exact A4. }
  rewrite HIgs.
  destruct (fill_I_gamma_sliced N0 I gamma Ig HIg)
    as ((_ & H0 & _) & (_ & H1 & _)).
  pose proof (slice_in_range N0 i n_i Hn) as Hfit.
  assert (Hone : nth_error (np.ones (np.sum N0)) (first_index N0 i + j) = Some 1).
  { unfold np.ones. apply nth_error_repeat. rewrite first_index_eq. lia. }
  assert (Hi : (i < length N0)%nat) by (eapply nth_error_lt; eauto).
  split.
  - rewrite (H0 i n_i j Hi Hn Hj), Hone. simpl.
    rewrite (nth_error_nth I i 0 HI). f_equal. lra.
  - rewrite (H1 i n_i j Hi Hn Hj), Hone. simpl.
    rewrite (nth_error_nth gamma i 0 Hg). f_equal. lra.
Qed.

Lemma neurons_carry_population_parameters_witness :
  nth_error (fst (I_gamma (one 0 (1 / 20) 0 [] (1 / 2)))) (first_index [1%nat] 0 + 0)
  = Some 1 /\
  nth_error (snd (I_gamma (one 0 (1 / 20) 0 [] (1 / 2)))) (first_index [1%nat] 0 + 0)
  = Some 1.
Proof.
  apply (neurons_carry_population_parameters draws_half [1%nat] [[0]] [1] [1] 1
           (1 / 20) [] [] [] (one 0 (1 / 20) 0 [] (1 / 2)) 0 1 0 1 1).
  - apply (build_one_eq 0 (1 / 20)).
  - reflexivity.
  - lia.
  - reflexivity.
  - reflexivity.
Defined.

(** X9. What a successful construction leaves: the clock at 0, an empty
    queue, the phases equal to the draws that follow those of the external
    arrival times, one entry per neuron in both rows of [I_gamma], one
    arrival time per external neuron, a weight matrix with one row per
    internal neuron and one column per internal and external neuron, and
    exactly (N.sum() + 1) * (N.sum() + N_ext.sum()) draws taken. *)
Theorem System_init_shape_and_draws (U : nat -> R) (N0 : list nat)
        (J_int : list (list R)) (I gamma : list R) (K tau0 : R)
        (N_ext0 : list nat) (J_ext : list (list R)) (rates0 : list R)
        (s : System) :
  System_init U N0 J_int I gamma K tau0 N_ext0 J_ext rates0 = Ok s ->
  N s = N0 /\ N_ext s = N_ext0 /\ tau s = tau0 /\ rates s = rates0 /\
  t s = 0 /\ events s = [] /\
  phases s = rand U (np.sum N_ext0) (np.sum N0) /\
  length (fst (I_gamma s)) = np.sum N0 /\
  length (snd (I_gamma s)) = np.sum N0 /\
  length (external_events s) = np.sum N_ext0 /\
  length (weight_matrix s) = np.sum N0 /\
  Forall (fun row => length row = (np.sum N0 + np.sum N_ext0)%nat)
         (weight_matrix s) /\
  rng s = ((np.sum N0 + 1) * (np.sum N0 + np.sum N_ext0))%nat.
Proof.
  intros H.
  destruct (System_init_parts _ _ _ _ _ _ _ _ _ _ _ H)
    as (Ig & s1 & s2 & s3 & W_int & W_ext & HIg & E0 & E1 & E2 & Hs
        & (A1 & A2 & A3 & A4 & A5 & A6 & A7 & A8 & A9) & Hrng1 & Hl & Hs2 & Hs3).
  simpl in A1, A2, A3, A4, A5, A6, A7, A8, A9.
  destruct (fill_I_gamma_shape _ _ _ _ HIg) as (HI0 & HI1).
  destruct (create_matrix_rows _ _ _ _ _ _ _ E1) as (Hr1 & _).
  destruct (create_matrix_rows _ _ _ _ _ _ _ E2) as (Hr2 & _).
  pose proof (create_matrix_cols _ _ _ _ _ _ _ E1) as Hc1.
  pose proof (create_matrix_cols _ _ _ _ _ _ _ E2) as Hc2.
  assert (HN2 : N s2 = N0) by (rewrite Hs2; simpl; exact A1).
  simpl in Hr1. rewrite A1 in Hr1. rewrite HN2 in Hr2.
  rewrite Hs, Hs3, Hs2.
  cbn [N N_ext tau rates t events phases I_gamma external_events weight_matrix rng
       set_weight_matrix set_rng create_phases set_phases].
  rewrite A4, Hrng1, A1.
  repeat (split; [first [assumption | reflexivity] |]).
  split; [| split].
  - rewrite concatenate1_length. lia.
  - apply concatenate1_cols; assumption.
  - lia.
Qed.

Lemma System_init_shape_and_draws_witness :
  N ext0 = [1%nat] /\ N_ext ext0 = [1%nat] /\ tau ext0 = 1 / 20 /\
  rates ext0 = [1] /\ t ext0 = 0 /\ events ext0 = [] /\
  phases ext0 = rand (draws_ext (1 / 2)) (np.sum [1%nat]) (np.sum [1%nat]) /\
  length (fst (I_gamma ext0)) = np.sum [1%nat] /\
  length (snd (I_gamma ext0)) = np.sum [1%nat] /\
  length (external_events ext0) = np.sum [1%nat] /\
  length (weight_matrix ext0) = np.sum [1%nat] /\
  Forall (fun row => length row = (np.sum [1%nat] + np.sum [1%nat])%nat)
         (weight_matrix ext0) /\
  rng ext0 = ((np.sum [1%nat] + 1) * (np.sum [1%nat] + np.sum [1%nat]))%nat.
Proof.
  apply (System_init_shape_and_draws (draws_ext (1 / 2)) [1%nat] [[0]] [1] [1] 1
           (1 / 20) [1%nat] [[2]] [1] ext0).
  apply (build_ext_eq (1 / 2)).
Defined.

(** X10. The weight of the connection from internal neuron [b] of
    population [j] to internal neuron [a] of population [i] is decided by
    one draw [u] of its own and by nothing else: it is
    [(1 - int(u + 1 - K/N[i])) * J_int[i,j]].  For a draw in [0,1) and
    [0 < K <= N[i]] this is [J_int[i,j]] when [u < K/N[i]] and 0 otherwise;
    for [K = 0] it is 0. *)
Theorem internal_weights (U : nat -> R) (N0 : list nat)
        (J_int : list (list R)) (I gamma : list R) (K tau0 : R)
        (N_ext0 : list nat) (J_ext : list (list R)) (rates0 : list R)
        (s : System) (i n_i a j n_j b : nat) (J_i : list R) (J_ij : R) :
  System_init U N0 J_int I gamma K tau0 N_ext0 J_ext rates0 = Ok s ->
  nth_error N0 i = Some n_i -> (a < n_i)%nat ->
  nth_error N0 j = Some n_j -> (b < n_j)%nat ->
  nth_error J_int i = Some J_i -> nth_error J_i j = Some J_ij ->
  exists row w u,
    nth_error (weight_matrix s) (first_index N0 i + a) = Some row /\
    nth_error row (first_index N0 j + b) = Some w /\
    u = U (internal_draw N0 N_ext0 (first_index N0 i + a) (first_index N0 j + b)) /\
    w = connect (K / INR n_i) u * J_ij /\
    (0 <= u < 1 -> 0 < K <= INR n_i ->
     w = if np.Rltb u (K / INR n_i) then J_ij else 0) /\
    (0 <= u < 1 -> K = 0 -> w = 0).
Proof.
  intros H Hn Ha Hnj Hb HJ HJij.
  destruct (System_init_parts _ _ _ _ _ _ _ _ _ _ _ H)
    as (Ig & s1 & s2 & s3 & W_int & W_ext & _ & _ & E1 & E2 & Hs
        & (A1 & _) & Hrng1 & _ & Hs2 & Hs3).
  simpl in A1.
  assert (HN1 : N (create_phases U s1) = N0) by (simpl; exact A1).
  assert (HN2 : N s2 = N0) by (rewrite Hs2; simpl; exact A1).
  destruct (create_matrix_entry U N0 J_int K _ s2 W_int E1 i n_i a j n_j b J_i J_ij)
    as (ra & Hra & Hlra & Hentry); try assumption.
  { rewrite HN1. exact Hn. }
  rewrite HN1 in Hra, Hentry.
  destruct (create_matrix_rows _ _ _ _ _ _ _ E2) as (Hr2 & _).
  rewrite HN2 in Hr2.
  pose proof (slice_in_range N0 i n_i Hn) as Hfit.
  pose proof (slice_in_range N0 j n_j Hnj) as Hfitj.
  destruct (nth_error W_ext (first_index N0 i + a)) as [rb|] eqn:Hrb.
  2:{ apply nth_error_None in Hrb. rewrite first_index_eq in Hrb. lia. }
  eexists. eexists. eexists.
  split.
  { rewrite Hs. simpl. apply nth_error_concatenate1; [exact Hra | exact Hrb]. }
  split.
  { rewrite nth_error_app1 by (rewrite Hlra, first_index_eq; lia). exact Hentry. }
  assert (Hdraw : (rng (create_phases U s1)
                   + (first_index N0 i + a) * np.sum N0
                   + (first_index N0 j + b))%nat
                  = internal_draw N0 N_ext0 (first_index N0 i + a)
                                  (first_index N0 j + b)).
  { unfold internal_draw. simpl. rewrite Hrng1, A1. reflexivity. }
  rewrite Hdraw.
  split; [reflexivity |]. split; [reflexivity |]. split.
  - intros Hu HK.
    rewrite (connect_bernoulli _ _ Hu (in_degree_probability K n_i a Ha HK)).
    destruct (np.Rltb _ _); lra.
  - intros Hu HK. rewrite HK.
    replace (0 / INR n_i) with 0 by (unfold Rdiv; ring).
    rewrite (connect_none _ Hu). lra.
Qed.

Lemma internal_weights_witness :
  exists row w u,
    nth_error (weight_matrix (one 3 (1 / 20) 0 [] (1 / 2)))
              (first_index [1%nat] 0 + 0) = Some row /\
    nth_error row (first_index [1%nat] 0 + 0) = Some w /\
    u = draws_half (internal_draw [1%nat] [] (first_index [1%nat] 0 + 0)
                                  (first_index [1%nat] 0 + 0)) /\
    w = connect (1 / INR 1) u * 3 /\
    (0 <= u < 1 -> 0 < 1 <= INR 1 ->
     w = if np.Rltb u (1 / INR 1) then 3 else 0) /\
    (0 <= u < 1 -> 1 = 0 -> w = 0).
Proof.
  apply (internal_weights draws_half [1%nat] [[3]] [1] [1] 1 (1 / 20) [] [] []
           (one 3 (1 / 20) 0 [] (1 / 2)) 0 1 0 0 1 0 [3] 3).
  - apply (build_one_eq 3 (1 / 20)).
  - reflexivity.
  - lia.
  - reflexivity.
  - lia.
  - reflexivity.
  - reflexivity.
Defined.

(** X11. The weight of the connection from external neuron [b] of external
    population [j] to internal neuron [a] of population [i] is in column
    [N.sum() + b] of row [a], and is decided by one draw [u] of its own:
    [(1 - int(u + 1 - K/N[i])) * J_ext[i,j]], with the size of the internal
    population [i] as the divisor.  For a draw in [0,1) and [0 < K <= N[i]]
    this is [J_ext[i,j]] when [u < K/N[i]] and 0 otherwise. *)
Theorem external_weights (U : nat -> R) (N0 : list nat)
        (J_int : list (list R)) (I gamma : list R) (K tau0 : R)
        (N_ext0 : list nat) (J_ext : list (list R)) (rates0 : list R)
        (s : System) (i n_i a j n_j b : nat) (J_i : list R) (J_ij : R) :
  System_init U N0 J_int I gamma K tau0 N_ext0 J_ext rates0 = Ok s ->
  nth_error N0 i = Some n_i -> (a < n_i)%nat ->
  nth_error N_ext0 j = Some n_j -> (b < n_j)%nat ->
  nth_error J_ext i = Some J_i -> nth_error J_i j = Some J_ij ->
  exists row w u,
    nth_error (weight_matrix s) (first_index N0 i + a) = Some row /\
    nth_error row (np.sum N0 + (first_index N_ext0 j + b)) = Some w /\
    u = U (external_draw N0 N_ext0 (first_index N0 i + a)
                         (first_index N_ext0 j + b)) /\
    w = connect (K / INR n_i) u * J_ij /\
    (0 <= u < 1 -> 0 < K <= INR n_i ->
     w = if np.Rltb u (K / INR n_i) then J_ij else 0).
Proof.
  intros H Hn Ha Hnj Hb HJ HJij.
  destruct (System_init_parts _ _ _ _ _ _ _ _ _ _ _ H)
    as (Ig & s1 & s2 & s3 & W_int & W_ext & _ & _ & E1 & E2 & Hs
        & (A1 & _) & Hrng1 & _ & Hs2 & Hs3).
  simpl in A1.
  assert (HN1 : N (create_phases U s1) = N0) by (simpl; exact A1).
  assert (HN2 : N s2 = N0) by (rewrite Hs2; simpl; exact A1).
  destruct (create_matrix_entry U N_ext0 J_ext K s2 s3 W_ext E2 i n_i a j n_j b
              J_i J_ij) as (rb & Hrb & Hlrb & Hentry); try assumption.
  { rewrite HN2. exact Hn. }
  rewrite HN2 in Hrb, Hentry.
  destruct (create_matrix_rows _ _ _ _ _ _ _ E1) as (Hr1 & _).
  rewrite HN1 in Hr1.
  pose proof (create_matrix_cols _ _ _ _ _ _ _ E1) as Hc1.
  pose proof (slice_in_range N0 i n_i Hn) as Hfit.
  destruct (nth_error W_int (first_index N0 i + a)) as [ra|] eqn:Hra.
  2:{ apply nth_error_None in Hra. rewrite first_index_eq in Hra. lia. }
  assert (Hlra : length ra = np.sum N0).
  { rewrite Forall_forall in Hc1. apply Hc1. eapply nth_error_In. exact Hra. }
  eexists. eexists. eexists.
  split.
  { rewrite Hs. simpl. apply nth_error_concatenate1; [exact Hra | exact Hrb]. }
  split.
  { rewrite nth_error_app2 by lia. rewrite Hlra.
    replace (np.sum N0 + (first_index N_ext0 j + b) - np.sum N0)%nat
      with (first_index N_ext0 j + b)%nat by lia.
    exact Hentry. }
  assert (Hdraw : (rng s2 + (first_index N0 i + a) * np.sum N_ext0
                   + (first_index N_ext0 j + b))%nat
                  = external_draw N0 N_ext0 (first_index N0 i + a)
                                  (first_index N_ext0 j + b)).
  { unfold external_draw. rewrite Hs2. reflexivity. }
  rewrite Hdraw.
  split; [reflexivity |]. split; [reflexivity |].
  intros Hu HK.
  rewrite (connect_bernoulli _ _ Hu (in_degree_probability K n_i a Ha HK)).
  destruct (np.Rltb _ _); lra.
Qed.

Lemma external_weights_witness :
  exists row w u,
    nth_error (weight_matrix ext0) (first_index [1%nat] 0 + 0) = Some row /\
    nth_error row (np.sum [1%nat] + (first_index [1%nat] 0 + 0)) = Some w /\
    u = draws_ext (1 / 2) (external_draw [1%nat] [1%nat] (first_index [1%nat] 0 + 0)
                                         (first_index [1%nat] 0 + 0)) /\
    w = connect (1 / INR 1) u * 2 /\
    (0 <= u < 1 -> 0 < 1 <= INR 1 ->
     w = if np.Rltb u (1 / INR 1) then 2 else 0).
Proof.
  apply (external_weights (draws_ext (1 / 2)) [1%nat] [[0]] [1] [1] 1 (1 / 20)
           [1%nat] [[2]] [1] ext0 0 1 0 0 1 0 [2] 2).
  - apply (build_ext_eq (1 / 2)).
  - reflexivity.
  - lia.
  - reflexivity.
  - lia.
  - reflexivity.
  - reflexivity.
Defined.

(** X12. The first arrival time of external neuron [i] of external
    population [m] is [-(1/rates[m]) * ln(u)] for its own draw [u] (positive,
    so that the logarithm is defined), the draws being taken neuron by
    neuron before any other; with a positive rate and a draw below 1 it
    lies strictly after the start of the run. *)
Theorem first_external_arrivals (U : nat -> R) (N0 : list nat)
        (J_int : list (list R)) (I gamma : list R) (K tau0 : R)
        (N_ext0 : list nat) (J_ext : list (list R)) (rates0 : list R)
        (s : System) (m size i : nat) (r : R) :
  System_init U N0 J_int I gamma K tau0 N_ext0 J_ext rates0 = Ok s ->
  nth_error N_ext0 m = Some size -> (i < size)%nat ->
  nth_error rates0 m = Some r ->
  0 < U (first_index N_ext0 m + i)%nat ->
  nth_error (external_events s) (first_index N_ext0 m + i) =
    Some (0 - 1 / r * ln (U (first_index N_ext0 m + i)%nat)) /\
  (0 < r -> U (first_index N_ext0 m + i)%nat < 1 ->
   0 < 0 - 1 / r * ln (U (first_index N_ext0 m + i)%nat)).
Proof.
  intros H Hm Hi Hr Hu0.
  destruct (System_init_parts _ _ _ _ _ _ _ _ _ _ _ H)
    as (Ig & s1 & s2 & s3 & W_int & W_ext & _ & E0 & _ & _ & Hs & _ & _ & _
        & Hs2 & Hs3).
  assert (Hones : length (external_events (blank N0 N_ext0 tau0 Ig rates0)) =
                  np.sum (N_ext (blank N0 N_ext0 tau0 Ig rates0))).
  { simpl. unfold np.ones. apply repeat_length. }
  destruct (get_initial_ISI_spec U _ s1 Hones E0) as (_ & _ & _ & Hall).
  split.
  - rewrite Hs, Hs3, Hs2. simpl.
    apply (Hall m size i r); assumption.
  - intros Hrpos Hu.
    assert (Hln : ln (U (first_index N_ext0 m + i)%nat) < 0).
    { rewrite <- ln_1. apply ln_increasing; lra. }
    assert (Hinv : 0 < 1 / r) by (apply Rdiv_lt_0_compat; lra).
    nra.
Qed.

Lemma first_external_arrivals_witness :
  nth_error (external_events ext0) (first_index [1%nat] 0 + 0) =
    Some (0 - 1 / 1 * ln (draws_ext (1 / 2) (first_index [1%nat] 0 + 0)%nat)) /\
  (0 < 1 -> draws_ext (1 / 2) (first_index [1%nat] 0 + 0)%nat < 1 ->
   0 < 0 - 1 / 1 * ln (draws_ext (1 / 2) (first_index [1%nat] 0 + 0)%nat)).
Proof.
  apply (first_external_arrivals (draws_ext (1 / 2)) [1%nat] [[0]] [1] [1] 1
           (1 / 20) [1%nat] [[2]] [1] ext0 0 1 0 1).
  - apply (build_ext_eq (1 / 2)).
  - reflexivity.
  - lia.
  - reflexivity.
  - simpl. apply exp_pos.
Defined.

Lemma find_seq_first (p : nat -> bool) (len : nat) :
  forall start x,
    (start <= x < start + len)%nat ->
    (forall k, (start <= k < x)%nat -> p k = false) -> p x = true ->
    find p (seq start len) = Some x.
Proof.
  induction len as [|len IH]; intros start x Hx Hbefore Hp; [lia |].
  simpl. destruct (Nat.eq_dec start x) as [-> | Hne].
  - rewrite Hp. reflexivity.
  - rewrite (Hbefore start) by lia.
    apply IH; [lia | | exact Hp].
    intros k Hk. apply Hbefore. lia.
Qed.

Lemma find_seq_none (p : nat -> bool) (len start : nat) :
  (forall k, (start <= k < start + len)%nat -> p k = false) ->
  find p (seq start len) = None.
Proof.
  revert start. induction len as [|len IH]; intros start H; [reflexivity |].
  simpl. rewrite (H start) by lia. apply IH. intros k Hk. apply H. lia.
Qed.

(** X13. The search for the rate of a spiking external neuron finds the
    population the neuron belongs to: for neuron [i] of external population
    [m] it yields [m] when [rates] has an entry for [m], the same rate the
    first arrival time was drawn with; for an index beyond the populations
    that have a rate it finds nothing. *)
Theorem find_rate_index_population (s : System) (m size i : nat) :
  nth_error (N_ext s) m = Some size -> (i < size)%nat ->
  ((m < length (rates s))%nat ->
   find_rate_index s (first_index (N_ext s) m + i) = Some m) /\
  (forall index,
      (np.sum (firstn (length (rates s)) (N_ext s)) <= index)%nat ->
      find_rate_index s index = None).
Proof.
  intros Hm Hi. unfold find_rate_index. split.
  - intros Hr.
    rewrite (find_seq_first _ (length (rates s)) 1 (S m)).
    + reflexivity.
    + lia.
    + intros k Hk. apply Nat.ltb_ge.
      pose proof (sum_firstn_mono (N_ext s) k m ltac:(lia)).
      rewrite first_index_eq. lia.
    + apply Nat.ltb_lt. rewrite (sum_firstn_S _ _ _ Hm), first_index_eq. lia.
  - intros index Hidx.
    rewrite find_seq_none; [reflexivity |].
    intros k Hk. apply Nat.ltb_ge.
    pose proof (sum_firstn_mono (N_ext s) k (length (rates s)) ltac:(lia)).
    lia.
Qed.

Lemma find_rate_index_population_witness :
  ((0 < length (rates ext0))%nat ->
   find_rate_index ext0 (first_index (N_ext ext0) 0 + 0) = Some 0%nat) /\
  (forall index,
      (np.sum (firstn (length (rates ext0)) (N_ext ext0)) <= index)%nat ->
      find_rate_index ext0 index = None).
Proof.
  apply (find_rate_index_population ext0 0 1 0).
  - reflexivity.
  - lia.
Defined.

(** ** Pending deliveries on any network *)

Lemma fire_spiking (n : nat) (s : System) (mx : R) :
  length (phases s) = n -> np.max (phases s) = Ok mx ->
  Forall (spiking n) (events s) ->
  Forall (spiking n) (events (fire s (Rmax (1 - mx) 0))) /\
  length (phases (fire s (Rmax (1 - mx) 0))) = n.
Proof.
  intros Hlen Hmx HP. rewrite fire_eq. simpl.
  set (dt := Rmax (1 - mx) 0).
  assert (Hdt : 1 - mx <= dt) by (unfold dt; apply Rmax_l).
  split; [| rewrite length_map; exact Hlen].
  apply Forall_app. split; [exact HP |].
  constructor; [| constructor]. unfold spiking. simpl.
  split; [| split].
  - unfold binary. apply Forall_map. apply Forall_forall. intros p _.
    destruct (np.Rleb 1 (p + dt)); auto.
  - rewrite length_map. exact Hlen.
  - destruct (max_spec _ _ Hmx) as (Hin & _).
    apply in_map_iff. exists mx. split; [| exact Hin].
    rewrite Rleb_true by lra. reflexivity.
Qed.

Lemma jump_spiking (U : nat -> R) (n : nat) (s s' : System) :
  jump_to_next_event U s = Ok s' ->
  shaped n s -> Forall (spiking n) (events s) ->
  shaped n s' /\ Forall (spiking n) (events s').
Proof.
  intros H (Hl1 & Hl2 & Hl3 & Hl4) HP.
  pose proof (jump_frame U s s' H) as (_ & _ & _ & HIg & _ & HW & _).
  assert (Hsh : length (phases s') = n -> shaped n s').
  { intros Hp. unfold shaped. rewrite HIg, HW. repeat split; assumption. }
  unfold jump_to_next_event in H.
  destruct (next_delivery s) as [[dt location] | e]; simpl in H; [| discriminate].
  destruct (np.max (phases s)) as [mx | e] eqn:Hmx; simpl in H; [| discriminate].
  destruct (fire_spiking n s mx Hl1 Hmx HP) as (Hfq & Hfl).
  destruct (np.Rltb (1 - mx) dt).
  - injection H as <-. unfold self_threshold_branch.
    cbv zeta. cbn [phases events set_t].
    split; [apply Hsh; cbn [phases events set_t]; exact Hfl | exact Hfq].
  - destruct (np.Reqb (1 - mx) dt).
    + unfold tie_branch in H.
      match type of H with
      | bind ?m _ = _ => destruct m as [[sv s1] | e] eqn:E; simpl in H; [| discriminate]
      end.
      match type of H with
      | bind ?m _ = _ => destruct m as [ph | e] eqn:En; simpl in H; [| discriminate]
      end.
      injection H as <-. simpl.
      pose proof (arrivals_frame _ _ _ _ _ _ _ E) as ((_ & _ & _ & HIg1 & _ & HW1 & _)
                                                       & Hph1 & _).
      rewrite fire_eq in HIg1, HW1. simpl in HIg1, HW1.
      split.
      * apply Hsh. simpl. apply neglect_spec in En.
        apply Forall2_length_eq in En. rewrite <- En.
        rewrite h_length. simpl. unfold epsilon. rewrite dot_length.
        rewrite HIg1, HW1, Hph1, Hfl. lia.
      * eapply arrivals_events; [exact E | exact Hfq].
    + unfold delivery_branch in H.
      match type of H with
      | bind ?m _ = _ => destruct m as [[sv s1] | e] eqn:E; simpl in H; [| discriminate]
      end.
      injection H as <-. simpl.
      pose proof (arrivals_frame _ _ _ _ _ _ _ E) as ((_ & _ & _ & HIg1 & _ & HW1 & _)
                                                       & Hph1 & _).
      simpl in HIg1, HW1, Hph1.
      split.
      * apply Hsh. simpl. rewrite h_length. simpl. unfold epsilon. rewrite dot_length.
        rewrite HIg1, HW1, Hph1, length_map. lia.
      * eapply arrivals_events; [exact E | simpl; exact HP].
Qed.

(** X14. On any network, with or without external input: after any number
    of steps from construction the phase vector has one entry per neuron,
    and every pending delivery carries one indicator, 0 or 1, per internal
    neuron, at least one of them 1. *)
Theorem pending_deliveries_are_spikes (U : nat -> R) (N0 : list nat)
        (J_int : list (list R)) (I gamma : list R) (K tau0 : R)
        (N_ext0 : list nat) (J_ext : list (list R)) (rates0 : list R)
        (k : nat) (s0 sk : System) :
  System_init U N0 J_int I gamma K tau0 N_ext0 J_ext rates0 = Ok s0 ->
  steps U k s0 = Ok sk ->
  length (phases sk) = np.sum N0 /\
  Forall (fun ev => binary (snd ev) /\ length (snd ev) = np.sum N0 /\ In 1 (snd ev))
         (events sk).
Proof.
  intros Hinit Hsteps.
  assert (H0 : shaped (np.sum N0) s0 /\ Forall (spiking (np.sum N0)) (events s0)).
  { destruct (System_init_parts _ _ _ _ _ _ _ _ _ _ _ Hinit)
      as (Ig & s1 & s2 & s3 & W_int & W_ext & HIg & _ & E1 & E2 & Hs
          & (A1 & A2 & A3 & A4 & A5 & A6 & _) & _ & _ & Hs2 & Hs3).
    simpl in A1, A4, A6.
    destruct (fill_I_gamma_shape _ _ _ _ HIg) as (HI0 & HI1).
    destruct (create_matrix_rows _ _ _ _ _ _ _ E1) as (Hr1 & _).
    destruct (create_matrix_rows _ _ _ _ _ _ _ E2) as (Hr2 & _).
    assert (HN2 : N s2 = N0) by (rewrite Hs2; simpl; exact A1).
    simpl in Hr1. rewrite A1 in Hr1. rewrite HN2 in Hr2.
    rewrite Hs, Hs3, Hs2. unfold shaped. simpl.
    rewrite A4, A6, A1, rand_length, concatenate1_length.
    repeat split; try assumption; try lia. constructor. }
  clear Hinit. revert s0 H0 Hsteps.
  induction k as [|k IH]; intros s0 (Hsh & HP) Hsteps; simpl in Hsteps.
  - injection Hsteps as <-. split; [apply Hsh | exact HP].
  - destruct (jump_to_next_event U s0) as [s1 | e] eqn:Hj; simpl in Hsteps;
      [| discriminate].
    apply (IH s1); [| exact Hsteps].
    apply (jump_spiking U _ s0 s1 Hj Hsh HP).
Qed.

Lemma pending_deliveries_are_spikes_witness :
  length (phases (one 0 (1 / 20) (0 + (1 - 1 / 2))
                      [(1 / 20 + 0 + (1 - 1 / 2), [1])] 0)) = np.sum [1%nat] /\
  Forall (fun ev => binary (snd ev) /\ length (snd ev) = np.sum [1%nat] /\
                    In 1 (snd ev))
         (events (one 0 (1 / 20) (0 + (1 - 1 / 2))
                      [(1 / 20 + 0 + (1 - 1 / 2), [1])] 0)).
Proof.
  apply (pending_deliveries_are_spikes draws_half [1%nat] [[0]] [1] [1] 1 (1 / 20)
           [] [] [] 1 (one 0 (1 / 20) 0 [] (1 / 2))).
  - apply (build_one_eq 0 (1 / 20)).
  - simpl. rewrite one_drifts by lra. reflexivity.
Defined.

(** ** The output files *)

Lemma loop_trace_frame (U : nat -> R) (t_end : R) (tr : list System) :
  forall s, loop_trace U t_end s tr -> Forall (fun x => tau x = tau s) tr.
Proof.
  induction tr as [|s' tr IH]; intros s Htr; [constructor |].
  destruct Htr as (_ & Hj & Htr).
  pose proof (jump_frame U s s' Hj) as (_ & _ & Htau & _).
  constructor; [exact Htau |].
  eapply Forall_impl; [| apply (IH s' Htr)].
  intros x Hx. simpl in Hx. congruence.
Qed.

Lemma spike_rows_increase (tau0 : R) (tr : list System) :
  forall lt,
    Forall (fun x => tau x = tau0) tr ->
    StronglySorted Rlt (map (hd 0) (spike_rows lt tr)) /\
    Forall (fun row => lt - tau0 < hd 0 row) (spike_rows lt tr) /\
    (length (spike_rows lt tr) <= length tr)%nat.
Proof.
  induction tr as [|s tr IH]; intros lt Htau; simpl.
  - split; [constructor | split; [constructor | lia]].
  - pose proof (Forall_inv Htau) as Hs. pose proof (Forall_inv_tail Htau) as Htl.
    unfold spike_step.
    destruct (last_event (events s)) as [ev|]; simpl.
    + destruct (np.Rltb lt (fst ev)) eqn:E; simpl.
      * apply Rltb_spec in E.
        destruct (IH (fst ev) Htl) as (Hsorted & Hlow & Hlen).
        split; [| split].
        -- constructor; [exact Hsorted |].
           apply Forall_map. eapply Forall_impl; [| exact Hlow].
           intros row Hrow. simpl in Hrow. lra.
        -- constructor; [simpl; lra |].
           eapply Forall_impl; [| exact Hlow].
           intros row Hrow. simpl in Hrow. lra.
        -- lia.
      * destruct (IH lt Htl) as (Hsorted & Hlow & Hlen).
        split; [exact Hsorted | split; [exact Hlow | lia]].
    + destruct (IH lt Htl) as (Hsorted & Hlow & Hlen).
      split; [exact Hsorted | split; [exact Hlow | lia]].
Qed.

(** X15. The times in the first column of the spike table of a run, read
    back over all its files, are strictly increasing and later than minus
    the delay: a delivery is recorded only when it arrives later than the
    last recorded one, so of several deliveries with one arrival time only
    the first is recorded.  A step records at most one row. *)
Theorem spike_table_times_increase (U : nat -> R) (memory : R)
        (w : WithOutput) (t_end : R) (d : folder) (tr : list System) (fuel : nat) :
  (0 < output_size_of memory (system w))%Z ->
  loop_trace U t_end (system w) tr -> (length tr <= fuel)%nat ->
  exists w' d' c,
    WithOutput_run U memory fuel w t_end d = Returns (w', d') /\
    n_files w' = (n_files w + c)%nat /\
    StronglySorted Rlt (map (hd 0) (read_back spikes_npy (n_files w) c d')) /\
    Forall (fun row => - tau (system w) < hd 0 row)
           (read_back spikes_npy (n_files w) c d') /\
    (length (read_back spikes_npy (n_files w) c d') <= length tr)%nat.
Proof.
  intros Hcap Htr Hfuel.
  destruct (WithOutput_run_spec U memory w t_end d tr fuel Hcap Htr Hfuel)
    as (d' & c & Hrun & _ & HS).
  eexists. exists d', c. split; [exact Hrun |]. split; [reflexivity |].
  rewrite HS.
  destruct (spike_rows_increase (tau (system w)) tr 0
              (loop_trace_frame U t_end tr _ Htr)) as (A & B & C).
  split; [exact A |]. split; [| exact C].
  eapply Forall_impl; [| exact B]. intros row Hrow. simpl in Hrow. lra.
Qed.

Lemma spike_table_times_increase_witness :
  exists w' d' c,
    WithOutput_run draws_half 32 4
      (mkWithOutput (one 2 (1 / 20) 0 [] (1 / 2)) 0) (3 / 5) empty_folder
    = Returns (w', d') /\
    n_files w' = (n_files (mkWithOutput (one 2 (1 / 20) 0 [] (1 / 2)) 0) + c)%nat /\
    StronglySorted Rlt (map (hd 0) (read_back spikes_npy 0 c d')) /\
    Forall (fun row => - tau (one 2 (1 / 20) 0 [] (1 / 2)) < hd 0 row)
           (read_back spikes_npy 0 c d') /\
    (length (read_back spikes_npy 0 c d') <= length recorded_run)%nat.
Proof.
  apply (spike_table_times_increase draws_half 32
           (mkWithOutput (one 2 (1 / 20) 0 [] (1 / 2)) 0) (3 / 5) empty_folder
           recorded_run 4).
  - simpl. rewrite output_size_32. lia.
  - apply recorded_run_trace.
  - simpl. lia.
Defined.

Lemma record_layout (cap n0 steps : nat) (accP accS : list (list R)) (lt : R)
      (nf : nat) (b : buffers) (d0 d : folder) (s : System)
      (nf' : nat) (b' : buffers) (d' : folder) :
  buffered cap n0 accP accS lt nf b d ->
  layout cap n0 steps nf b d0 d ->
  record cap (mkWithOutput s nf) b d = Ok (mkWithOutput s nf', b', d') ->
  layout cap n0 (S steps) nf' b' d0 d'.
Proof.
  intros (Hi & Hout & Hsp & Hisp & Hn0 & Hlt & HP & HS) (Lsteps & _ & Lfiles & Lrest).
  destruct b as [out sp i0 isp l]. simpl in *. subst l.
  assert (Hspike : exists sp' isp' lt',
             (match last_event (events s) with
              | None => Ok (mkBuffers out sp i0 isp lt)
              | Some ev =>
                  if np.Rltb lt (fst ev) then
                    sp1 <- set_row isp ((fst ev - tau s) :: snd ev) sp ;;
                    Ok (mkBuffers out sp1 i0 (S isp) (fst ev))
                  else Ok (mkBuffers out sp i0 isp lt)
              end) = Ok (mkBuffers out sp' i0 isp' lt')).
  { destruct (last_event (events s)) as [ev|].
    - destruct (np.Rltb lt (fst ev)).
      + rewrite set_row_ok by lia. simpl. eexists. eexists. eexists. reflexivity.
      + eexists. eexists. eexists. reflexivity.
    - eexists. eexists. eexists. reflexivity. }
  destruct Hspike as (sp' & isp' & lt' & Hrec).
  unfold record.
  cbn [system n_files outputs spikes i i_spike last_t].
  rewrite Hrec. cbn [bind outputs spikes i i_spike last_t].
  rewrite set_row_ok by lia. cbn [bind outputs spikes i i_spike last_t].
  destruct (Nat.eqb_spec (S i0) cap) as [Hfull | Hroom]; intros H;
    injection H as <- <- <-; unfold layout; cbn [i].
  - split; [| split; [lia | split]].
    + replace (S nf - n0)%nat with (S (nf - n0)) by lia. simpl. lia.
    + intros k Hk. unfold np_save. cbn [file_eqb].
      destruct (Nat.eqb_spec k nf) as [-> | Hne].
      * eexists. split; [reflexivity |]. rewrite set_at_length. exact Hout.
      * apply Lfiles. lia.
    + intros k Hk. unfold np_save. cbn [file_eqb].
      replace (k =? nf)%nat with false by (symmetry; apply Nat.eqb_neq; lia).
      apply Lrest. lia.
  - split; [lia | split; [lia | split; [exact Lfiles | exact Lrest]]].
Qed.

Lemma output_loop_layout (U : nat -> R) (cap n0 : nat) (t_end : R) (d0 : folder)
      (tr : list System) :
  forall (fuel : nat) (s : System) (nf : nat) (b : buffers) (d : folder)
         (accP accS : list (list R)) (lt : R) (steps : nat)
         (w' : WithOutput) (b' : buffers) (d' : folder),
    loop_trace U t_end s tr -> (length tr <= fuel)%nat ->
    buffered cap n0 accP accS lt nf b d ->
    layout cap n0 steps nf b d0 d ->
    output_loop U fuel cap t_end (mkWithOutput s nf) b d = Returns (w', b', d') ->
    layout cap n0 (steps + length tr) (n_files w') b' d0 d' /\
    (i b' < cap)%nat /\ length (outputs b') = cap.
Proof.
  induction tr as [|s' tr IH];
    intros fuel s nf b d accP accS lt steps w' b' d' Htr Hfuel Hb Hl Hloop.
  - simpl in Htr.
    assert (E : output_loop U fuel cap t_end (mkWithOutput s nf) b d
                = Returns (mkWithOutput s nf, b, d)).
    { destruct fuel; simpl; rewrite Rltb_false by exact Htr; reflexivity. }
    rewrite E in Hloop. injection Hloop as <- <- <-.
    simpl. rewrite Nat.add_0_r. split; [exact Hl |].
    destruct Hb as (Hi & Hout & _). split; assumption.
  - destruct Htr as (Hlt & Hj & Htr).
    destruct fuel as [|fuel]; [simpl in Hfuel; lia |].
    simpl in Hfuel. cbn [output_loop system n_files] in Hloop.
    rewrite Rltb_true in Hloop by exact Hlt.
    rewrite Hj in Hloop. cbn [bind system n_files] in Hloop.
    destruct (record_buffered cap n0 accP accS lt nf b d s' Hb)
      as (nf1 & b1 & d1 & Hrec & Hb1).
    pose proof (record_layout cap n0 steps accP accS lt nf b d0 d s' nf1 b1 d1
                  Hb Hl Hrec) as Hl1.
    rewrite Hrec in Hloop.
    replace (steps + length (s' :: tr))%nat with (S steps + length tr)%nat
      by (simpl; lia).
    apply (IH fuel s' nf1 b1 d1 _ _ _ (S steps) w' b' d' Htr ltac:(lia) Hb1 Hl1 Hloop).
Qed.

(** X16. How a run lays out its phase files.  With tables of [cap] rows
    and a run of [n] steps that starts with file counter [n0]: the files
    [n0], ..., [n0 + n/cap - 1] hold [cap] rows each, the file
    [n0 + n/cap], written on return, holds the remaining [n mod cap] rows
    (none when [cap] divides [n], and the file is written all the same), the
    file counter ends at [n0 + n/cap + 1], and no phase or spike file with
    another number is touched, so that a second run of the object leaves the
    files of the first in place. *)
Theorem phase_files_layout (U : nat -> R) (memory : R) (w : WithOutput)
        (t_end : R) (d : folder) (tr : list System) (fuel : nat) :
  (0 < output_size_of memory (system w))%Z ->
  loop_trace U t_end (system w) tr -> (length tr <= fuel)%nat ->
  exists w' d',
    WithOutput_run U memory fuel w t_end d = Returns (w', d') /\
    n_files w' =
      (n_files w + length tr / capacity memory (system w) + 1)%nat /\
    (forall k, (k < length tr / capacity memory (system w))%nat ->
       exists a, d' (phases_npy (n_files w + k)) = Some a /\
                 length a = capacity memory (system w)) /\
    (exists a,
        d' (phases_npy (n_files w + length tr / capacity memory (system w)))
        = Some a /\
        length a = (length tr mod capacity memory (system w))%nat) /\
    (forall k, (k < n_files w \/ n_files w' <= k)%nat ->
               d' (phases_npy k) = d (phases_npy k) /\
               d' (spikes_npy k) = d (spikes_npy k)).
Proof.
  intros Hcap Htr Hfuel. unfold WithOutput_run, capacity.
  destruct (Z.ltb_spec (output_size_of memory (system w)) 0) as [Hneg | _];
    [lia |].
  set (cap := Z.to_nat (output_size_of memory (system w))).
  assert (Hcap0 : (0 < cap)%nat) by (unfold cap; lia).
  set (cols := (np.sum (N (system w)) + 1)%nat).
  set (b0 := mkBuffers (zeros2 cap cols) (zeros2 cap cols) 0 0 0).
  assert (Hb0 : buffered cap (n_files w) [] [] 0 (n_files w) b0 d).
  { unfold buffered, b0. simpl. rewrite zeros2_length, Nat.sub_diag.
    repeat split; auto; lia. }
  assert (Hl0 : layout cap (n_files w) 0 (n_files w) b0 d d).
  { unfold layout, b0. simpl. rewrite Nat.sub_diag.
    split; [reflexivity |]. split; [lia |]. split; [intros; lia |].
    intros k _. split; reflexivity. }
  destruct w as [s nf]. cbn [system n_files] in *.
  destruct (output_loop_spec U cap nf t_end tr fuel s nf b0 d [] [] 0 Htr Hfuel Hb0)
    as (nf' & b' & d' & lt' & Hloop & _).
  destruct (output_loop_layout U cap nf t_end d tr fuel s nf b0 d [] [] 0 0%nat
              _ b' d' Htr Hfuel Hb0 Hl0 Hloop)
    as ((Lsteps & Ln0 & Lfiles & Lrest) & Hi & Hout).
  cbn [n_files] in *. simpl in Lsteps.
  rewrite Hloop. cbn [system n_files].
  assert (Hdiv : (length tr / cap = nf' - nf)%nat).
  { symmetry. apply (Nat.div_unique _ _ _ (i b')); [exact Hi | lia]. }
  assert (Hmod : (length tr mod cap = i b')%nat).
  { symmetry. apply (Nat.mod_unique _ _ (nf' - nf)); [exact Hi | lia]. }
  rewrite Hdiv, Hmod.
  eexists. eexists. split; [reflexivity |]. cbn [n_files].
  split; [lia |]. split; [| split].
  - intros k Hk. unfold np_save. cbn [file_eqb].
    replace (nf + k =? nf')%nat with false by (symmetry; apply Nat.eqb_neq; lia).
    apply Lfiles. lia.
  - replace (nf + (nf' - nf))%nat with nf' by lia.
    unfold np_save. cbn [file_eqb]. rewrite Nat.eqb_refl.
    eexists. split; [reflexivity |]. rewrite length_firstn. lia.
  - intros k Hk. unfold np_save. cbn [file_eqb].
    replace (k =? nf')%nat with false by (symmetry; apply Nat.eqb_neq; lia).
    apply Lrest. lia.
Qed.

Lemma phase_files_layout_witness :
  exists w' d',
    WithOutput_run draws_half 32 4
      (mkWithOutput (one 2 (1 / 20) 0 [] (1 / 2)) 0) (3 / 5) empty_folder
    = Returns (w', d') /\
    n_files w' =
      (0 + length recorded_run / capacity 32 (one 2 (1 / 20) 0 [] (1 / 2)) + 1)%nat /\
    (forall k, (k < length recorded_run
                    / capacity 32 (one 2 (1 / 20) 0 [] (1 / 2)))%nat ->
       exists a, d' (phases_npy (0 + k)) = Some a /\
                 length a = capacity 32 (one 2 (1 / 20) 0 [] (1 / 2))) /\
    (exists a,
        d' (phases_npy (0 + length recorded_run
                            / capacity 32 (one 2 (1 / 20) 0 [] (1 / 2))))
        = Some a /\
        length a = (length recorded_run
                    mod capacity 32 (one 2 (1 / 20) 0 [] (1 / 2)))%nat) /\
    (forall k, (k < 0 \/ n_files w' <= k)%nat ->
               d' (phases_npy k) = empty_folder (phases_npy k) /\
               d' (spikes_npy k) = empty_folder (spikes_npy k)).
Proof.
  apply (phase_files_layout draws_half 32
           (mkWithOutput (one 2 (1 / 20) 0 [] (1 / 2)) 0) (3 / 5) empty_folder
           recorded_run 4).
  - simpl. rewrite output_size_32. lia.
  - apply recorded_run_trace.
  - simpl. lia.
Defined.

(** ** Failures of the construction *)

Lemma for_each_raise_inv {A S : Type} (Inv : S -> Prop) (Q : exn -> Prop)
      (l : list A) (body : A -> S -> result S) :
  (forall a s s', Inv s -> body a s = Ok s' -> Inv s') ->
  (forall a s e, Inv s -> body a s = Raise e -> Q e) ->
  forall s e, Inv s -> for_each l body s = Raise e -> Q e.
Proof.
  intros Hok Hraise. induction l as [|a l IH]; intros s e Hs H; simpl in H.
  - discriminate.
  - destruct (body a s) as [s1 | e1] eqn:E; simpl in H.
    + apply (IH s1 e); [apply (Hok a s s1 Hs E) | exact H].
    + injection H as <-. apply (Hraise a s e1 Hs E).
Qed.

Lemma for_each_raises {A S : Type} (l1 l2 : list A) (a0 : A)
      (body : A -> S -> result S) (e : exn) :
  (forall a s0, In a l1 -> exists s1, body a s0 = Ok s1) ->
  (forall s0, body a0 s0 = Raise e) ->
  forall s, for_each (l1 ++ a0 :: l2) body s = Raise e.
Proof.
  intros Hok Hraise. induction l1 as [|a l1 IH]; intros s; simpl.
  - rewrite Hraise. reflexivity.
  - destruct (Hok a s (or_introl eq_refl)) as (s1 & ->). simpl.
    apply IH. intros b s0 Hb. apply Hok. right. exact Hb.
Qed.

Lemma get_item_raises {A : Type} (l : list A) (k : nat) (e : exn) :
  get_item l k = Raise e -> e = IndexError /\ (length l <= k)%nat.
Proof.
  unfold get_item. destruct (nth_error l k) eqn:E; [discriminate |].
  intros H. injection H as <-. split; [reflexivity |].
  apply nth_error_None. exact E.
Qed.

Lemma get_item_short {A : Type} (l : list A) (k : nat) :
  (length l <= k)%nat -> get_item l k = Raise IndexError.
Proof.
  intros H. unfold get_item. apply nth_error_None in H. rewrite H. reflexivity.
Qed.

Lemma seq_split_at (n m : nat) :
  (m < n)%nat -> seq 0 n = seq 0 m ++ m :: seq (S m) (n - S m).
Proof.
  intros H. replace n with (m + S (n - S m))%nat at 1 by lia.
  rewrite seq_app. reflexivity.
Qed.

Lemma get_initial_ISI_sizes (U : nat -> R) (s s' : System) :
  get_initial_ISI U s = Ok s' -> N s' = N s.
Proof.
  unfold get_initial_ISI.
  apply (for_each_preserves (fun s0 : System => N s0 = N s)); [reflexivity |].
  intros n s0 s1 _ Hs0 Hb. simpl in Hb.
  destruct (get_item (N_ext s0) n) as [size_n|]; simpl in Hb; [| discriminate].
  revert Hb.
  apply (for_each_preserves (fun s0 : System => N s0 = N s)); [exact Hs0 |].
  intros i s2 s3 _ Hs2 Hb.
  destruct (get_item (rates s2) n) as [rate|]; simpl in Hb; [| discriminate].
  unfold get_InterSpikeInterval in Hb.
  destruct (np.Reqb rate 0); simpl in Hb; [discriminate |].
  injection Hb as <-. simpl. exact Hs2.
Qed.

Lemma create_matrix_raises (U : nat -> R) (src : list nat) (J : list (list R))
      (K : R) (s : System) (e : exn) :
  create_matrix U src J K s = Raise e ->
  e = IndexError \/ (e = ZeroDivisionError /\ In 0%nat (N s)).
Proof.
  unfold create_matrix. cbv zeta. intros H.
  match type of H with
  | bind (for_each ?l ?b ?r0) _ = _ =>
      destruct (for_each l b r0) as [r | e1] eqn:E; simpl in H; [discriminate |]
  end.
  injection H as <-. revert E.
  apply (for_each_raise_inv
           (fun _ : list (list R) => True)
           (fun e => e = IndexError \/ (e = ZeroDivisionError /\ In 0%nat (N s))));
    [auto | | exact Logic.I].
  intros i r1 ex _ Hb. simpl in Hb.
  destruct (get_item (N s) i) as [n_i|e2] eqn:En; simpl in Hb.
  - destruct (float_div K n_i) as [p_i|e7] eqn:Ep; cbn [bind] in Hb.
    + left. revert Hb.
      apply (for_each_raise_inv (fun _ : list (list R) => True)
                                (fun e => e = IndexError)); [auto | | exact Logic.I].
      intros j r2 e3 _ Hb.
      destruct (get_item src j) as [n_j|e4] eqn:Ej; simpl in Hb;
        [| injection Hb as <-; apply (get_item_raises _ _ _ Ej)].
      destruct (get_item J i) as [J_i|e5] eqn:EJ; simpl in Hb;
        [| injection Hb as <-; apply (get_item_raises _ _ _ EJ)].
      destruct (get_item J_i j) as [J_ij|e6] eqn:EJij; simpl in Hb;
        [discriminate | injection Hb as <-; apply (get_item_raises _ _ _ EJij)].
    + injection Hb as <-. right.
      destruct (float_div_raises _ _ _ Ep) as (-> & ->).
      split; [reflexivity |].
      apply get_item_Ok in En. eapply nth_error_In. exact En.
  - injection Hb as <-. left. apply (get_item_raises _ _ _ En).
Qed.

(** X17. The only exceptions a construction raises are IndexError and
    ZeroDivisionError (there is no validation error), and ZeroDivisionError
    only when one of the given rates is zero or one of the internal
    populations is empty. *)
Theorem System_init_raises_only (U : nat -> R) (N0 : list nat)
        (J_int : list (list R)) (I gamma : list R) (K tau0 : R)
        (N_ext0 : list nat) (J_ext : list (list R)) (rates0 : list R) (e : exn) :
  System_init U N0 J_int I gamma K tau0 N_ext0 J_ext rates0 = Raise e ->
  e = IndexError \/
  (e = ZeroDivisionError /\ (In 0 rates0 \/ In 0%nat N0)).
Proof.
  unfold System_init. intros H.
  destruct (fill_I_gamma N0 I gamma) as [Ig | e1] eqn:E0; simpl in H.
  2:{ injection H as <-. left. revert E0. unfold fill_I_gamma.
      apply (for_each_raise_inv (fun _ : list R * list R => True)
                                (fun e => e = IndexError)); [auto | | exact Logic.I].
      intros i [row0 row1] e2 _ Hb.
      destruct (get_item N0 i) as [n_i|e3] eqn:En; simpl in Hb;
        [| injection Hb as <-; apply (get_item_raises _ _ _ En)].
      destruct (get_item I i) as [I_i|e4] eqn:EI; simpl in Hb;
        [| injection Hb as <-; apply (get_item_raises _ _ _ EI)].
      destruct (get_item gamma i) as [g_i|e5] eqn:Eg; simpl in Hb;
        [discriminate | injection Hb as <-; apply (get_item_raises _ _ _ Eg)]. }
  fold (blank N0 N_ext0 tau0 Ig rates0) in H.
  match type of H with
  | bind ?m _ = _ => destruct m as [s1 | e1] eqn:E1; simpl in H
  end.
  2:{ injection H as <-.
      assert (Hrate : e1 = IndexError \/ (e1 = ZeroDivisionError /\ In 0 rates0));
        [| destruct Hrate as [-> | (-> & Hin)]; [left | right]; auto].
      revert E1. unfold get_initial_ISI.
      apply (for_each_raise_inv (fun s : System => rates s = rates0)
               (fun e => e = IndexError \/ (e = ZeroDivisionError /\ In 0 rates0)));
        [| | reflexivity].
      - intros n s0 s1 Hs0 Hb. simpl in Hb.
        destruct (get_item (N_ext s0) n) as [size_n|]; simpl in Hb; [| discriminate].
        revert Hb.
        apply (for_each_preserves (fun s : System => rates s = rates0));
          [exact Hs0 |].
        intros i s2 s3 _ Hs2 Hb.
        destruct (get_item (rates s2) n) as [rate|]; simpl in Hb; [| discriminate].
        unfold get_InterSpikeInterval in Hb.
        destruct (np.Reqb rate 0); simpl in Hb; [discriminate |].
        injection Hb as <-. simpl. exact Hs2.
      - intros n s0 e2 Hs0 Hb. simpl in Hb.
        destruct (get_item (N_ext s0) n) as [size_n|e3] eqn:En; simpl in Hb;
          [| injection Hb as <-; left; apply (get_item_raises _ _ _ En)].
        revert Hb.
        apply (for_each_raise_inv (fun s : System => rates s = rates0)
                 (fun e => e = IndexError \/ (e = ZeroDivisionError /\ In 0 rates0)));
          [| | exact Hs0].
        + intros i s2 s3 Hs2 Hb.
          destruct (get_item (rates s2) n) as [rate|]; simpl in Hb; [| discriminate].
          unfold get_InterSpikeInterval in Hb.
          destruct (np.Reqb rate 0); simpl in Hb; [discriminate |].
          injection Hb as <-. simpl. exact Hs2.
        + intros i s2 e4 Hs2 Hb.
          destruct (get_item (rates s2) n) as [rate|e5] eqn:Er; simpl in Hb;
            [| injection Hb as <-; left; apply (get_item_raises _ _ _ Er)].
          unfold get_InterSpikeInterval in Hb.
          destruct (np.Reqb rate 0) eqn:E0r; simpl in Hb; [| discriminate].
          injection Hb as <-. right. split; [reflexivity |].
          apply Reqb_spec in E0r. subst rate.
          apply get_item_Ok in Er. rewrite Hs2 in Er.
          eapply nth_error_In. exact Er. }
  assert (HN1 : N s1 = N0).
  { apply (get_initial_ISI_sizes U _ _ E1). }
  unfold create_weight_matrix, create_ext_weight_matrix in H.
  match type of H with
  | bind ?m _ = _ => destruct m as [[W_int s2] | e1] eqn:E2; simpl in H
  end.
  2:{ injection H as <-.
      destruct (create_matrix_raises _ _ _ _ _ _ E2) as [-> | (-> & Hin)];
        [left; reflexivity |].
      right. split; [reflexivity |]. right.
      simpl in Hin. rewrite HN1 in Hin. exact Hin. }
  match type of H with
  | bind ?m _ = _ => destruct m as [[W_ext s3] | e1] eqn:E3; simpl in H
  end.
  - discriminate.
  - injection H as <-.
    destruct (create_matrix_raises _ _ _ _ _ _ E3) as [-> | (-> & Hin)];
      [left; reflexivity |].
    right. split; [reflexivity |]. right.
    destruct (create_matrix_rows _ _ _ _ _ _ _ E2) as (_ & ->).
    simpl in Hin. rewrite HN1 in Hin. exact Hin.
Qed.

Lemma System_init_raises_only_witness :
  ZeroDivisionError = IndexError \/
  (ZeroDivisionError = ZeroDivisionError /\ (In 0 [1] \/ In 0%nat [0%nat])).
Proof.
  apply (System_init_raises_only draws_half [0%nat] [[0]] [1] [1] 1 (1 / 20)
           [] [] [1] ZeroDivisionError).
  reflexivity.
Defined.

(** X18. A construction with fewer entries in [I] or in [gamma] than there
    are populations raises IndexError. *)
Theorem System_init_short_parameters (U : nat -> R) (N0 : list nat)
        (J_int : list (list R)) (I gamma : list R) (K tau0 : R)
        (N_ext0 : list nat) (J_ext : list (list R)) (rates0 : list R) :
  (length I < length N0)%nat \/ (length gamma < length N0)%nat ->
  System_init U N0 J_int I gamma K tau0 N_ext0 J_ext rates0 = Raise IndexError.
Proof.
  intros Hshort. unfold System_init.
  assert (E : fill_I_gamma N0 I gamma = Raise IndexError).
  { unfold fill_I_gamma.
    set (m := Nat.min (length I) (length gamma)).
    assert (Hm : (m < length N0)%nat) by (unfold m; lia).
    rewrite (seq_split_at (length N0) m Hm).
    apply for_each_raises.
    - intros i [row0 row1] Hi. apply in_seq in Hi.
      destruct (get_item_ok N0 i) as (n_i & -> & _); [lia |].
      destruct (get_item_ok I i) as (I_i & -> & _); [unfold m in Hi; lia |].
      destruct (get_item_ok gamma i) as (g_i & -> & _); [unfold m in Hi; lia |].
      simpl. eexists. reflexivity.
    - intros [row0 row1].
      destruct (get_item_ok N0 m) as (n_i & -> & _); [lia |]. simpl.
      destruct (Nat.le_gt_cases (length I) m) as [HI | HI].
      + rewrite (get_item_short I m HI). reflexivity.
      + destruct (get_item_ok I m HI) as (I_i & -> & _). simpl.
        rewrite (get_item_short gamma m); [reflexivity | unfold m in *; lia]. }
  rewrite E. reflexivity.
Qed.

Lemma System_init_short_parameters_witness :
  System_init draws_half [1%nat] [[0]] [] [1] 1 (1 / 20) [] [] [1]
  = Raise IndexError.
Proof.
  apply (System_init_short_parameters draws_half [1%nat] [[0]] [] [1] 1 (1 / 20)
           [] [] [1]).
  left. simpl. lia.
Defined.

Lemma for_each_stalls {A S : Type} (l1 l2 : list A) (a0 : A)
      (body : A -> S -> result S) (s : S) (e : exn) :
  (forall a, In a l1 -> body a s = Ok s) ->
  body a0 s = Raise e ->
  for_each (l1 ++ a0 :: l2) body s = Raise e.
Proof.
  intros Hok Hraise. induction l1 as [|a l1 IH]; simpl.
  - rewrite Hraise. reflexivity.
  - rewrite (Hok a (or_introl eq_refl)). simpl.
    apply IH. intros b Hb. apply Hok. right. exact Hb.
Qed.

(** X19. With enough entries in [I] and [gamma], the construction fails at
    the first external population that is not empty when that population has
    no rate (IndexError) or the rate 0 (ZeroDivisionError): the rate is
    divided by before anything is checked. *)
Theorem System_init_bad_rate (U : nat -> R) (N0 : list nat)
        (J_int : list (list R)) (I gamma : list R) (K tau0 : R)
        (N_ext0 : list nat) (J_ext : list (list R)) (rates0 : list R) (m : nat) :
  covers I (length N0) -> covers gamma (length N0) ->
  first_nonempty N_ext0 m ->
  nth_error rates0 m = None \/ nth_error rates0 m = Some 0 ->
  System_init U N0 J_int I gamma K tau0 N_ext0 J_ext rates0 =
  Raise (match nth_error rates0 m with
         | None => IndexError
         | Some _ => ZeroDivisionError
         end).
Proof.
  intros HI Hg (Hempty & size & Hsize & Hpos) Hrate. unfold System_init.
  destruct (fill_I_gamma_ok N0 I gamma HI Hg) as (Ig & ->). simpl.
  fold (blank N0 N_ext0 tau0 Ig rates0).
  assert (Hm : (m < length N_ext0)%nat) by (eapply nth_error_lt; eauto).
  assert (E : get_initial_ISI U (blank N0 N_ext0 tau0 Ig rates0) =
              Raise (match nth_error rates0 m with
                     | None => IndexError
                     | Some _ => ZeroDivisionError
                     end)).
  { unfold get_initial_ISI. cbn [N_ext blank].
    rewrite (seq_split_at (length N_ext0) m Hm).
    apply for_each_stalls.
    - intros n Hn. apply in_seq in Hn. cbn [N_ext blank].
      unfold get_item. rewrite (Hempty n) by lia. reflexivity.
    - cbn [N_ext blank]. unfold get_item at 1. rewrite Hsize. cbn [bind].
      destruct size as [|size]; [lia |]. cbn [seq for_each].
      cbn [rates blank]. unfold get_item.
      destruct Hrate as [-> | ->]; cbn [bind]; [reflexivity |].
      unfold get_InterSpikeInterval. rewrite Reqb_true by reflexivity.
      reflexivity. }
  rewrite E. reflexivity.
Qed.

Lemma System_init_bad_rate_witness :
  System_init draws_half [1%nat] [[0]] [1] [1] 1 (1 / 20) [0%nat; 2%nat] [[0; 0]]
              [1; 0]
  = Raise (match nth_error [1; 0] 1 with
           | None => IndexError
           | Some _ => ZeroDivisionError
           end).
Proof.
  apply (System_init_bad_rate draws_half [1%nat] [[0]] [1] [1] 1 (1 / 20)
           [0%nat; 2%nat] [[0; 0]] [1; 0] 1).
  - unfold covers. simpl. lia.
  - unfold covers. simpl. lia.
  - split.
    + intros m' Hm'. destruct m' as [|m']; [reflexivity | lia].
    + exists 2%nat. split; [reflexivity | lia].
  - right. reflexivity.
Defined.

(** ** External arrivals during a step *)

Lemma external_spikes_untouched (U : nat -> R) (default : option nat)
      (indices : list nat) :
  forall (s s' : System) (v v' : list R) (j : nat),
    external_spikes U default indices s v = Ok (v', s') ->
    ~ In j indices ->
    nth_error (external_events s') j = nth_error (external_events s) j.
Proof.
  induction indices as [|index rest IH]; intros s s' v v' j H Hj; simpl in H.
  - injection H as _ <-. reflexivity.
  - match type of H with
    | bind ?m _ = _ => destruct m as [rate | e]; simpl in H; [| discriminate]
    end.
    unfold get_InterSpikeInterval in H.
    destruct (np.Reqb rate 0); simpl in H; [discriminate |].
    rewrite (IH _ _ _ _ j H) by (intros Hin; apply Hj; right; exact Hin).
    simpl. apply nth_error_set_at_neq.
    intros ->. apply Hj. left. reflexivity.
Qed.

Lemma where_length (p : R -> bool) (a : list R) :
  length (np.where_ p a) = length (filter p a).
Proof.
  unfold np.where_. generalize 0%nat.
  induction a as [|x a IH]; intros i; simpl; [reflexivity |].
  destruct (p x); simpl; rewrite IH; reflexivity.
Qed.

Lemma arrivals_external (U : nat -> R) (default3 : option nat) (location : nat)
      (dt : R) (s s' : System) (sv : list R) (j : nat) (x : R) :
  arrivals U default3 location dt s = Ok (sv, s') ->
  (nth_error (external_events s) j = Some x -> x <> t s + dt ->
   nth_error (external_events s') j = Some x) /\
  (rng s' <= rng s + length (filter (fun y => np.Reqb y (t s + dt))
                                    (external_events s)))%nat.
Proof.
  intros H. unfold arrivals in H.
  assert (Hnot : nth_error (external_events s) j = Some x -> x <> t s + dt ->
                 ~ In j (np.where_ (fun y => np.Reqb y (t s + dt))
                                   (external_events s))).
  { intros Hx Hne Hin. apply In_where in Hin. destruct Hin as (y & Hy & Hp).
    rewrite Hx in Hy. injection Hy as <-. apply Reqb_spec in Hp. contradiction. }
  destruct location as [|[|[|[|location]]]]; try discriminate.
  - unfold pop_event in H. destruct (events s) as [|ev rest] eqn:E; simpl in H;
      [discriminate |].
    injection H as _ <-. simpl. split; [auto | lia].
  - match type of H with
    | bind ?m _ = _ => destruct m as [[v s1] | e] eqn:E; simpl in H; [| discriminate]
    end.
    injection H as _ <-.
    pose proof (external_spikes_frame _ _ _ _ _ _ _ E) as (_ & _ & _ & Hrng).
    rewrite where_length in Hrng. split; [| lia].
    intros Hx Hne.
    rewrite (external_spikes_untouched _ _ _ _ _ _ _ j E (Hnot Hx Hne)). exact Hx.
  - match type of H with
    | bind ?m _ = _ => destruct m as [[v s1] | e] eqn:E; simpl in H; [| discriminate]
    end.
    pose proof (external_spikes_frame _ _ _ _ _ _ _ E) as (_ & _ & _ & Hrng).
    rewrite where_length in Hrng.
    unfold pop_event in H. destruct (events s1) as [|ev rest] eqn:E1; simpl in H;
      [discriminate |].
    injection H as _ <-. simpl. split; [| lia].
    intros Hx Hne.
    rewrite (external_spikes_untouched _ _ _ _ _ _ _ j E (Hnot Hx Hne)). exact Hx.
Qed.

(** X20. An external arrival time is replaced only by the step that moves
    the clock onto it: after any step, on any network, every arrival time
    that differs from the new clock is the one it was, and the step has
    taken at most one draw for each arrival time equal to the new clock. *)
Theorem external_arrivals_wait (U : nat -> R) (s s' : System) :
  jump_to_next_event U s = Ok s' ->
  (forall j x, nth_error (external_events s) j = Some x -> x <> t s' ->
               nth_error (external_events s') j = Some x) /\
  (rng s' <= rng s + length (filter (fun y => np.Reqb y (t s'))
                                    (external_events s)))%nat.
Proof.
  intros H. unfold jump_to_next_event in H.
  destruct (next_delivery s) as [[dt location] | e]; simpl in H; [| discriminate].
  destruct (np.max (phases s)) as [mx | e]; simpl in H; [| discriminate].
  destruct (np.Rltb (1 - mx) dt).
  - injection H as <-. rewrite self_threshold_branch_eq. simpl.
    split; [auto | lia].
  - destruct (np.Reqb (1 - mx) dt).
    + unfold tie_branch in H.
      match type of H with
      | bind ?m _ = _ => destruct m as [[sv s1] | e] eqn:E; simpl in H; [| discriminate]
      end.
      match type of H with
      | bind ?m _ = _ => destruct m as [ph | e]; simpl in H; [| discriminate]
      end.
      injection H as <-.
      pose proof (arrivals_frame _ _ _ _ _ _ _ E) as (_ & _ & Ht1).
      rewrite fire_eq in E, Ht1. cbn [t set_t set_phases] in Ht1 |- *.
      cbn [external_events rng set_t set_phases].
      rewrite Ht1. split.
      * intros j x Hx Hne.
        apply (proj1 (arrivals_external _ _ _ _ _ _ _ j x E)); assumption.
      * apply (proj2 (arrivals_external _ _ _ _ _ _ _ 0%nat 0 E)).
    + unfold delivery_branch in H.
      match type of H with
      | bind ?m _ = _ => destruct m as [[sv s1] | e] eqn:E; simpl in H; [| discriminate]
      end.
      injection H as <-.
      pose proof (arrivals_frame _ _ _ _ _ _ _ E) as (_ & _ & Ht1).
      cbn [t set_t set_phases] in Ht1 |- *.
      cbn [external_events rng set_t set_phases].
      rewrite Ht1. split.
      * intros j x Hx Hne.
        apply (proj1 (arrivals_external _ _ _ _ _ _ _ j x E)); assumption.
      * apply (proj2 (arrivals_external _ _ _ _ _ _ _ 0%nat 0 E)).
Qed.

Lemma external_arrivals_wait_witness :
  (forall j x, nth_error (external_events ext0) j = Some x ->
               x <> t (ext1 (1 / 2)) ->
               nth_error (external_events (ext1 (1 / 2))) j = Some x) /\
  (rng (ext1 (1 / 2)) <=
   rng ext0 + length (filter (fun y => np.Reqb y (t (ext1 (1 / 2))))
                             (external_events ext0)))%nat.
Proof.
  apply (external_arrivals_wait (draws_ext (1 / 2)) ext0 (ext1 (1 / 2))).
  apply step_ext0.
Defined.

(** ** Uncoupled neurons *)

Lemma dot_row_zero (row v : list R) :
  Forall (fun w => w = 0) row -> np.dot_row row v = 0.
Proof.
  unfold np.dot_row. intros H. revert v.
  induction H as [|w row Hw Hrow IH]; intros v; [reflexivity |].
  destruct v as [|x v]; [reflexivity |]. simpl. rewrite IH, Hw. lra.
Qed.

Lemma epsilon_uncoupled (s : System) (v : list R) :
  uncoupled s -> epsilon s v = np.zeros (length (weight_matrix s)).
Proof.
  unfold uncoupled, epsilon, np.dot, np.zeros. intros H.
  induction H as [|row W Hrow HW IH]; [reflexivity |].
  simpl. rewrite IH, (dot_row_zero row v Hrow). reflexivity.
Qed.

Lemma h_no_jump (s : System) :
  length (fst (I_gamma s)) = length (phases s) ->
  length (snd (I_gamma s)) = length (phases s) ->
  Forall (fun gamma_k => 0 < gamma_k) (snd (I_gamma s)) ->
  h s (np.zeros (length (phases s))) = phases s.
Proof.
  intros HlI Hlg Hg.
  apply nth_error_ext. intros k.
  destruct (nth_error (phases s) k) as [phase_k|] eqn:Hp.
  - assert (Hk : (k < length (phases s))%nat) by (eapply nth_error_lt; eauto).
    destruct (nth_error (fst (I_gamma s)) k) as [I_k|] eqn:EI;
      [| apply nth_error_None in EI; lia].
    destruct (nth_error (snd (I_gamma s)) k) as [gamma_k|] eqn:Eg;
      [| apply nth_error_None in Eg; lia].
    assert (Ez : nth_error (np.zeros (length (phases s))) k = Some 0).
    { unfold np.zeros. rewrite nth_error_repeat by exact Hk. reflexivity. }
    rewrite (h_pointwise s _ k _ _ _ _ EI Eg Hp Ez).
    assert (Hgpos : 0 < gamma_k).
    { rewrite Forall_forall in Hg. apply Hg. eapply nth_error_In; eauto. }
    unfold log_arg_of.
    replace (exp (- gamma_k * phase_k) - gamma_k / I_k * 0)
      with (exp (- gamma_k * phase_k)) by (unfold Rdiv; ring).
    rewrite Rleb_false by apply exp_pos.
    rewrite ln_exp. f_equal. field. lra.
  - apply nth_error_None. apply nth_error_None in Hp.
    rewrite h_length. lia.
Qed.

Lemma neglect_noop (ids : list nat) (ph : list R) :
  Forall (fun p => p <= 1) ph ->
  Forall (fun i => (i < length ph)%nat) ids ->
  neglect ids ph = Ok ph.
Proof.
  intros Hph Hids. induction Hids as [|i ids Hi Hids IH]; [reflexivity |].
  simpl. destruct (get_item_ok ph i Hi) as (p & -> & Hp). simpl.
  rewrite Rltb_false; [exact IH |].
  rewrite Forall_forall in Hph. apply Hph. eapply nth_error_In. exact Hp.
Qed.

Lemma Forall2_map_right {A : Type} (P : A -> A -> Prop) (f : A -> A) (l : list A) :
  (forall x, In x l -> P x (f x)) -> Forall2 P l (map f l).
Proof.
  induction l as [|x l IH]; intros H; simpl; constructor.
  - apply H. left. reflexivity.
  - apply IH. intros y Hy. apply H. right. exact Hy.
Qed.

Lemma Forall2_same {A : Type} (P : A -> A -> Prop) (l : list A) :
  (forall x, P x x) -> Forall2 P l l.
Proof. intros H. induction l; constructor; auto. Qed.

Lemma free_step (U : nat -> R) (n : nat) (s s' : System) :
  free n s -> jump_to_next_event U s = Ok s' ->
  free n s' /\ t s <= t s' /\
  Forall2 (drifted (t s' - t s)) (phases s) (phases s').
Proof.
  intros (Hsh & Hiso & Hq & Hunc & Hg & Hph) Hj.
  destruct (jump_isolated U s s' Hiso Hj) as (mx & Hmx & Hsame & Hstep).
  destruct (isolated_step_preserves n s s' mx Hstep Hsame Hsh Hiso Hq)
    as (Hsh' & Hiso' & Hq' & Ht).
  pose proof Hsame as (_ & _ & _ & HIg & _ & HW & _).
  pose proof Hsh as (Hl1 & Hl2 & Hl3 & Hl4).
  destruct (max_spec _ _ Hmx) as (Hin & Hmax).
  assert (Hmx1 : 0 <= mx < 1).
  { rewrite Forall_forall in Hph. apply Hph. exact Hin. }
  assert (Hdt : Rmax (1 - mx) 0 = 1 - mx) by (apply Rmax_left; lra).
  assert (Hle : forall p, In p (phases s) -> 0 <= p <= mx).
  { intros p Hp. rewrite Forall_forall in Hph, Hmax.
    specialize (Hph p Hp). specialize (Hmax p Hp). lra. }
  assert (Hzero : forall x y v base,
             I_gamma x = I_gamma s -> phases x = base -> length base = n ->
             weight_matrix y = weight_matrix s ->
             h x (epsilon y v) = base).
  { intros x y v base HIx Hpx Hbase HWy.
    assert (Huy : uncoupled y) by (unfold uncoupled; rewrite HWy; exact Hunc).
    rewrite (epsilon_uncoupled y _ Huy), HWy, Hl4, <- Hbase, <- Hpx.
    apply (h_no_jump x); rewrite HIx; try lia; try exact Hg; rewrite Hpx; lia. }
  assert (Hfire : Forall (fun p => 0 <= p < 1)
                    (map (fun p => if np.Rleb 1 (p + (1 - mx)) then 0
                                   else p + (1 - mx)) (phases s)) /\
                  Forall2 (drifted (1 - mx)) (phases s)
                    (map (fun p => if np.Rleb 1 (p + (1 - mx)) then 0
                                   else p + (1 - mx)) (phases s))).
  { split.
    - apply Forall_map. apply Forall_forall. intros p Hp.
      specialize (Hle p Hp).
      destruct (np.Rleb 1 (p + (1 - mx))) eqn:E; [lra |].
      unfold np.Rleb in E. destruct (Rle_dec 1 (p + (1 - mx))); [discriminate | lra].
    - apply Forall2_map_right. intros p Hp. specialize (Hle p Hp).
      unfold drifted.
      destruct (np.Rleb 1 (p + (1 - mx))) eqn:E.
      + apply Rleb_spec in E. right. lra.
      + left. reflexivity. }
  assert (Hrest : forall ph', phases s' = ph' -> Forall (fun p => 0 <= p < 1) ph' ->
                              free n s').
  { intros ph' Hph' Hrange. unfold free, uncoupled.
    rewrite HIg, HW, Hph'. repeat split; try assumption; apply Hsh' || apply Hq'. }
  destruct Hstep as [Hlt Hs' | ev rest Hev Hlt Ht' Hev' Hph' | ev rest Hev Heq Ht' Hev' _].
  - (* self-threshold *)
    rewrite Hdt in Hs'.
    assert (Hp' : phases s' = map (fun p => if np.Rleb 1 (p + (1 - mx)) then 0
                                            else p + (1 - mx)) (phases s))
      by (rewrite Hs'; reflexivity).
    assert (Ht' : t s' - t s = 1 - mx) by (rewrite Hs'; simpl; lra).
    split; [apply (Hrest _ Hp'); apply Hfire |].
    split; [exact Ht |]. rewrite Ht', Hp'. apply Hfire.
  - (* delivery *)
    unfold jump_of in Hph'.
    rewrite (Hzero _ _ _ (map (fun p => p + (fst ev - t s)) (phases s))) in Hph';
      [| reflexivity | reflexivity | rewrite length_map; exact Hl1 | reflexivity].
    destruct Hq as (_ & Hq & _). rewrite Hev in Hq.
    pose proof (Forall_inv Hq) as Hq0. simpl in Hq0.
    assert (Hd : t s' - t s = fst ev - t s) by lra.
    split; [| split; [exact Ht |]].
    + apply (Hrest _ Hph'). apply Forall_map. apply Forall_forall. intros p Hp.
      specialize (Hle p Hp). lra.
    + rewrite Hd, Hph'. apply Forall2_map_right. intros p _. left. reflexivity.
  - (* tie *)
    assert (Hp' : phases s' = map (fun p => if np.Rleb 1 (p + (1 - mx)) then 0
                                            else p + (1 - mx)) (phases s)).
    { unfold jump_to_next_event in Hj.
      rewrite (next_delivery_isolated s Hiso) in Hj. simpl in Hj.
      rewrite Hmx in Hj. simpl in Hj. unfold horizon in Hj. rewrite Hev in Hj.
      rewrite Rltb_false in Hj by lra. rewrite Reqb_true in Hj by exact Heq.
      unfold tie_branch in Hj. rewrite fire_eq in Hj.
      unfold arrivals, pop_event in Hj. simpl in Hj. rewrite Hev in Hj.
      simpl in Hj. rewrite Hdt in Hj.
      rewrite (Hzero _ _ _ (map (fun p => if np.Rleb 1 (p + (1 - mx)) then 0
                                          else p + (1 - mx)) (phases s))) in Hj;
        [| reflexivity | reflexivity | rewrite length_map; exact Hl1 | reflexivity].
      rewrite neglect_noop in Hj; [simpl in Hj; injection Hj as <-; reflexivity | |].
      - eapply Forall_impl; [| apply Hfire]. intros p Hp. simpl in Hp. lra.
      - eapply Forall_impl; [| apply where_bound].
        intros i Hi. simpl in Hi. rewrite length_map. exact Hi. }
    assert (Hd : t s' - t s = 1 - mx) by (rewrite Ht', Hdt; lra).
    split; [apply (Hrest _ Hp'); apply Hfire |].
    split; [exact Ht |]. rewrite Hd, Hp'. apply Hfire.
Qed.

Lemma drifted_trans (d1 d2 : R) (a b c : list R) :
  Forall2 (fun p0 p => exists m : nat, p = p0 + d1 - INR m) a b ->
  Forall2 (drifted d2) b c ->
  Forall2 (fun p0 p => exists m : nat, p = p0 + (d1 + d2) - INR m) a c.
Proof.
  intros Hab. revert c. induction Hab as [|x y a b (m & Hxy) Hab IH]; intros c Hbc.
  - inversion Hbc. constructor.
  - inversion Hbc as [|y' z b' c' Hyz Hbc' E1 E2]. constructor; [| apply IH; exact Hbc'].
    destruct Hyz as [Hz | Hz].
    + exists m. lra.
    + exists (S m). rewrite S_INR. lra.
Qed.

(** X21. Neurons that receive nothing run free: in a network without
    external input whose weights are all zero, with positive gamma and
    phases in [0,1), after any number of steps every phase is still in
    [0,1) and equals its initial value plus the time elapsed minus a whole
    number of resets: the phase of each neuron is the fractional part of
    its initial phase plus the time. *)
Theorem uncoupled_neurons_run_free (U : nat -> R) (n k : nat) :
  forall s sk,
    shaped n s -> isolated s -> queue_ok s -> uncoupled s ->
    Forall (fun gamma_k => 0 < gamma_k) (snd (I_gamma s)) ->
    Forall (fun p => 0 <= p < 1) (phases s) ->
    steps U k s = Ok sk ->
    Forall (fun p => 0 <= p < 1) (phases sk) /\
    Forall2 (fun p0 p => exists m : nat, p = p0 + (t sk - t s) - INR m)
            (phases s) (phases sk).
Proof.
  assert (Hgen : forall s0 s sk,
             free n s ->
             Forall2 (fun p0 p => exists m : nat, p = p0 + (t s - t s0) - INR m)
                     (phases s0) (phases s) ->
             steps U k s = Ok sk ->
             Forall (fun p => 0 <= p < 1) (phases sk) /\
             Forall2 (fun p0 p => exists m : nat, p = p0 + (t sk - t s0) - INR m)
                     (phases s0) (phases sk)).
  { induction k as [|k IH]; intros s0 s sk Hfree Hacc H; simpl in H.
    - injection H as <-. split; [apply Hfree | exact Hacc].
    - destruct (jump_to_next_event U s) as [s1 | e] eqn:Hj; simpl in H;
        [| discriminate].
      destruct (free_step U n s s1 Hfree Hj) as (Hfree1 & _ & Hdrift).
      apply (IH s0 s1 sk Hfree1); [| exact H].
      replace (t s1 - t s0) with ((t s - t s0) + (t s1 - t s)) by lra.
      apply (drifted_trans _ _ _ (phases s)); assumption. }
  intros s sk Hsh Hiso Hq Hunc Hg Hph H.
  apply (Hgen s s sk); [unfold free; tauto | | exact H].
  replace (t s - t s) with 0 by lra.
  apply Forall2_same. intros p. exists 0%nat. simpl. lra.
Qed.

Lemma uncoupled_neurons_run_free_witness :
  Forall (fun p => 0 <= p < 1)
         (phases (one 0 (1 / 20) (0 + (1 - 1 / 2))
                      [(1 / 20 + 0 + (1 - 1 / 2), [1])] 0)) /\
  Forall2 (fun p0 p => exists m : nat,
             p = p0 + (t (one 0 (1 / 20) (0 + (1 - 1 / 2))
                             [(1 / 20 + 0 + (1 - 1 / 2), [1])] 0)
                       - t (one 0 (1 / 20) 0 [] (1 / 2))) - INR m)
          (phases (one 0 (1 / 20) 0 [] (1 / 2)))
          (phases (one 0 (1 / 20) (0 + (1 - 1 / 2))
                       [(1 / 20 + 0 + (1 - 1 / 2), [1])] 0)).
Proof.
  apply (uncoupled_neurons_run_free draws_half 1 1 (one 0 (1 / 20) 0 [] (1 / 2))).
  - apply one_shaped.
  - apply one_shaped.
  - unfold queue_ok. simpl. split; [lra |]. split; constructor.
  - unfold uncoupled. simpl. repeat constructor.
  - simpl. repeat constructor. lra.
  - simpl. repeat constructor; lra.
  - simpl. rewrite one_drifts by lra. reflexivity.
Defined.

(** ** The run with output and the run without *)

Lemma record_system (cap : nat) (w w' : WithOutput) (b b' : buffers) (d d' : folder) :
  record cap w b d = Ok (w', b', d') -> system w' = system w.
Proof.
  unfold record. intros H.
  match type of H with
  | bind ?m _ = _ => destruct m as [b1 | e]; simpl in H; [| discriminate]
  end.
  match type of H with
  | bind ?m _ = _ => destruct m as [out | e]; simpl in H; [| discriminate]
  end.
  match type of H with
  | (if ?c then _ else _) = _ => destruct c
  end; injection H as <- _ _; reflexivity.
Qed.

Lemma output_loop_system (U : nat -> R) (cap : nat) (t_end : R) (fuel : nat) :
  forall w b d w' b' d',
    output_loop U fuel cap t_end w b d = Returns (w', b', d') ->
    run U fuel (system w) t_end = Returns (system w').
Proof.
  induction fuel as [|fuel IH]; intros w b d w' b' d' H; simpl in H |- *.
  - destruct (np.Rltb (t (system w)) t_end); [discriminate |].
    injection H as <- _ _. reflexivity.
  - destruct (np.Rltb (t (system w)) t_end).
    + destruct (jump_to_next_event U (system w)) as [s1 | e]; simpl in H;
        [| discriminate].
      destruct (record cap (mkWithOutput s1 (n_files w)) b d)
        as [[[w1 b1] d1] | e] eqn:Hrec; [| discriminate].
      apply record_system in Hrec. simpl in Hrec. rewrite <- Hrec.
      apply (IH w1 b1 d1 w' b' d' H).
    + injection H as <- _ _. reflexivity.
Qed.

Lemma run_trace (U : nat -> R) (t_end : R) (fuel : nat) :
  forall s s', run U fuel s t_end = Returns s' ->
               exists tr, loop_trace U t_end s tr /\ (length tr <= fuel)%nat /\
                          last tr s = s'.
Proof.
  induction fuel as [|fuel IH]; intros s s' H; simpl in H.
  - destruct (np.Rltb (t s) t_end) eqn:E; [discriminate |].
    injection H as <-. exists []. simpl. split; [| split; [lia | reflexivity]].
    destruct (Rlt_dec (t s) t_end) as [Hlt | Hge]; [| lra].
    apply Rltb_true in Hlt. congruence.
  - destruct (np.Rltb (t s) t_end) eqn:E.
    + apply Rltb_spec in E.
      destruct (jump_to_next_event U s) as [s1 | e] eqn:Hj; [| discriminate].
      destruct (IH s1 s' H) as (tr & Htr & Hlen & Hlast).
      exists (s1 :: tr). split; [simpl; auto | split; [simpl; lia |]].
      rewrite last_shift. exact Hlast.
    + injection H as <-. exists []. simpl. split; [| split; [lia | reflexivity]].
      destruct (Rlt_dec (t s) t_end) as [Hlt | Hge]; [| lra].
      apply Rltb_true in Hlt. congruence.
Qed.

(** X22. Writing the output does not change the simulation: when the
    tables have a row at least, [WithOutput.run(t_end, output_dir)] returns
    exactly when [System.run(t_end)] does, and leaves the object in the same
    state. *)
Theorem output_does_not_change_the_run (U : nat -> R) (memory : R)
        (w : WithOutput) (t_end : R) (d : folder) (fuel : nat) (s' : System) :
  (0 < output_size_of memory (system w))%Z ->
  run U fuel (system w) t_end = Returns s' <->
  exists w' d', WithOutput_run U memory fuel w t_end d = Returns (w', d') /\
                system w' = s'.
Proof.
  intros Hcap. split.
  - intros Hrun.
    destruct (run_trace U t_end fuel _ _ Hrun) as (tr & Htr & Hlen & Hlast).
    destruct (WithOutput_run_spec U memory w t_end d tr fuel Hcap Htr Hlen)
      as (d' & c & H & _).
    eexists. exists d'. split; [exact H |]. simpl. exact Hlast.
  - intros (w' & d' & H & <-). unfold WithOutput_run in H.
    destruct (output_size_of memory (system w) <? 0)%Z; [discriminate |].
    match type of H with
    | match ?m with _ => _ end = _ =>
        destruct m as [[[w1 b1] d1] | e |] eqn:Hloop; try discriminate
    end.
    injection H as <- _. simpl.
    apply (output_loop_system _ _ _ _ _ _ _ _ _ _ Hloop).
Qed.

Lemma output_does_not_change_the_run_witness :
  run draws_half 4 (one 2 (1 / 20) 0 [] (1 / 2)) (3 / 5)
  = Returns (one 2 (1 / 20) (3 / 5) [] (11 / 10)) <->
  exists w' d',
    WithOutput_run draws_half 32 4 (mkWithOutput (one 2 (1 / 20) 0 [] (1 / 2)) 0)
                   (3 / 5) empty_folder = Returns (w', d') /\
    system w' = one 2 (1 / 20) (3 / 5) [] (11 / 10).
Proof.
  apply (output_does_not_change_the_run draws_half 32
           (mkWithOutput (one 2 (1 / 20) 0 [] (1 / 2)) 0) (3 / 5) empty_folder 4
           (one 2 (1 / 20) (3 / 5) [] (11 / 10))).
  simpl. rewrite output_size_32. lia.
Defined.

(** ** The spike that is neglected *)






(** ** Saturated neurons *)

(** X24. A neuron at or above the threshold fires at the next step, at
    once: in a network without external input whose largest phase is 1 or
    more (the sentinel 1.1 after a saturating delivery, for one), the next
    step succeeds, leaves the clock where it is, and appends a delivery that
    arrives one delay later and marks exactly the neurons at or above 1;
    the only delivery it can take from the queue is one that is due at this
    very time. *)
Theorem saturated_neurons_fire_at_once (U : nat -> R) (n : nat) (s : System)
        (mx : R) :
  shaped n s -> isolated s -> queue_ok s ->
  np.max (phases s) = Ok mx -> 1 <= mx ->
  exists s' rest spikes,
    jump_to_next_event U s = Ok s' /\
    t s' = t s /\
    events s' = rest ++ [spikes] /\
    fst spikes = t s + tau s /\
    snd spikes = map (fun p => if np.Rleb 1 p then 1 else 0) (phases s) /\
    (rest = events s \/ exists ev, events s = ev :: rest /\ fst ev = t s).
Proof.
  intros Hsh Hiso Hq Hmx Hsat.
  destruct (jump_isolated_succeeds U n s mx Hsh Hiso Hmx) as (s' & Hj);
    [right; lra |].
  destruct (jump_isolated U s s' Hiso Hj) as (mx' & Hmx' & _ & Hstep).
  assert (mx' = mx) by congruence. subst mx'.
  assert (Hdt : Rmax (1 - mx) 0 = 0) by (apply Rmax_right; lra).
  assert (Hmap : map (fun p => if np.Rleb 1 (p + 0) then 1 else 0) (phases s) =
                 map (fun p => if np.Rleb 1 p then 1 else 0) (phases s)).
  { apply map_ext. intros p. rewrite Rplus_0_r. reflexivity. }
  destruct Hstep as [Hlt Hs' | ev rest Hev Hlt Ht' Hev' Hph' | ev rest Hev Heq Ht' Hev' _].
  - rewrite Hdt in Hs'. exists s', (events s).
    eexists. split; [exact Hj |]. rewrite Hs'. simpl.
    split; [lra |]. split; [reflexivity |]. simpl.
    split; [lra |]. split; [exact Hmap | left; reflexivity].
  - destruct Hq as (_ & Hq & _). rewrite Hev in Hq.
    pose proof (Forall_inv Hq) as Hq0. simpl in Hq0. lra.
  - rewrite Hdt in Ht', Hev'. exists s', rest.
    eexists. split; [exact Hj |].
    split; [lra |]. split; [exact Hev' |]. simpl.
    split; [lra |]. split; [exact Hmap |].
    right. exists ev. split; [exact Hev |].
    destruct Hq as (_ & Hq & _). rewrite Hev in Hq.
    pose proof (Forall_inv Hq) as Hq0. simpl in Hq0. lra.
Qed.

Lemma saturated_neurons_fire_at_once_witness :
  exists s' rest spikes,
    jump_to_next_event draws_half (one 2 (1 / 20) (11 / 20) [] (11 / 10)) = Ok s' /\
    t s' = t (one 2 (1 / 20) (11 / 20) [] (11 / 10)) /\
    events s' = rest ++ [spikes] /\
    fst spikes = t (one 2 (1 / 20) (11 / 20) [] (11 / 10))
                 + tau (one 2 (1 / 20) (11 / 20) [] (11 / 10)) /\
    snd spikes = map (fun p => if np.Rleb 1 p then 1 else 0)
                     (phases (one 2 (1 / 20) (11 / 20) [] (11 / 10))) /\
    (rest = events (one 2 (1 / 20) (11 / 20) [] (11 / 10)) \/
     exists ev, events (one 2 (1 / 20) (11 / 20) [] (11 / 10)) = ev :: rest /\
                fst ev = t (one 2 (1 / 20) (11 / 20) [] (11 / 10))).
Proof.
  apply (saturated_neurons_fire_at_once draws_half 1
           (one 2 (1 / 20) (11 / 20) [] (11 / 10)) (11 / 10)).
  - apply one_shaped.
  - apply one_shaped.
  - unfold queue_ok. simpl. split; [lra |]. split; constructor.
  - reflexivity.
  - lra.
Defined.

(** ** The phase-update law in terms of the potential *)

(** X25. [h] is the law [H(phi, epsilon) = U^-1(U(phi) + epsilon)] of its
    documentation, with [U(phi) = I/gamma * (1 - exp(-gamma*phi))]: for a
    neuron with I > 0 and gamma > 0, when [U(phi) + epsilon] stays below
    [I/gamma] the new phase is the one whose potential is
    [U(phi) + epsilon]; when it reaches [I/gamma], which no phase attains,
    [h] gives the sentinel 1.1. *)
Theorem h_adds_jump_to_potential (s : System) (eps : list R) (k : nat)
        (I_k gamma_k phase_k e_k : R) :
  nth_error (fst (I_gamma s)) k = Some I_k ->
  nth_error (snd (I_gamma s)) k = Some gamma_k ->
  nth_error (phases s) k = Some phase_k ->
  nth_error eps k = Some e_k ->
  0 < I_k -> 0 < gamma_k ->
  (potential I_k gamma_k phase_k + e_k < I_k / gamma_k ->
   exists q, nth_error (h s eps) k = Some q /\
             potential I_k gamma_k q = potential I_k gamma_k phase_k + e_k) /\
  (I_k / gamma_k <= potential I_k gamma_k phase_k + e_k ->
   nth_error (h s eps) k = Some sentinel) /\
  (forall phase, potential I_k gamma_k phase < I_k / gamma_k).
Proof.
  intros HI Hg Hp He HIpos Hgpos.
  pose proof (h_pointwise s eps k _ _ _ _ HI Hg Hp He) as Hh.
  assert (Hc : 0 < I_k / gamma_k) by (apply Rdiv_lt_0_compat; assumption).
  assert (Hscale : I_k / gamma_k * log_arg_of I_k gamma_k phase_k e_k =
                   I_k / gamma_k - (potential I_k gamma_k phase_k + e_k)).
  { unfold log_arg_of, potential. field. lra. }
  split; [| split].
  - intros Hbelow.
    assert (HL : 0 < log_arg_of I_k gamma_k phase_k e_k) by nra.
    rewrite Rleb_false in Hh by exact HL.
    eexists. split; [exact Hh |].
    unfold potential at 1.
    replace (- gamma_k * (-1 / gamma_k * ln (log_arg_of I_k gamma_k phase_k e_k)))
      with (ln (log_arg_of I_k gamma_k phase_k e_k)) by (field; lra).
    rewrite exp_ln by exact HL. lra.
  - intros Habove.
    assert (HL : log_arg_of I_k gamma_k phase_k e_k <= 0) by nra.
    rewrite Rleb_true in Hh by exact HL. exact Hh.
  - intros phase. unfold potential.
    pose proof (exp_pos (- gamma_k * phase)). nra.
Qed.

Lemma h_adds_jump_to_potential_witness :
  (potential 1 1 0 + 1 / 2 < 1 / 1 ->
   exists q,
     nth_error (h (mkSystem [1%nat] [] 0 ([1], [1]) 0 [] [] [] [0] [[0]] 0) [1 / 2]) 0
     = Some q /\
     potential 1 1 q = potential 1 1 0 + 1 / 2) /\
  (1 / 1 <= potential 1 1 0 + 1 / 2 ->
   nth_error (h (mkSystem [1%nat] [] 0 ([1], [1]) 0 [] [] [] [0] [[0]] 0) [1 / 2]) 0
   = Some sentinel) /\
  (forall phase, potential 1 1 phase < 1 / 1).
Proof.
  apply (h_adds_jump_to_potential
           (mkSystem [1%nat] [] 0 ([1], [1]) 0 [] [] [] [0] [[0]] 0) [1 / 2] 0%nat
           1 1 0 (1 / 2)); try reflexivity; lra.
Defined.

(** ** C4: the exits of the loop of [run] *)

Lemma loop_trace_returns (U : nat -> R) (t_end : R) (tr : list System) :
  forall (fuel : nat) (s : System),
    loop_trace U t_end s tr -> (length tr <= fuel)%nat ->
    run U fuel s t_end = Returns (last tr s).
Proof.
  induction tr as [|s' tr IH]; intros fuel s Htr Hfuel.
  - simpl in Htr. destruct fuel; simpl; rewrite Rltb_false by exact Htr; reflexivity.
  - destruct Htr as (Hlt & Hj & Htr).
    destruct fuel as [|fuel]; [simpl in Hfuel; lia |].
    simpl in Hfuel. cbn [run]. rewrite Rltb_true by exact Hlt. rewrite Hj.
    rewrite last_shift. apply IH; [exact Htr | lia].
Qed.

Lemma loop_trace_last (U : nat -> R) (t_end : R) (tr : list System) :
  forall s, loop_trace U t_end s tr -> t_end <= t (last tr s).
Proof.
  induction tr as [|s' tr IH]; intros s Htr.
  - exact Htr.
  - destruct Htr as (_ & _ & Htr). rewrite last_shift. apply IH. exact Htr.
Qed.

Lemma steps_next (U : nat -> R) (k : nat) :
  forall s sk, steps U k s = Ok sk ->
               steps U (S k) s = jump_to_next_event U sk.
Proof.
  induction k as [|k IH]; intros s sk H.
  - simpl in H. injection H as <-. simpl.
    destruct (jump_to_next_event U s); reflexivity.
  - change (steps U (S k) s) with (s1 <- jump_to_next_event U s ;; steps U k s1) in H.
    change (steps U (S (S k)) s)
      with (s1 <- jump_to_next_event U s ;; steps U (S k) s1).
    destruct (jump_to_next_event U s) as [s1 | e]; simpl in H |- *; [| discriminate].
    apply IH. exact H.
Qed.

Lemma run_raises (U : nat -> R) (t_end : R) (fuel : nat) :
  forall s e, run U fuel s t_end = Raises e ->
              exists k sk, (k < fuel)%nat /\ steps U k s = Ok sk /\ t sk < t_end /\
                           jump_to_next_event U sk = Raise e.
Proof.
  induction fuel as [|fuel IH]; intros s e H; simpl in H.
  - destruct (np.Rltb (t s) t_end); discriminate.
  - destruct (np.Rltb (t s) t_end) eqn:E; [| discriminate].
    apply Rltb_spec in E.
    destruct (jump_to_next_event U s) as [s1 | e1] eqn:Hj.
    + destruct (IH s1 e H) as (k & sk & Hk & Hs & Ht & Hr).
      exists (S k), sk. split; [lia |]. split; [simpl; rewrite Hj; exact Hs |].
      split; assumption.
    + injection H as <-. exists 0%nat, s. split; [lia |].
      split; [reflexivity |]. split; assumption.
Qed.

Lemma run_unfinished (U : nat -> R) (t_end : R) (fuel : nat) :
  forall s, run U fuel s t_end = Unfinished ->
            exists sk, steps U fuel s = Ok sk /\ t sk < t_end.
Proof.
  induction fuel as [|fuel IH]; intros s H; simpl in H.
  - destruct (np.Rltb (t s) t_end) eqn:E; [| discriminate].
    apply Rltb_spec in E. exists s. split; [reflexivity | exact E].
  - destruct (np.Rltb (t s) t_end) eqn:E; [| discriminate].
    destruct (jump_to_next_event U s) as [s1 | e1] eqn:Hj; [| discriminate].
    destruct (IH s1 H) as (sk & Hs & Ht).
    exists sk. split; [simpl; rewrite Hj; exact Hs | exact Ht].
Qed.

(** A loop whose every step succeeds and advances the clock by [delta] at
    least reaches [t_end]. *)
Lemma run_progress (U : nat -> R) (t_end delta : R) (s : System) :
  0 < delta ->
  (forall k sk, steps U k s = Ok sk -> t sk < t_end ->
                exists s', jump_to_next_event U sk = Ok s' /\ t sk + delta <= t s') ->
  exists fuel s', run U fuel s t_end = Returns s' /\ t_end <= t s'.
Proof.
  intros Hdelta Hstep.
  destruct (INR_archimed delta (t_end - t s) Hdelta) as (n & Hn).
  assert (Hgen : forall n k sk,
             steps U k s = Ok sk -> t_end - t sk <= INR n * delta ->
             exists fuel s', run U fuel sk t_end = Returns s' /\ t_end <= t s').
  { clear n Hn. induction n as [|n IH]; intros k sk Hk Hle.
    - exists 0%nat, sk. simpl in Hle. simpl.
      rewrite Rltb_false by lra. split; [reflexivity | lra].
    - destruct (Rlt_dec (t sk) t_end) as [Hlt | Hge].
      + destruct (Hstep k sk Hk Hlt) as (s1 & Hj & Hadv).
        destruct (IH (S k) s1) as (fuel & s' & Hr & Ht).
        * rewrite (steps_next U k s sk Hk). exact Hj.
        * rewrite S_INR in Hle. lra.
        * exists (S fuel), s'. simpl. rewrite Rltb_true by exact Hlt.
          rewrite Hj. split; assumption.
      + exists 0%nat, sk. simpl. rewrite Rltb_false by lra.
        split; [reflexivity | lra]. }
  apply (Hgen n 0%nat s); [reflexivity | lra].
Qed.

(** C4, as the code has it.  The loop of [run(t_end)] has no exit but
    [t >= t_end].  When it returns, the clock is at or past [t_end], and it
    has taken exactly the steps that lead there: every clock before the last
    step is below [t_end].  It returns as soon as the steps lead to a clock
    at or past [t_end].  When it raises, a step has raised while the clock
    was below [t_end]; as long as it runs, the clock is below [t_end].  It
    returns whenever every step succeeds and advances the clock by a fixed
    positive amount at least. *)
Theorem run_exits_at_t_end (U : nat -> R) (s : System) (t_end : R) :
  (forall fuel s', run U fuel s t_end = Returns s' ->
     t_end <= t s' /\
     exists tr, loop_trace U t_end s tr /\ (length tr <= fuel)%nat /\
                last tr s = s') /\
  (forall tr fuel, loop_trace U t_end s tr -> (length tr <= fuel)%nat ->
     run U fuel s t_end = Returns (last tr s)) /\
  (forall fuel e, run U fuel s t_end = Raises e ->
     exists k sk, (k < fuel)%nat /\ steps U k s = Ok sk /\ t sk < t_end /\
                  jump_to_next_event U sk = Raise e) /\
  (forall fuel, run U fuel s t_end = Unfinished ->
     exists sk, steps U fuel s = Ok sk /\ t sk < t_end) /\
  (forall delta, 0 < delta ->
     (forall k sk, steps U k s = Ok sk -> t sk < t_end ->
        exists s', jump_to_next_event U sk = Ok s' /\ t sk + delta <= t s') ->
     exists fuel s', run U fuel s t_end = Returns s' /\ t_end <= t s').
Proof.
  split; [| split; [| split; [| split]]].
  - intros fuel s' H.
    destruct (run_trace U t_end fuel s s' H) as (tr & Htr & Hlen & Hlast).
    split.
    + rewrite <- Hlast. apply (loop_trace_last U t_end tr s Htr).
    + exists tr. auto.
  - intros tr fuel Htr Hlen. apply loop_trace_returns; assumption.
  - intros fuel e. apply run_raises.
  - intros fuel. apply run_unfinished.
  - intros delta. apply run_progress.
Qed.

Lemma run_exits_at_t_end_witness :
  exists fuel s',
    run draws_half fuel (one 0 (1 / 20) 0 [] (1 / 2)) (1 / 4) = Returns s' /\
    1 / 4 <= t s'.
Proof.
  apply (proj2 (proj2 (proj2 (proj2
           (run_exits_at_t_end draws_half (one 0 (1 / 20) 0 [] (1 / 2)) (1 / 4)))))
           (1 / 2)).
  - lra.
  - intros k sk Hk Hlt. destruct k as [|k].
    + simpl in Hk. injection Hk as <-.
      eexists. split; [apply one_drifts; lra | simpl; lra].
    + exfalso. cbn [steps] in Hk. rewrite one_drifts in Hk by lra. cbn [bind] in Hk.
      assert (Hq : queue_ok (one 0 (1 / 20) (0 + (1 - 1 / 2))
                                 [(1 / 20 + 0 + (1 - 1 / 2), [1])] 0)).
      { unfold queue_ok, one. cbn [tau t events map fst]. split; [lra |]. split.
        - constructor; [cbn [fst]; lra | constructor].
        - constructor; constructor. }
      destruct (steps_isolated draws_half 1 k _ sk
                  (proj1 (one_shaped _ _ _ _ _)) (proj2 (one_shaped _ _ _ _ _))
                  Hq Hk)
        as (_ & _ & _ & _ & Hmono).
      cbn [t one] in Hmono, Hlt. lra.
Defined.

(** ** C5: the rows of the spike artifacts *)

Lemma last_event_app (q : list (R * list R)) (ev : R * list R) :
  last_event (q ++ [ev]) = Some ev.
Proof.
  destruct q as [|x q]; simpl; [reflexivity |].
  f_equal. revert x. induction q as [|y q IH]; intros x; [reflexivity |].
  change (last ((y :: q) ++ [ev]) x) with (last (y :: q ++ [ev]) x).
  rewrite last_shift. apply IH.
Qed.

Lemma last_event_tail (hd x : R * list R) (q : list (R * list R)) :
  last_event (hd :: x :: q) = last_event (x :: q).
Proof. unfold last_event. rewrite last_shift. reflexivity. Qed.

(** What a step does to the queue: it puts one delivery in it, or leaves it
    empty, or leaves it as it is, or only takes its head. *)
Lemma jump_queue (U : nat -> R) (s s' : System) :
  jump_to_next_event U s = Ok s' ->
  (exists ev, enqueued s s' ev) \/ events s' = [] \/ events s' = events s \/
  (exists hd, events s = hd :: events s').
Proof.
  intros H. unfold jump_to_next_event in H.
  destruct (next_delivery s) as [[dt location] | e]; simpl in H; [| discriminate].
  destruct (np.max (phases s)) as [mx | e]; simpl in H; [| discriminate].
  set (new := fun d : R =>
                (tau s + t s + d,
                 map (fun p => if np.Rleb 1 (p + d) then 1 else 0) (phases s))).
  destruct (np.Rltb (1 - mx) dt).
  - injection H as <-. rewrite self_threshold_branch_eq. left.
    exists (new (Rmax (1 - mx) 0)), (Rmax (1 - mx) 0). unfold new.
    cbn [events t tau phases after_self_threshold fst snd].
    repeat split. left. reflexivity.
  - destruct (np.Reqb (1 - mx) dt).
    + unfold tie_branch in H.
      match type of H with
      | bind ?m _ = _ => destruct m as [[sv s1] | e] eqn:E; simpl in H; [| discriminate]
      end.
      match type of H with
      | bind ?m _ = _ => destruct m as [ph | e]; simpl in H; [| discriminate]
      end.
      injection H as <-.
      pose proof (arrivals_frame _ _ _ _ _ _ _ E) as ((_ & _ & Htau & _) & _ & Ht).
      apply arrivals_queue in E. rewrite fire_eq in *.
      cbn [events rng t tau external_events phases set_t set_phases
           after_self_threshold] in *.
      destruct E as [(_ & He & _) | (_ & ev & He)].
      * left. exists (new (Rmax (1 - mx) 0)), (Rmax (1 - mx) 0). unfold new.
        cbn [events t tau phases set_t set_phases fst snd].
        rewrite Ht, Htau. repeat split. left. exact He.
      * destruct (events s) as [|hd rest] eqn:Eq; simpl in He.
        -- injection He as _ He. right. left. simpl. symmetry. exact He.
        -- injection He as _ He. left.
           exists (new (Rmax (1 - mx) 0)), (Rmax (1 - mx) 0). unfold new.
           cbn [events t tau phases set_t set_phases fst snd].
           rewrite Ht, Htau. repeat split.
           right. exists hd, rest. split; [exact Eq | symmetry; exact He].
    + unfold delivery_branch in H.
      match type of H with
      | bind ?m _ = _ => destruct m as [[sv s1] | e] eqn:E; simpl in H; [| discriminate]
      end.
      injection H as <-.
      apply arrivals_queue in E. cbn [events rng t external_events set_phases] in E.
      destruct E as [(_ & He & _) | (_ & ev & He)].
      * right. right. left. exact He.
      * right. right. right. exists ev. exact He.
Qed.

(** After the spike table has been visited, the last recorded time is not
    before the arrival of the newest delivery in the queue. *)
Lemma spike_step_last (lt : R) (s : System) (e : R * list R) :
  last_event (events s) = Some e -> fst e <= snd (spike_step lt s).
Proof.
  intros H. unfold spike_step. rewrite H.
  unfold np.Rltb. destruct (Rlt_dec lt (fst e)); simpl; lra.
Qed.

Lemma enqueued_newest (s s' : System) (ev : R * list R) :
  enqueued s s' ev -> last_event (events s') = Some ev.
Proof.
  intros (dt & _ & _ & _ & _ & [He | (hd & rest & _ & He)]);
    rewrite He; apply last_event_app.
Qed.

Lemma enqueued_binary (s s' : System) (ev : R * list R) :
  enqueued s s' ev -> binary (snd ev).
Proof.
  intros (dt & _ & _ & _ & -> & _). unfold binary. apply Forall_map.
  apply Forall_forall. intros p _. destruct (np.Rleb 1 (p + dt)); auto.
Qed.

(** A row recorded after a step that found the newest delivery of the queue
    already recorded comes from the delivery that step has put in the
    queue, and its first column is the clock after the step. *)
Lemma spike_step_enqueued (U : nat -> R) (s s' : System) (lt : R) (row : list R) :
  jump_to_next_event U s = Ok s' ->
  (forall e, last_event (events s) = Some e -> fst e <= lt) ->
  In row (fst (spike_step lt s')) ->
  exists ev, enqueued s s' ev /\ last_event (events s') = Some ev /\
             row = (fst ev - tau s') :: snd ev /\ row = t s' :: snd ev.
Proof.
  intros Hj Hinv Hin. unfold spike_step in Hin.
  destruct (last_event (events s')) as [ev|] eqn:Elast; [| destruct Hin].
  destruct (np.Rltb lt (fst ev)) eqn:Elt; [| destruct Hin].
  apply Rltb_spec in Elt. destruct Hin as [<- | []].
  destruct (jump_queue U s s' Hj) as [(ev0 & Hen) | [He | [He | (hd & He)]]].
  - assert (ev0 = ev).
    { pose proof (enqueued_newest s s' ev0 Hen) as Hnew.
      rewrite Hnew in Elast. injection Elast as <-. reflexivity. }
    subst ev0. exists ev. split; [exact Hen |]. split; [reflexivity |].
    split; [reflexivity |].
    destruct Hen as (dt & Ht & Htau & Harr & _). f_equal.
    rewrite Harr, Ht, Htau. ring.
  - rewrite He in Elast. discriminate.
  - rewrite He in Elast. specialize (Hinv ev Elast). lra.
  - destruct (events s') as [|x q] eqn:Eq; [discriminate |].
    rewrite He, last_event_tail in Hinv. specialize (Hinv ev Elast). lra.
Qed.

Lemma spike_rows_app (pre post : list System) :
  forall lt, spike_rows lt (pre ++ post) =
             spike_rows lt pre ++ spike_rows (last_recorded lt pre) post.
Proof.
  induction pre as [|s pre IH]; intros lt; simpl; [reflexivity |].
  rewrite IH, app_assoc. reflexivity.
Qed.

Lemma last_recorded_app (pre post : list System) :
  forall lt, last_recorded lt (pre ++ post) =
             last_recorded (last_recorded lt pre) post.
Proof.
  induction pre as [|s pre IH]; intros lt; simpl; [reflexivity | apply IH].
Qed.

(** The rows of a run, split at one of its steps. *)
Lemma spike_rows_at (pre post : list System) (s' : System) (lt : R) :
  spike_rows lt (pre ++ s' :: post) =
  spike_rows lt pre ++ fst (spike_step (last_recorded lt pre) s') ++
  spike_rows (last_recorded lt (pre ++ [s'])) post.
Proof.
  rewrite spike_rows_app, last_recorded_app. reflexivity.
Qed.

(** From the first record on, the last recorded time is not before the
    arrival of the newest delivery in the queue. *)
Lemma last_recorded_newest (pre : list System) :
  forall (s0 : System) (lt : R),
    (forall e, last_event (events s0) = Some e -> fst e <= lt) ->
    forall e, last_event (events (last pre s0)) = Some e ->
              fst e <= last_recorded lt pre.
Proof.
  induction pre as [|x pre IH]; intros s0 lt Hinv e He; simpl in *.
  - apply Hinv. exact He.
  - change (match pre with [] => x | _ :: _ => last pre s0 end)
      with (last (x :: pre) s0) in He.
    rewrite last_shift in He.
    apply (IH x (snd (spike_step lt x))); [| exact He].
    intros e0 He0. apply spike_step_last. exact He0.
Qed.

Lemma loop_trace_at (U : nat -> R) (t_end : R) (pre post : list System)
      (s' : System) :
  forall s0, loop_trace U t_end s0 (pre ++ s' :: post) ->
             jump_to_next_event U (last pre s0) = Ok s'.
Proof.
  induction pre as [|x pre IH]; intros s0 Htr.
  - destruct Htr as (_ & Hj & _). exact Hj.
  - destruct Htr as (_ & _ & Htr). rewrite last_shift. apply IH. exact Htr.
Qed.

(** C5, as the code has it.  A run that reaches [t_end] after the steps
    [tr] returns, and its spike artifacts hold the rows recorded after every
    step with the last recorded time 0 at the start.  Every row was recorded
    from the newest pending delivery [ev] in the queue after a step: the
    first column is its arrival time less the delay and the rest is its
    spike vector, made of indicators when the queue held only indicator
    vectors at the start.  At every step but the first one of a run that
    starts with deliveries in the queue, the row recorded right after the
    step, if any, is that of the delivery the step itself has put in the
    queue: its first column is the clock after the step, the time the spikes
    were emitted, and its other columns mark the neurons that reached the
    threshold at that step. *)
Theorem spike_artifacts_hold_emission_times (U : nat -> R) (OUTPUT_MEMORY : R)
        (w : WithOutput) (t_end : R) (d : folder) (tr : list System) (fuel : nat) :
  (0 < output_size_of OUTPUT_MEMORY (system w))%Z ->
  loop_trace U t_end (system w) tr -> (length tr <= fuel)%nat ->
  exists w' d' c,
    WithOutput_run U OUTPUT_MEMORY fuel w t_end d = Returns (w', d') /\
    n_files w' = (n_files w + c)%nat /\
    read_back spikes_npy (n_files w) c d' = spike_rows 0 tr /\
    (forall row, In row (read_back spikes_npy (n_files w) c d') ->
       exists s ev,
         In s tr /\ last_event (events s) = Some ev /\
         row = (fst ev - tau s) :: snd ev /\
         (Forall (fun e => binary (snd e)) (events (system w)) -> binary (snd ev))) /\
    (forall pre s' post, tr = pre ++ s' :: post ->
       read_back spikes_npy (n_files w) c d' =
       spike_rows 0 pre ++ fst (spike_step (last_recorded 0 pre) s') ++
       spike_rows (last_recorded 0 (pre ++ [s'])) post /\
       (pre <> [] \/ events (system w) = [] ->
        forall row, In row (fst (spike_step (last_recorded 0 pre) s')) ->
          exists ev,
            jump_to_next_event U (last pre (system w)) = Ok s' /\
            enqueued (last pre (system w)) s' ev /\
            last_event (events s') = Some ev /\
            row = (fst ev - tau s') :: snd ev /\
            row = t s' :: snd ev /\
            binary (snd ev))).
Proof.
  intros Hcap Htr Hfuel.
  destruct (WithOutput_run_spec U OUTPUT_MEMORY w t_end d tr fuel Hcap Htr Hfuel)
    as (d' & c & Hrun & _ & HS).
  eexists. exists d', c. split; [exact Hrun |]. split; [reflexivity |].
  split; [exact HS |]. rewrite HS. split.
  - intros row Hrow.
    destruct (spike_rows_origin tr 0 row Hrow) as (s & ev & Hs & Hev & Hr).
    exists s, ev. repeat split; auto.
    intros Hbin.
    pose proof (loop_trace_binary U t_end tr (system w) Htr Hbin) as Hall.
    rewrite Forall_forall in Hall. specialize (Hall s Hs).
    rewrite Forall_forall in Hall. apply (Hall ev). apply last_event_In. exact Hev.
  - intros pre s' post Hsplit. subst tr.
    split; [apply spike_rows_at |].
    intros Hstart row Hrow.
    pose proof (loop_trace_at U t_end pre post s' (system w) Htr) as Hj.
    assert (Hinv : forall e, last_event (events (last pre (system w))) = Some e ->
                             fst e <= last_recorded 0 pre).
    { destruct pre as [|x pre].
      - destruct Hstart as [Hne | Hempty]; [contradiction |].
        intros e He. simpl in He. rewrite Hempty in He. discriminate.
      - intros e He. rewrite last_shift in He. simpl.
        apply (last_recorded_newest pre x (snd (spike_step 0 x))); [| exact He].
        intros e0 He0. apply spike_step_last. exact He0. }
    destruct (spike_step_enqueued U _ s' _ row Hj Hinv Hrow)
      as (ev & Hen & Hlast & Hr1 & Hr2).
    exists ev. repeat split; auto.
    apply (enqueued_binary _ s' ev Hen).
Qed.

Lemma spike_artifacts_hold_emission_times_witness :
  exists w' d' c,
    WithOutput_run draws_half 32 4 (mkWithOutput (one 2 (1 / 20) 0 [] (1 / 2)) 0)
                   (3 / 5) empty_folder = Returns (w', d') /\
    n_files w' = (0 + c)%nat /\
    read_back spikes_npy 0 c d' = spike_rows 0 recorded_run /\
    (forall row, In row (read_back spikes_npy 0 c d') ->
       exists s ev,
         In s recorded_run /\ last_event (events s) = Some ev /\
         row = (fst ev - tau s) :: snd ev /\
         (Forall (fun e => binary (snd e)) (events (one 2 (1 / 20) 0 [] (1 / 2))) ->
          binary (snd ev))) /\
    (forall pre s' post, recorded_run = pre ++ s' :: post ->
       read_back spikes_npy 0 c d' =
       spike_rows 0 pre ++ fst (spike_step (last_recorded 0 pre) s') ++
       spike_rows (last_recorded 0 (pre ++ [s'])) post /\
       (pre <> [] \/ events (one 2 (1 / 20) 0 [] (1 / 2)) = [] ->
        forall row, In row (fst (spike_step (last_recorded 0 pre) s')) ->
          exists ev,
            jump_to_next_event draws_half (last pre (one 2 (1 / 20) 0 [] (1 / 2)))
            = Ok s' /\
            enqueued (last pre (one 2 (1 / 20) 0 [] (1 / 2))) s' ev /\
            last_event (events s') = Some ev /\
            row = (fst ev - tau s') :: snd ev /\
            row = t s' :: snd ev /\
            binary (snd ev))).
Proof.
  apply (spike_artifacts_hold_emission_times draws_half 32
           (mkWithOutput (one 2 (1 / 20) 0 [] (1 / 2)) 0) (3 / 5) empty_folder
           recorded_run 4).
  - simpl. rewrite output_size_32. lia.
  - apply recorded_run_trace.
  - simpl. lia.
Defined.

(** *** A run that resumes with deliveries in the queue *)

Lemma one_receives_head (U : nat -> R) (J tau0 t0 a : R)
      (rest : list (R * list R)) :
  0 <= a - t0 < 1 ->
  jump_to_next_event U (one J tau0 t0 ((a, [1]) :: rest) 0) =
  Ok (one J tau0 a rest (h_one J (a - t0))).
Proof.
  intros Ha. unfold jump_to_next_event, next_delivery, one. eval_step.
  decide_tests. unfold delivery_branch, arrivals. eval_step.
  unfold h, h_one. eval_step.
  replace (- (1) * (0 + (a - t0))) with (- (a - t0)) by lra.
  replace (exp (- (a - t0)) - 1 / 1 * (J * 1 + 0)) with (exp (- (a - t0)) - J) by lra.
  destruct (np.Rleb (exp (- (a - t0)) - J) 0); eval_step;
    unfold sentinel; unfold_setters; struct_eq.
Qed.

Lemma first_run_trace :
  loop_trace draws_half (3 / 2) (one 0 (3 / 2) 0 [] (1 / 2)) first_run.
Proof.
  unfold first_run. simpl.
  split; [lra |]. split.
  { rewrite one_drifts by lra. f_equal. unfold one. struct_eq. }
  split; [lra |]. split.
  { rewrite (jump_self draws_half _ 0);
      [| reflexivity | unfold next_dt, horizon; simpl; lra].
    unfold after_self_threshold, one. simpl.
    rewrite Rmax_left by lra. rewrite Rleb_true by lra. f_equal. struct_eq. }
  lra.
Qed.

Lemma resumed_run_trace :
  loop_trace draws_half 2 (one 0 (3 / 2) (3 / 2) [(2, [1]); (3, [1])] 0) resumed_run.
Proof.
  unfold resumed_run. simpl.
  split; [lra |]. split; [apply one_receives_head; lra |]. lra.
Qed.

(** A run that resumes with deliveries in the queue starts again with the
    last recorded time 0: the second run records the delivery that arrives
    at 3, which the first run has recorded when the neuron fired at 3/2,
    after a step that only takes the head of the queue. *)
Lemma spike_row_recorded_again_on_resume :
  exists w1 d1 c1 w2 d2 c2 hd,
    WithOutput_run draws_half 32 2 (mkWithOutput (one 0 (3 / 2) 0 [] (1 / 2)) 0)
                   (3 / 2) empty_folder = Returns (w1, d1) /\
    n_files w1 = (0 + c1)%nat /\
    read_back spikes_npy 0 c1 d1 = [[2 - 3 / 2; 1]; [3 - 3 / 2; 1]] /\
    WithOutput_run draws_half 32 1 w1 2 d1 = Returns (w2, d2) /\
    n_files w2 = (n_files w1 + c2)%nat /\
    read_back spikes_npy (n_files w1) c2 d2 = [[3 - 3 / 2; 1]] /\
    jump_to_next_event draws_half (system w1) = Ok (system w2) /\
    events (system w1) = hd :: events (system w2).
Proof.
  destruct (WithOutput_run_spec draws_half 32
              (mkWithOutput (one 0 (3 / 2) 0 [] (1 / 2)) 0) (3 / 2) empty_folder
              first_run 2) as (d1 & c1 & Hrun1 & _ & HS1).
  { simpl. rewrite output_size_32. lia. }
  { apply first_run_trace. }
  { simpl. lia. }
  cbn [n_files system] in Hrun1, HS1.
  destruct (WithOutput_run_spec draws_half 32
              (mkWithOutput (last first_run (one 0 (3 / 2) 0 [] (1 / 2))) (0 + c1))
              2 d1 resumed_run 1) as (d2 & c2 & Hrun2 & _ & HS2).
  { simpl. rewrite output_size_32. lia. }
  { apply resumed_run_trace. }
  { simpl. lia. }
  cbn [n_files system] in Hrun2, HS2.
  eexists. exists d1, c1. eexists. exists d2, c2, (2, [1]).
  split; [exact Hrun1 |]. split; [reflexivity |]. split.
  { rewrite HS1. unfold first_run, spike_rows, spike_step. simpl.
    decide_tests. simpl. decide_tests. reflexivity. }
  split; [exact Hrun2 |]. split; [reflexivity |]. split.
  { cbn [n_files]. rewrite HS2. unfold resumed_run, spike_rows, spike_step. simpl.
    decide_tests. reflexivity. }
  split.
  - cbn [system]. simpl. apply one_receives_head. lra.
  - reflexivity.
Qed.

(** ** An empty internal population *)

Lemma first_zero (sizes : list nat) :
  In 0%nat sizes ->
  exists m, nth_error sizes m = Some 0%nat /\
            forall m', (m' < m)%nat ->
                       exists n, nth_error sizes m' = Some n /\ (0 < n)%nat.
Proof.
  induction sizes as [|x sizes IH]; intros Hin; [destruct Hin |].
  destruct x as [|x].
  - exists 0%nat. split; [reflexivity | intros m' Hm'; lia].
  - destruct Hin as [Hx | Hin]; [discriminate |].
    destruct (IH Hin) as (m & Hm & Hbefore).
    exists (S m). split; [exact Hm |].
    intros [|m'] Hm'.
    + exists (S x). split; [reflexivity | lia].
    + apply Hbefore. lia.
Qed.

Lemma create_matrix_empty_population (U : nat -> R) (src : list nat)
      (J : list (list R)) (K : R) (s : System) :
  covers2 J (length (N s)) (length src) -> In 0%nat (N s) ->
  create_matrix U src J K s = Raise ZeroDivisionError.
Proof.
  intros HJ Hin. destruct (first_zero (N s) Hin) as (m & Hm & Hbefore).
  assert (Hlt : (m < length (N s))%nat) by (eapply nth_error_lt; exact Hm).
  unfold create_matrix. cbv zeta. cbn [N set_rng].
  rewrite (seq_split_at (length (N s)) m Hlt).
  rewrite for_each_raises with (e := ZeroDivisionError); [reflexivity | |].
  - intros i r Hi. apply in_seq in Hi. cbn [set_rng N].
    destruct (Hbefore i) as (n_i & Hn_i & Hpos); [lia |].
    unfold get_item at 1. rewrite Hn_i. cbn [bind].
    rewrite (float_div_ok K n_i Hpos). cbn [bind].
    destruct (for_each_inv (fun _ : list (list R) => True) (seq 0 (length src))
                (fun j r0 =>
                   n_j <- get_item src j ;;
                   J_i <- get_item J i ;;
                   J_ij <- get_item J_i j ;;
                   Ok (np.map_slice (first_index (N s) i) n_i
                         (np.map_slice (first_index src j) n_j
                                       (fun x => x * J_ij)) r0))
                (np.map_slice (first_index (N s) i) n_i
                              (map (connect (K / INR n_i))) r) Logic.I)
      as (r' & E & _).
    + intros j r0 Hj _. apply in_seq in Hj.
      destruct (get_item_ok src j) as (n_j & -> & _); [lia |].
      destruct (HJ i j) as (row & x & Hrow & Hx); [lia | lia |].
      unfold get_item. rewrite Hrow. simpl. rewrite Hx. simpl.
      eexists. split; [reflexivity | exact Logic.I].
    + exists r'. exact E.
  - intros r. cbn [set_rng N]. unfold get_item. rewrite Hm. reflexivity.
Qed.

(** X26. A construction with an internal population of size 0 fails with
    ZeroDivisionError, at [p_i = float(K)/self.N[i]], when the parameters are
    such that nothing fails before: [I], [gamma] and [J_int] have their
    entries and every non-empty external population has a non-zero rate. *)
Theorem System_init_empty_population (U : nat -> R) (N0 : list nat)
        (J_int : list (list R)) (I gamma : list R) (K tau0 : R)
        (N_ext0 : list nat) (J_ext : list (list R)) (rates0 : list R) :
  In 0%nat N0 ->
  covers I (length N0) ->
  covers gamma (length N0) ->
  covers2 J_int (length N0) (length N0) ->
  rates_cover rates0 N_ext0 ->
  System_init U N0 J_int I gamma K tau0 N_ext0 J_ext rates0 =
  Raise ZeroDivisionError.
Proof.
  intros Hzero HI Hg HJ Hr. unfold System_init.
  destruct (fill_I_gamma_ok N0 I gamma HI Hg) as (Ig & ->). cbn [bind].
  destruct (get_initial_ISI_ok U
              (mkSystem N0 N_ext0 tau0 Ig 0 [] rates0 (np.ones (np.sum N_ext0)) [] [] 0))
    as (s1 & -> & HN1 & _); [exact Hr |].
  cbn [N] in HN1. cbn [bind].
  unfold create_weight_matrix.
  rewrite create_matrix_empty_population; [reflexivity | |].
  - cbn [create_phases N set_rng set_phases]. rewrite HN1. exact HJ.
  - cbn [create_phases N set_rng set_phases]. rewrite HN1. exact Hzero.
Qed.

Lemma System_init_empty_population_witness :
  System_init draws_half [2%nat; 0%nat] [[0; 0]; [0; 0]] [1; 1] [1; 1] 1 (1 / 20)
              [] [] []
  = Raise ZeroDivisionError.
Proof.
  apply (System_init_empty_population draws_half [2%nat; 0%nat] [[0; 0]; [0; 0]]
           [1; 1] [1; 1] 1 (1 / 20) [] [] []).
  - right. left. reflexivity.
  - unfold covers. simpl. lia.
  - unfold covers. simpl. lia.
  - intros i j Hi Hj. simpl in Hi, Hj.
    destruct i as [|[|i]]; destruct j as [|[|j]]; try lia;
      eexists; eexists; split; reflexivity.
  - intros n size Hn Hs. destruct n; discriminate.
Defined.
